(** * Port publishing: package generate

    A shallow embedding of [parsePortMapping], [createPortMappings],
    [checkProtocol] and the use made of [getRandomPort], together with the
    properties of the port-publishing specification that are settled on
    them.  Line numbers are those of src/unnamed/part_001.

    Conventions of the embedding.
    - Go's [uint16], [uint32], [int32] and [int] values are integers in [Z];
      every conversion and every fixed-width addition of the source is
      written out with its wrap-around.
    - The conflict tables [map[string]map[string]map[uint16]uint16] are
      nested [gmap]s.  Go maps are references: a write through the local
      alias [ctrPortMap] is a write into the table, so a write is modelled
      as a nested update of the table.
    - Go leaves the order of [range] over a map unspecified.  The order is
      supplied by the runtime (class [Runtime]), indexed by the number of
      [range] statements executed so far, and only required to enumerate
      the entries of the map.
    - [net.ParseIP] and the operating system behind [getRandomPort] are
      parameters of the same class. *)

From Stdlib Require Import ZArith Lia String Ascii DecimalString.
From stdpp Require Import base gmap sets list strings.

Local Open Scope string_scope.
Local Open Scope Z_scope.

(** ** Fixed-width integers *)

Definition uint16 (z : Z) : Z := z mod 65536.
Definition uint32 (z : Z) : Z := z mod 4294967296.
Definition int32 (z : Z) : Z := (z + 2147483648) mod 4294967296 - 2147483648.

(** ** Errors

    The source builds its errors with [errors.Errorf] and [errors.Wrapf];
    one constructor stands for each call site, named after the error kind
    the specification gives it, with the message of the source beside it. *)

Inductive error : Type :=
| ProtocolNotAllowed
    (* "protocol SCTP is not allowed for exposed ports" *)
| InvalidProtocol (p : string)
    (* "unrecognized protocol %q in port mapping" *)
| NoValidProtocols
    (* "no valid protocols specified for port mapping" *)
| InvalidHostIP (hostIP : string)
    (* "invalid IP address %s in port mapping" *)
| ZeroContainerPort
    (* "container port number must be non-0" *)
| ContainerPortRangeOverflow
    (* "container port range exceeds maximum allowable port number" *)
| HostPortRangeOverflow
    (* "host port range exceeds maximum allowable port number" *)
| ZeroPortInExpansion
    (* "host and container ports cannot be 0" *)
| ConflictingContainerPort (cPort : Z) (p : string)
    (* "conflicting port mappings for container port %d (protocol %s)" *)
| ConflictingHostPort (hPort : Z) (p : string)
    (* "conflicting port mappings for host port %d (protocol %s)" *)
| External (msg : string)
    (* an error made outside this file: image inspection, net.Listen, strconv *)
| InspectFailed (cause : error)
    (* Wrapf "error inspecting image to get exposed ports" *)
| ExposeNotANumber (imgExpose : string) (cause : error)
    (* Wrapf "unable to convert image EXPOSE statement %q to port number" *)
| ExposeNotAPort (num : Z) (imgExpose : string)
    (* "%d from image EXPOSE statement %q is not a valid port number" *)
| ExposeProtocol (port : Z) (cause : error)
    (* Wrapf "error validating protocols for exposed port %d" *)
| ExposeZero
    (* "cannot expose 0 as it is not a valid port number" *)
| PortAllocationExhausted (port : Z)
    (* "failed to find an open port to expose container port %d on the host" *).

(** The outcome of a call: a value, an error, or [Diverge] when a loop of
    the model was cut by its iteration bound. *)
Inductive Outcome (A : Type) : Type :=
| Ok (a : A)
| Err (e : error)
| Diverge.
Arguments Ok {A} a.
Arguments Err {A} e.
Arguments Diverge {A}.

(** ** The world outside the function

    [rangeCalls] counts the [range] statements over maps executed so far,
    [probeCalls] the calls of [getRandomPort]. *)

Record World : Type := mkWorld { rangeCalls : nat; probeCalls : nat }.

Definition M (A : Type) : Type := World -> Outcome A * World.

Definition ret {A} (a : A) : M A := fun w => (Ok a, w).
Definition fail {A} (e : error) : M A := fun w => (Err e, w).
Definition diverge {A} : M A := fun w => (Diverge, w).
Definition bind {A B} (m : M A) (k : A -> M B) : M B :=
  fun w => match m w with
           | (Ok a, w') => k a w'
           | (Err e, w') => (Err e, w')
           | (Diverge, w') => (Diverge, w')
           end.
Definition lift {A} (r : error + A) : M A :=
  match r with inl e => fail e | inr a => ret a end.

#[global] Instance M_ret : MRet M := @ret.
#[global] Instance M_bind : MBind M := fun A B k m => bind m k.

(** [for _, x := range xs { st, err = body(x, st); if err != nil { return err } }] *)
Fixpoint forEach {A S} (body : A -> S -> M S) (xs : list A) (st : S) : M S :=
  match xs with
  | [] => ret st
  | x :: xs' => st' ← body x st; forEach body xs' st'
  end.

(** ** Strings *)

Definition protoTCP : string := "tcp".
Definition protoUDP : string := "udp".
Definition protoSCTP : string := "sctp".

(** [strings.Split(s, sep)] for a separator of one character. *)
Fixpoint Split (s : string) (sep : ascii) : list string :=
  match s with
  | EmptyString => [EmptyString]
  | String c s' =>
      if Ascii.eqb c sep then EmptyString :: Split s' sep
      else match Split s' sep with
           | h :: t => String c h :: t
           | [] => [String c EmptyString]
           end
  end.

(** [strings.SplitN(s, sep, 2)] for a separator of one character. *)
Fixpoint SplitN2 (s : string) (sep : ascii) : list string :=
  match s with
  | EmptyString => [EmptyString]
  | String c s' =>
      if Ascii.eqb c sep then [EmptyString; s']
      else match SplitN2 s' sep with
           | h :: t => String c h :: t
           | [] => [String c EmptyString]
           end
  end.

(** [strconv.Atoi]: an optional sign, then one or more decimal digits, the
    value within the range of a 64-bit [int]. *)
Definition digitValue (c : ascii) : option Z :=
  let n := Z.of_N (N_of_ascii c) in
  if (48 <=? n) && (n <=? 57) then Some (n - 48) else None.

Fixpoint parseDigits (s : string) (acc : Z) : option Z :=
  match s with
  | EmptyString => Some acc
  | String c s' =>
      match digitValue c with
      | Some d => parseDigits s' (10 * acc + d)
      | None => None
      end
  end.

Definition Atoi (s : string) : error + Z :=
  let '(neg, digits) :=
    match s with
    | String "-" s' => (true, s')
    | String "+" s' => (false, s')
    | _ => (false, s)
    end in
  match digits with
  | EmptyString => inl (External "strconv.Atoi: invalid syntax")
  | _ =>
      match parseDigits digits 0 with
      | None => inl (External "strconv.Atoi: invalid syntax")
      | Some n =>
          let v := if neg then - n else n in
          if (v <? - 9223372036854775808) || (9223372036854775807 <? v)
          then inl (External "strconv.Atoi: value out of range")
          else inr v
      end
  end.

(** ** Data *)

Module specgen.
(** [specgen.PortMapping]; the three ports are [uint16]. *)
Record PortMapping : Type := {
  HostIP : string;
  ContainerPort : Z;
  HostPort : Z;
  Range : Z;
  Protocol : string
}.

(** The fields of a request hold [uint16] values. *)
Definition wf (port : PortMapping) : Prop :=
  0 <= ContainerPort port < 65536 /\
  0 <= HostPort port < 65536 /\
  0 <= Range port < 65536.
End specgen.

Module ocicni.
(** [ocicni.PortMapping]; the two ports are [int32]. *)
Record PortMapping : Type := {
  HostPort : Z;
  ContainerPort : Z;
  Protocol : string;
  HostIP : string
}.
End ocicni.

(** [image.Image], as far as the function looks at it: what
    [InspectNoSize] answers, an error or [Config.ExposedPorts]. *)
Record Image : Type := { InspectNoSize : error + gset string }.

(** The fields of [specgen.SpecGenerator] the function reads;
    [Expose] is a [map[uint16]string]. *)
Record SpecGenerator : Type := {
  PortMappings : list specgen.PortMapping;
  PublishExposedPorts : bool;
  Expose : gmap Z string
}.

(** ** The conflict tables

    [map[string]map[string]map[uint16]uint16]: protocol, then host IP, then
    port to port.  Reading a key that is absent, also in a map that is
    itself absent, yields the zero value. *)

Abbreviation Table := (gmap string (gmap string (gmap Z Z))).

Definition ipMaps (t : Table) (p : string) : gmap string (gmap Z Z) :=
  default ∅ (t !! p).

Definition portMap (t : Table) (p hostIP : string) : gmap Z Z :=
  default ∅ (ipMaps t p !! hostIP).

(** [t[p][hostIP][k]] *)
Definition tblGet (t : Table) (p hostIP : string) (k : Z) : Z :=
  default 0 (portMap t p hostIP !! k).

(** [m, ok := t[p][hostIP]; if !ok { m = make(...); t[p][hostIP] = m }] *)
Definition ensureIP (t : Table) (p hostIP : string) : Table :=
  match ipMaps t p !! hostIP with
  | Some _ => t
  | None => <[p := <[hostIP := ∅]> (ipMaps t p)]> t
  end.

(** [m[k] = v] through the alias [m] of [t[p][hostIP]] *)
Definition tblSet (t : Table) (p hostIP : string) (k v : Z) : Table :=
  <[p := <[hostIP := <[k := v]> (portMap t p hostIP)]> (ipMaps t p)]> t.

(** Lines 53-61: both tables start with the three protocols at the first
    level, which are the only values [p] takes afterwards. *)
Definition initTable : Table :=
  foldl (fun t proto => <[proto := ∅]> t) ∅ [protoTCP; protoUDP; protoSCTP].

(** ** The loops of parsePortMapping *)

Record PState : Type := mkPState {
  finalMappings : list ocicni.PortMapping;
  containerPortValidate : Table;
  hostPortValidate : Table
}.

(** Lines 122-157, the body of the loop over [index]. *)
Definition mapPort (port : specgen.PortMapping) (p hostIP : string)
    (containerPort hostPort index : Z) (st : PState) : error + PState :=
  let cPort := uint16 (containerPort + index) in
  let hPort := uint16 (hostPort + index) in
  if (cPort =? 0) || (hPort =? 0) then inl ZeroPortInExpansion else
  let testCPort := tblGet (containerPortValidate st) p hostIP cPort in
  if negb (testCPort =? 0) && negb (testCPort =? hPort)
  then inl (ConflictingContainerPort cPort p) else
  let ctr := tblSet (containerPortValidate st) p hostIP cPort hPort in
  let testHPort := tblGet (hostPortValidate st) p hostIP hPort in
  if negb (testHPort =? 0) && negb (testHPort =? cPort)
  then inl (ConflictingHostPort hPort p) else
  let host := tblSet (hostPortValidate st) p hostIP hPort cPort in
  if (testCPort =? hPort) && (testHPort =? cPort)
  then inr (mkPState (finalMappings st) ctr host)
  else
    let cniPort := {| ocicni.HostPort := int32 hPort;
                      ocicni.ContainerPort := int32 cPort;
                      ocicni.Protocol := p;
                      ocicni.HostIP := specgen.HostIP port |} in
    inr (mkPState (finalMappings st ++ [cniPort])%list ctr host).

(** Line 121, [for index = 0; index < len; index++], with [n] the number
    of iterations that remain. *)
Fixpoint mapRange (port : specgen.PortMapping) (p hostIP : string)
    (containerPort hostPort : Z) (n : nat) (index : Z) (st : PState)
    : error + PState :=
  match n with
  | O => inr st
  | S n' =>
      match mapPort port p hostIP containerPort hostPort index st with
      | inl err => inl err
      | inr st' =>
          mapRange port p hostIP containerPort hostPort n' (uint16 (index + 1)) st'
      end
  end.

(** Lines 103-159, the loop over the protocols of one request. *)
Fixpoint mapProtocols (port : specgen.PortMapping) (hostIP : string)
    (len containerPort hostPort : Z) (protocols : list string) (st : PState)
    : error + PState :=
  match protocols with
  | [] => inr st
  | p :: rest =>
      let st1 := mkPState (finalMappings st)
                   (ensureIP (containerPortValidate st) p hostIP)
                   (ensureIP (hostPortValidate st) p hostIP) in
      match mapRange port p hostIP containerPort hostPort (Z.to_nat len) 0 st1 with
      | inl err => inl err
      | inr st' => mapProtocols port hostIP len containerPort hostPort rest st'
      end
  end.

(** ** The loop of checkProtocol *)

Fixpoint checkProtocolLoop (allowSCTP : bool) (splitProto : list string)
    (protocols : gset string) : error + gset string :=
  match splitProto with
  | [] => inr protocols
  | p :: rest =>
      if (p =? protoTCP)%string || (p =? "")%string then
        checkProtocolLoop allowSCTP rest ({[protoTCP]} ∪ protocols)
      else if (p =? protoUDP)%string then
        checkProtocolLoop allowSCTP rest ({[protoUDP]} ∪ protocols)
      else if (p =? protoSCTP)%string then
        if negb allowSCTP then inl ProtocolNotAllowed
        else checkProtocolLoop allowSCTP rest ({[protoSCTP]} ∪ protocols)
      else inl (InvalidProtocol p)
  end.

(** ** The runtime *)

Class Runtime : Type := {
  (** [net.ParseIP(s) != nil] *)
  ParseIP : string -> bool;
  ParseIP_wildcard : ParseIP "0.0.0.0" = true;
  (** the order in which the n-th [range] yields the entries of a map *)
  orderStrings : nat -> list string -> list string;
  orderStrings_perm : forall n l, orderStrings n l ≡ₚ l;
  orderExpose : nat -> list (Z * string) -> list (Z * string);
  orderExpose_perm : forall n l, orderExpose n l ≡ₚ l;
  orderToExpose : nat -> list (Z * list string) -> list (Z * list string);
  orderToExpose_perm : forall n l, orderToExpose n l ≡ₚ l;
  (** the result of the n-th call of [getRandomPort] *)
  randomPort : nat -> error + Z
}.

Section Ports.
Context {R : Runtime}.

Definition rangeStrings (s : gset string) : M (list string) :=
  fun w => (Ok (orderStrings (rangeCalls w) (elements s)),
            mkWorld (S (rangeCalls w)) (probeCalls w)).

Definition rangeExpose (m : gmap Z string) : M (list (Z * string)) :=
  fun w => (Ok (orderExpose (rangeCalls w) (map_to_list m)),
            mkWorld (S (rangeCalls w)) (probeCalls w)).

Definition rangeToExpose (m : gmap Z (list string)) : M (list (Z * list string)) :=
  fun w => (Ok (orderToExpose (rangeCalls w) (map_to_list m)),
            mkWorld (S (rangeCalls w)) (probeCalls w)).

(** [getRandomPort]: the listener, its address and the conversion of the
    port are the operating system's and the library's; the call yields the
    next answer of the runtime. *)
Definition getRandomPort : M Z :=
  fun w => (match randomPort (probeCalls w) with
            | inl e => Err e
            | inr rp => Ok rp
            end,
            mkWorld (rangeCalls w) (S (probeCalls w))).

(** ** checkProtocol *)

Definition checkProtocol (protocol : string) (allowSCTP : bool) : M (list string) :=
  let splitProto := Split protocol "," in
  protocols ← lift (checkProtocolLoop allowSCTP splitProto ∅);
  finalProto ← rangeStrings protocols;
  if (length finalProto =? 0)%nat then fail NoValidProtocols
  else ret finalProto.

(** ** parsePortMapping *)

(** Lines 66-99 followed by the loops, the body of the loop over the
    requests. *)
Definition mapRequest (port : specgen.PortMapping) (st : PState) : M PState :=
  protocols ← checkProtocol (specgen.Protocol port) true;
  let hostIP := if (specgen.HostIP port =? "")%string then "0.0.0.0" else specgen.HostIP port in
  if negb (ParseIP hostIP) then fail (InvalidHostIP (specgen.HostIP port)) else
  let len := if specgen.Range port =? 0 then 1 else specgen.Range port in
  let containerPort := specgen.ContainerPort port in
  if containerPort =? 0 then fail ZeroContainerPort else
  let hostPort := if specgen.HostPort port =? 0 then containerPort
                  else specgen.HostPort port in
  if 65535 <? uint32 (uint32 (uint16 (len - 1)) + uint32 containerPort)
  then fail ContainerPortRangeOverflow else
  if 65536 <? uint32 (uint32 (uint16 (len - 1)) + uint32 hostPort)
  then fail HostPortRangeOverflow else
  lift (mapProtocols port hostIP len containerPort hostPort protocols st).

Definition parsePortMapping (portMappings : list specgen.PortMapping) : M PState :=
  forEach mapRequest portMappings (mkPState [] initTable initTable).

(** ** createPortMappings *)

(** [errors.Wrapf(err, ...)] on the error of a call. *)
Definition wrapErr {A} (f : error -> error) (m : M A) : M A :=
  fun w => match m w with
           | (Err e, w') => (Err (f e), w')
           | r => r
           end.

(** Lines 191-207, the body of the loop over the ports the image declares. *)
Definition addImageExpose (imgExpose : string) (expose : gmap Z string)
    : M (gmap Z string) :=
  let splitExpose := SplitN2 imgExpose "/" in
  match Atoi (hd "" splitExpose) with
  | inl err => fail (ExposeNotANumber imgExpose err)
  | inr num =>
      if (65535 <? num) || (num <? 1) then fail (ExposeNotAPort num imgExpose)
      else if (length splitExpose =? 1)%nat
           then ret (<[uint16 num := "tcp"]> expose)
           else ret (<[uint16 num := nth 1 splitExpose ""]> expose)
  end.

(** Lines 181-208: the merge of [s.Expose] and the ports of the image. *)
Definition mergeExpose (s : SpecGenerator) (img : option Image) : M (gmap Z string) :=
  entries ← rangeExpose (Expose s);
  let expose := foldl (fun m kv => <[kv.1 := kv.2]> m) (∅ : gmap Z string) entries in
  match img with
  | None => ret expose
  | Some im =>
      match InspectNoSize im with
      | inl err => fail (InspectFailed err)
      | inr exposedPorts =>
          declared ← rangeStrings exposedPorts;
          forEach addImageExpose declared expose
      end
  end.

(** Lines 227-243, the body of the loop over the protocols of one exposed
    port. *)
Definition markProtocol (port : Z) (st : gmap Z (list string) * Table) (p : string)
    : gmap Z (list string) * Table :=
  let ctr := ensureIP st.2 p "0.0.0.0" in
  if tblGet ctr p "0.0.0.0" port =? 0
  then
    let exposeProto := default [] (st.1 !! port) in
    (<[port := (exposeProto ++ [p])%list]> st.1, ctr)
  else (st.1, ctr).

(** Lines 214-244, the body of the loop over the merged expose set. *)
Definition markPort (entry : Z * string) (st : gmap Z (list string) * Table)
    : M (gmap Z (list string) * Table) :=
  protocols ← wrapErr (ExposeProtocol entry.1) (checkProtocol entry.2 false);
  if entry.1 =? 0 then fail ExposeZero
  else ret (foldl (markProtocol entry.1) st protocols).

(** Lines 213-244: which ports to expose, under which protocols. *)
Definition markExposed (expose : gmap Z string) (containerPortValidate : Table)
    : M (gmap Z (list string) * Table) :=
  entries ← rangeExpose expose;
  forEach markPort entries (∅, containerPortValidate).

(** Lines 254-289, the loop [for hostPort == 0 && tries > 0], cut after
    [fuel] iterations.  The state is [hostPort], [tries], the mappings and
    the host table. *)
Fixpoint probeLoop (fuel : nat) (port : Z) (p : string) (hostPort tries : Z)
    (st : list ocicni.PortMapping * Table)
    : M (Z * Z * (list ocicni.PortMapping * Table)) :=
  if (hostPort =? 0) && (0 <? tries) then
    match fuel with
    | O => diverge
    | S fuel' =>
        candidate ← getRandomPort;
        let host := ensureIP st.2 p "0.0.0.0" in
        if negb (tblGet host p "0.0.0.0" (uint16 candidate) =? 0)
        then probeLoop fuel' port p hostPort (tries - 1) (st.1, host)
        else
          let host' := tblSet host p "0.0.0.0" (uint16 candidate) port in
          let cniPort := {| ocicni.HostPort := int32 candidate;
                            ocicni.ContainerPort := int32 port;
                            ocicni.Protocol := p;
                            ocicni.HostIP := "" |} in
          probeLoop fuel' port p candidate tries ((st.1 ++ [cniPort])%list, host')
    end
  else ret (hostPort, tries, st).

(** The loop runs at most sixteen times for a port other than 0: [tries]
    falls fifteen times, and a candidate that is accepted ends the loop
    unless it is 0, which can be accepted once. *)
Definition probeFuel : nat := 16.

(** Lines 250-293, the body of the loop over the protocols of one port to
    expose. *)
Definition publishProtocol (port : Z) (p : string)
    (st : list ocicni.PortMapping * Table) : M (list ocicni.PortMapping * Table) :=
  r ← probeLoop probeFuel port p 0 15 st;
  if (r.1.2 =? 0) && (r.1.1 =? 0) then fail (PortAllocationExhausted port)
  else ret r.2.

(** Lines 248-295, the body of the loop over the ports to expose. *)
Definition publishPort (entry : Z * list string)
    (st : list ocicni.PortMapping * Table) : M (list ocicni.PortMapping * Table) :=
  forEach (publishProtocol entry.1) entry.2 st.

Definition publishExposed (toExpose : gmap Z (list string))
    (st : list ocicni.PortMapping * Table) : M (list ocicni.PortMapping * Table) :=
  entries ← rangeToExpose toExpose;
  forEach publishPort entries st.

Definition createPortMappings (s : SpecGenerator) (img : option Image)
    : M (list ocicni.PortMapping) :=
  parsed ← parsePortMapping (PortMappings s);
  if negb (PublishExposedPorts s)
     || ((size (Expose s) =? 0)%nat && negb (bool_decide (is_Some img)))
  then ret (finalMappings parsed)
  else
    expose ← mergeExpose s img;
    marked ← markExposed expose (containerPortValidate parsed);
    published ← publishExposed marked.1 (finalMappings parsed, hostPortValidate parsed);
    ret published.1.

End Ports.

(** ** A runtime to run the functions on

    Maps are ranged over in the order of their keys as [map_to_list] and
    [elements] give it, [net.ParseIP] accepts the dotted addresses used
    below, and [getRandomPort] answers 40000, 40001, ... *)

Module Stub.
Definition parseIP (s : string) : bool :=
  (s =? "0.0.0.0")%string || (s =? "127.0.0.1")%string.

Definition runtime : Runtime := {|
  ParseIP := parseIP;
  ParseIP_wildcard := eq_refl;
  orderStrings := fun _ l => l;
  orderStrings_perm := fun _ l => Permutation_refl l;
  orderExpose := fun _ l => l;
  orderExpose_perm := fun _ l => Permutation_refl l;
  orderToExpose := fun _ l => l;
  orderToExpose_perm := fun _ l => Permutation_refl l;
  randomPort := fun n => inr (40000 + Z.of_nat n)
|}.

(** The same runtime with a port source that always answers 8080. *)
Definition busy : Runtime := {|
  ParseIP := parseIP;
  ParseIP_wildcard := eq_refl;
  orderStrings := fun _ l => l;
  orderStrings_perm := fun _ l => Permutation_refl l;
  orderExpose := fun _ l => l;
  orderExpose_perm := fun _ l => Permutation_refl l;
  orderToExpose := fun _ l => l;
  orderToExpose_perm := fun _ l => Permutation_refl l;
  randomPort := fun _ => inr 8080
|}.

(** The same runtime with a port source whose first answer is 0. *)
Definition zeroFirst : Runtime := {|
  ParseIP := parseIP;
  ParseIP_wildcard := eq_refl;
  orderStrings := fun _ l => l;
  orderStrings_perm := fun _ l => Permutation_refl l;
  orderExpose := fun _ l => l;
  orderExpose_perm := fun _ l => Permutation_refl l;
  orderToExpose := fun _ l => l;
  orderToExpose_perm := fun _ l => Permutation_refl l;
  randomPort := fun n => inr (match n with O => 0 | _ => 40000 + Z.of_nat n end)
|}.

(** The same runtime on a host where no listener can be opened. *)
Definition noListener : Runtime := {|
  ParseIP := parseIP;
  ParseIP_wildcard := eq_refl;
  orderStrings := fun _ l => l;
  orderStrings_perm := fun _ l => Permutation_refl l;
  orderExpose := fun _ l => l;
  orderExpose_perm := fun _ l => Permutation_refl l;
  orderToExpose := fun _ l => l;
  orderToExpose_perm := fun _ l => Permutation_refl l;
  randomPort := fun _ => inl (External "unable to get free TCP port")
|}.

Definition w0 : World := mkWorld 0 0.

(** The value of a call that returned without error. *)
Definition value {A} (d : A) (r : Outcome A * World) : A :=
  match r.1 with Ok a => a | _ => d end.
End Stub.

(** * The cgroup of a process: package utils

    [GetPidCgroupv2] (src/unnamed/part_000, lines 57-91) and [GetPidCgroup]
    (lines 189-224 of the same file, which holds two versions of the
    package).  The process id of the caller, the cgroup mode and the file
    system are a record [System]: [Open] stands for [os.Open] followed by
    the [bufio.Scanner], and answers the error of [os.Open] or the lines
    the scanner yields.  A slice expression out of range is a panic. *)

Module utils.

Record System := {
  Getpid : Z;
  IsCgroup2UnifiedMode : string + bool;
  Open : string -> string + list string
}.

Inductive error :=
| ModeUnknown (cause : string)
    (* the error of cgroups.IsCgroup2UnifiedMode, as it is *)
| OnlyCgroup2
    (* move under subtree supported only on cgroup v2 *)
| OpenFailed (procFile cause : string)
    (* open file %q *)
| NoCgroupMount (procFile : string).
    (* could not find cgroup v2 mount in %q *)

Inductive result :=
| Return (cgroup : string)
| Fail (e : error)
| Panic.

(** [fmt.Sprintf("/proc/%d/cgroup", pid)] *)
Definition procFile (pid : Z) : string :=
  String.append "/proc/"
    (String.append (NilZero.string_of_int (Z.to_int pid)) "/cgroup").

(** [strings.HasPrefix(s, prefix)] *)
Definition HasPrefix (s prefix : string) : bool := String.prefix prefix s.

(** [line[n:]], [None] when [n] is beyond the end of [line]. *)
Fixpoint sliceFrom (n : nat) (line : string) : option string :=
  match n, line with
  | O, _ => Some line
  | S n', String _ rest => sliceFrom n' rest
  | S _, EmptyString => None
  end.

(** Lines 78-85: the value of [cgroup] after the loop over the lines. *)
Fixpoint scanv2 (lines : list string) : option string :=
  match lines with
  | [] => Some ""
  | line :: rest =>
      if HasPrefix line "0::" then sliceFrom 3 line
      else scanv2 rest
  end.

Definition GetPidCgroupv2 (sys : System) (pid : Z) : result :=
  let pid := if pid =? 0 then Getpid sys else pid in
  match IsCgroup2UnifiedMode sys with
  | inl err => Fail (ModeUnknown err)
  | inr unified =>
      if negb unified then Fail OnlyCgroup2
      else
        match Open sys (procFile pid) with
        | inl err => Fail (OpenFailed (procFile pid) err)
        | inr lines =>
            match scanv2 lines with
            | None => Panic
            | Some cgroup =>
                if (cgroup =? "")%string then Fail (NoCgroupMount (procFile pid))
                else Return cgroup
            end
        end
  end.

(** Lines 207-218: the value of [cgroup] after the loop over the lines. *)
Fixpoint scan (unified : bool) (lines : list string) : option string :=
  match lines with
  | [] => Some ""
  | line :: rest =>
      if unified && HasPrefix line "0::" then sliceFrom 3 line
      else if negb unified then
        match sliceFrom 1 line with
        | None => None
        | Some tail =>
            if HasPrefix tail ":pids:" then sliceFrom 7 line
            else scan unified rest
        end
      else scan unified rest
  end.

Definition GetPidCgroup (sys : System) (pid : Z) : result :=
  let pid := if pid =? 0 then Getpid sys else pid in
  match IsCgroup2UnifiedMode sys with
  | inl err => Fail (ModeUnknown err)
  | inr unified =>
      match Open sys (procFile pid) with
      | inl err => Fail (OpenFailed (procFile pid) err)
      | inr lines =>
          match scan unified lines with
          | None => Panic
          | Some cgroup =>
              if (cgroup =? "")%string then Fail (NoCgroupMount (procFile pid))
              else Return cgroup
          end
      end
  end.

(** The pid whose file is read. *)
Definition target (sys : System) (pid : Z) : Z :=
  if pid =? 0 then Getpid sys else pid.

(** A line of a cgroup v1 host that the loop of [GetPidCgroup] passes
    over: it is not empty, and its bytes from the second on do not start
    with ":pids:". *)
Definition passedOver (line : string) : Prop :=
  exists c tail, line = String c tail /\ HasPrefix tail ":pids:" = false.

(** A system with the given mode whose every cgroup file has the given
    lines. *)
Definition host (unified : bool) (lines : list string) : System := {|
  Getpid := 4242;
  IsCgroup2UnifiedMode := inr unified;
  Open := fun _ => inr lines
|}.

End utils.

(** * The vocabulary of the properties *)

(** ** Worlds *)

(** The world after one more [range] over a map, and after one more call
    of [getRandomPort]. *)
Definition tick (w : World) : World := mkWorld (S (rangeCalls w)) (probeCalls w).

Definition probed (w : World) : World := mkWorld (rangeCalls w) (S (probeCalls w)).

(** The call returns a value or an error: no loop of the model is cut. *)
Definition converges {A} (m : M A) : Prop := forall w, (m w).1 <> Diverge.

(** The call leaves the number of calls of [getRandomPort] as it is. *)
Definition sameProbes {A} (m : M A) : Prop :=
  forall w r w', m w = (r, w') -> probeCalls w' = probeCalls w.

(** The port source never answers 0. *)
Definition nonzeroProbes `{R : Runtime} : Prop :=
  forall n z, randomPort n = inr z -> z <> 0.

(** ** Tables *)

(** Every entry a table stores has a key and a value other than 0. *)
Definition claimsNonzero (t : Table) : Prop :=
  forall p ip k v, portMap t p ip !! k = Some v -> k <> 0 /\ v <> 0.

(** The two tables mirror each other: a claim of one, followed through the
    other, leads back, 0 standing for no claim. *)
Definition mirrored (ctr host : Table) : Prop :=
  (forall p ip c h, h <> 0 -> tblGet ctr p ip c = h -> tblGet host p ip h = c) /\
  (forall p ip c h, c <> 0 -> tblGet host p ip h = c -> tblGet ctr p ip c = h).

(** Two tables that answer every lookup alike. *)
Definition tblEq (t t' : Table) : Prop :=
  forall p ip k, tblGet t p ip k = tblGet t' p ip k.

(** ** Finalized mappings *)

Definition cni (hostPort containerPort : Z) (p hostIP : string) : ocicni.PortMapping :=
  {| ocicni.HostPort := hostPort; ocicni.ContainerPort := containerPort;
     ocicni.Protocol := p; ocicni.HostIP := hostIP |}.

(** The host IP a mapping is bound to: the empty string stands for
    "0.0.0.0". *)
Definition resolveIP (hostIP : string) : string :=
  if (hostIP =? "")%string then "0.0.0.0" else hostIP.

Definition hostKey (m : ocicni.PortMapping) : string * string * Z :=
  (ocicni.Protocol m, resolveIP (ocicni.HostIP m), ocicni.HostPort m).

Definition ctrKey (m : ocicni.PortMapping) : string * string * Z :=
  (ocicni.Protocol m, resolveIP (ocicni.HostIP m), ocicni.ContainerPort m).

(** No two entries at different places of the list agree on protocol,
    resolved host IP and host port, nor on protocol, resolved host IP and
    container port. *)
Definition uniqueMappings (fm : list ocicni.PortMapping) : Prop :=
  NoDup (hostKey <$> fm) /\ NoDup (ctrKey <$> fm).

Definition validPort (z : Z) : Prop := 1 <= z <= 65535.

(** A mapping published for a container port and a protocol. *)
Definition publishedFor (port : Z) (p : string) (m : ocicni.PortMapping) : Prop :=
  ocicni.ContainerPort m = int32 port /\ ocicni.Protocol m = p /\ ocicni.HostIP m = "".

(** ** Requests *)

(** The range and the host port of a request after the defaults of lines
    82-93. *)
Definition rangeLen (port : specgen.PortMapping) : Z :=
  if specgen.Range port =? 0 then 1 else specgen.Range port.

Definition hostPortOf (port : specgen.PortMapping) : Z :=
  if specgen.HostPort port =? 0 then specgen.ContainerPort port
  else specgen.HostPort port.

(** ** The invariant of parsePortMapping

    Claims are nonzero, the tables mirror each other, every finalized
    mapping is a claim of the container-to-host table with ports in
    1..65535, no two finalized mappings share a key, and every claim of
    the container-to-host table has its finalized mapping. *)
Record parseInv (st : PState) : Prop := {
  inv_ctr_nz : claimsNonzero (containerPortValidate st);
  inv_host_nz : claimsNonzero (hostPortValidate st);
  inv_mirror : mirrored (containerPortValidate st) (hostPortValidate st);
  inv_entries : forall m, m ∈ finalMappings st ->
    validPort (ocicni.HostPort m) /\ validPort (ocicni.ContainerPort m) /\
    tblGet (containerPortValidate st) (ocicni.Protocol m)
      (resolveIP (ocicni.HostIP m)) (ocicni.ContainerPort m) = ocicni.HostPort m;
  inv_unique : uniqueMappings (finalMappings st);
  inv_claims : forall p ip c, tblGet (containerPortValidate st) p ip c <> 0 ->
    exists m, m ∈ finalMappings st /\ ctrKey m = (p, ip, c)
}.

(** ** The expose set *)

(** Lines 193-206 as a function of one declaration of the image: the key
    and the protocol specifier it writes into the expose set. *)
Definition parseImageExpose (imgExpose : string) : error + (Z * string) :=
  let splitExpose := SplitN2 imgExpose "/" in
  match Atoi (hd "" splitExpose) with
  | inl err => inl (ExposeNotANumber imgExpose err)
  | inr num =>
      if (65535 <? num) || (num <? 1) then inl (ExposeNotAPort num imgExpose)
      else inr (uint16 num,
                if (length splitExpose =? 1)%nat then "tcp" else nth 1 splitExpose "")
  end.

(** [expose[k] = v] *)
Definition setEntry (m : gmap Z string) (kv : Z * string) : gmap Z string :=
  <[kv.1 := kv.2]> m.

(** What the marking of lines 213-244 yields: a port of the expose set is
    kept with the protocols of its specifier that have no claim in the
    container-to-host table under "0.0.0.0". *)
Definition markedFor (expose : gmap Z string) (ctr : Table)
    (toExpose : gmap Z (list string)) : Prop :=
  forall port,
    match expose !! port with
    | Some proto =>
        port <> 0 /\
        exists pset ps,
          checkProtocolLoop false (Split proto ",") ∅ = inr pset /\
          ps ≡ₚ elements pset /\
          default [] (toExpose !! port)
            = filter (fun p => tblGet ctr p "0.0.0.0" port = 0) ps
    | None => toExpose !! port = None
    end.

(** The pairs of container port and protocol in a list of entries to
    expose. *)
Definition pairsOf (entries : list (Z * list string)) : list (Z * string) :=
  entries ≫= fun entry => pair entry.1 <$> entry.2.

(** An entry to expose that the marking produced. *)
Definition goodEntry (ctr : Table) (entry : Z * list string) : Prop :=
  0 < entry.1 < 65536 /\ NoDup entry.2 /\
  forall p, p ∈ entry.2 -> tblGet ctr p "0.0.0.0" entry.1 = 0.

(** ** The invariant of the publication

    [done] lists the pairs of container port and protocol handled so far;
    [ctr] is the container-to-host table [parsePortMapping] returned.  The
    mappings are unique, the host port of every mapping under "0.0.0.0" is
    claimed in the host table, and its container port is claimed in [ctr]
    or was published. *)
Record pubInv (ctr : Table) (done : list (Z * string))
    (st : list ocicni.PortMapping * Table) : Prop := {
  pub_unique : uniqueMappings st.1;
  pub_host : forall m, m ∈ st.1 -> resolveIP (ocicni.HostIP m) = "0.0.0.0" ->
    tblGet st.2 (ocicni.Protocol m) "0.0.0.0" (uint16 (ocicni.HostPort m)) <> 0;
  pub_ctr : forall m, m ∈ st.1 -> resolveIP (ocicni.HostIP m) = "0.0.0.0" ->
    tblGet ctr (ocicni.Protocol m) "0.0.0.0" (ocicni.ContainerPort m) <> 0 \/
    (ocicni.ContainerPort m, ocicni.Protocol m) ∈ done
}.

(** ** Inputs of the examples *)

(** The requests of the specification's examples. *)
Definition req8000 : specgen.PortMapping :=
  {| specgen.HostIP := ""; specgen.ContainerPort := 8000; specgen.HostPort := 9000;
     specgen.Range := 3; specgen.Protocol := "tcp" |}.

Definition req80 : specgen.PortMapping :=
  {| specgen.HostIP := ""; specgen.ContainerPort := 80; specgen.HostPort := 8080;
     specgen.Range := 0; specgen.Protocol := "tcp" |}.

Definition req53sctp : specgen.PortMapping :=
  {| specgen.HostIP := ""; specgen.ContainerPort := 53; specgen.HostPort := 0;
     specgen.Range := 0; specgen.Protocol := "sctp" |}.

(** A request whose host range would end at 65536. *)
Definition reqEdge : specgen.PortMapping :=
  {| specgen.HostIP := ""; specgen.ContainerPort := 1; specgen.HostPort := 65535;
     specgen.Range := 2; specgen.Protocol := "tcp" |}.

(** Container port 80 bound to the loopback address. *)
Definition req80local : specgen.PortMapping :=
  {| specgen.HostIP := "127.0.0.1"; specgen.ContainerPort := 80;
     specgen.HostPort := 8080; specgen.Range := 0; specgen.Protocol := "tcp" |}.

(** Port 80 exposed for udp by the explicit map and for tcp by the image. *)
Definition exposeUDP : SpecGenerator :=
  {| PortMappings := []; PublishExposedPorts := true; Expose := {[ 80 := "udp" ]} |}.

Definition imageTCP : Image := {| InspectNoSize := inr {[ "80/tcp" ]} |}.

(** Explicit mappings together with exposed ports of both sources. *)
Definition specBoth : SpecGenerator :=
  {| PortMappings := [req8000]; PublishExposedPorts := true;
     Expose := {[ 80 := "udp" ]} |}.

Definition imageBoth : Image := {| InspectNoSize := inr {[ "80/tcp"; "53/udp" ]} |}.

(** Host port 8080 taken by an explicit mapping, port 443 to expose. *)
Definition specBusy : SpecGenerator :=
  {| PortMappings := [req80]; PublishExposedPorts := true;
     Expose := {[ 443 := "tcp" ]} |}.

Definition parsedBusy : PState :=
  Stub.value (mkPState [] ∅ ∅) (@parsePortMapping Stub.busy [req80] Stub.w0).

Definition markedBusy : gmap Z (list string) * Table :=
  Stub.value (∅, ∅)
    (@markExposed Stub.busy {[ 443 := "tcp" ]} (containerPortValidate parsedBusy)
       (mkWorld 2 0)).

(** An image that declares an SCTP port. *)
Definition imageSCTP : Image := {| InspectNoSize := inr {[ "53/sctp" ]} |}.

Definition specPlain : SpecGenerator :=
  {| PortMappings := [req80]; PublishExposedPorts := true; Expose := ∅ |}.

(** Port 80 mapped on the loopback address and exposed as well. *)
Definition specLocal : SpecGenerator :=
  {| PortMappings := [req80local]; PublishExposedPorts := true;
     Expose := {[ 80 := "tcp" ]} |}.

Definition parsed8000 : PState :=
  Stub.value (mkPState [] ∅ ∅) (@parsePortMapping Stub.runtime [req8000] Stub.w0).




(** * The vocabulary of the further properties *)

(** ** Protocol tokens *)

(** The tokens [checkProtocol] accepts. *)
Definition validToken (allowSCTP : bool) (t : string) : Prop :=
  t = "tcp" \/ t = "" \/ t = "udp" \/ (t = "sctp" /\ allowSCTP = true).

(** The protocol a token stands for: the empty token stands for tcp. *)
Definition tokenProtocol (t : string) : string :=
  if (t =? "")%string then "tcp" else t.

(** The error for a token that is not accepted. *)
Definition tokenError (t : string) : error :=
  if (t =? "sctp")%string then ProtocolNotAllowed else InvalidProtocol t.

(** ** Growth of the state of parsePortMapping *)

(** Every claim of [t] is a claim of [t']. *)
Definition keeps (t t' : Table) : Prop :=
  forall p ip k v, v <> 0 -> tblGet t p ip k = v -> tblGet t' p ip k = v.

(** The claims are kept and the finalized mappings are only appended to. *)
Definition grows (st st' : PState) : Prop :=
  keeps (containerPortValidate st) (containerPortValidate st') /\
  keeps (hostPortValidate st) (hostPortValidate st') /\
  exists news, finalMappings st' = (finalMappings st ++ news)%list.

(** The mappings of one protocol for the offsets [index], ..., [index + n - 1]
    of a range. *)
Definition rangeMappings (port : specgen.PortMapping) (p : string)
    (containerPort hostPort index : Z) (n : nat) : list ocicni.PortMapping :=
  (fun i => cni (hostPort + i) (containerPort + i) p (specgen.HostIP port))
    <$> seqZ index (Z.of_nat n).

(** The mappings of a request, protocol by protocol. *)
Definition requestMappings (port : specgen.PortMapping) (protocols : list string)
    : list ocicni.PortMapping :=
  protocols ≫= fun p =>
    rangeMappings port p (specgen.ContainerPort port) (hostPortOf port) 0
      (Z.to_nat (rangeLen port)).

(** A mapping that stands for offset [i] of a request under one of the
    protocols of its specifier, with the host IP as the request has it. *)
Definition mappingOf (port : specgen.PortMapping) (m : ocicni.PortMapping) : Prop :=
  exists i,
    0 <= i < rangeLen port /\
    ocicni.HostIP m = specgen.HostIP port /\
    ocicni.ContainerPort m = specgen.ContainerPort port + i /\
    ocicni.HostPort m = hostPortOf port + i /\
    exists t, t ∈ Split (specgen.Protocol port) "," /\ tokenProtocol t = ocicni.Protocol m.

(** A request with the empty protocol specifier replaced by "tcp". *)
Definition withDefaultProtocol (port : specgen.PortMapping) : specgen.PortMapping :=
  if (specgen.Protocol port =? "")%string
  then {| specgen.HostIP := specgen.HostIP port;
          specgen.ContainerPort := specgen.ContainerPort port;
          specgen.HostPort := specgen.HostPort port;
          specgen.Range := specgen.Range port;
          specgen.Protocol := "tcp" |}
  else port.

(** ** The calls of getRandomPort *)

(** Every answer of [getRandomPort] the call [m] consumed is a port, but for
    the last one, which may be an error: it is then the error of the call. *)
Definition probesSurface `{R : Runtime} {A} (m : M A) : Prop :=
  forall w r w', m w = (r, w') ->
    (probeCalls w <= probeCalls w')%nat /\
    forall n e, (probeCalls w <= n < probeCalls w')%nat -> randomPort n = inl e ->
      S n = probeCalls w' /\ r = Err e.

(** The mappings published for the pairs [pairs] of container port and
    protocol when the candidates [cs] are taken one each. *)
Definition publishedMappings (pairs : list (Z * string)) (cs : list Z)
    : list ocicni.PortMapping :=
  zip_with (fun pr c => cni (int32 c) (int32 pr.1) pr.2 "") pairs cs.

(** The number of declarations of the image, 0 when there is no image or
    its inspection fails. *)
Definition declaredCount (img : option Image) : nat :=
  match img with
  | Some im =>
      match InspectNoSize im with
      | inr declaredSet => size declaredSet
      | inl _ => 0%nat
      end
  | None => 0%nat
  end.

(** ** Further inputs *)

(** Two ports for udp and tcp on the loopback address. *)
Definition reqDNS : specgen.PortMapping :=
  {| specgen.HostIP := "127.0.0.1"; specgen.ContainerPort := 53;
     specgen.HostPort := 5353; specgen.Range := 2; specgen.Protocol := "udp,tcp" |}.

Definition parsedPair : PState :=
  Stub.value (mkPState [] ∅ ∅) (@parsePortMapping Stub.runtime [req80; req8000] Stub.w0).

(** An image that cannot be inspected. *)
Definition imageBroken : Image := {| InspectNoSize := inl (External "no such image") |}.

(** An image with a declaration whose port is a service name. *)
Definition imageNamed : Image := {| InspectNoSize := inr {[ "http/tcp"; "80/tcp" ]} |}.

Definition markedBoth : gmap Z (list string) * Table :=
  Stub.value (∅, ∅)
    (@markExposed Stub.runtime {[ 80 := "tcp"; 53 := "udp" ]}
       (containerPortValidate parsed8000) (mkWorld 3 0)).

(** The cgroup file of a process on a host in unified mode, and on a
    cgroup v1 host. *)
Definition linesUnified : list string :=
  ["12:pids:/a"; "0::/user.slice/session-2.scope"; "0::/other"].

Definition linesV1 : list string :=
  ["11:devices:/user.slice"; "4:pids:/user.slice/session-2.scope"; ""].

(** * Properties *)

(** ** The monad *)

Lemma bind_ok {A B} (m : M A) (k : A -> M B) w a w' :
  m w = (Ok a, w') -> (m ≫= k) w = k a w'.
Proof. intros H. unfold mbind, M_bind, bind. by rewrite H. Qed.

Lemma bind_err {A B} (m : M A) (k : A -> M B) w e w' :
  m w = (Err e, w') -> (m ≫= k) w = (Err e, w').
Proof. intros H. unfold mbind, M_bind, bind. by rewrite H. Qed.

Lemma bind_inv_ok {A B} (m : M A) (k : A -> M B) w b w' :
  (m ≫= k) w = (Ok b, w') ->
  exists a w1, m w = (Ok a, w1) /\ k a w1 = (Ok b, w').
Proof.
  unfold mbind, M_bind, bind. destruct (m w) as [[a|e|] w1]; intros H; try discriminate.
  by exists a, w1.
Qed.

Lemma lift_ok {A} (r : error + A) w a w' :
  lift r w = (Ok a, w') -> r = inr a /\ w' = w.
Proof. destruct r; cbv; intros H; by simplify_eq. Qed.

Lemma forEach_inv {A S} (P : S -> Prop) (body : A -> S -> M S) xs :
  (forall x s w s' w', P s -> body x s w = (Ok s', w') -> P s') ->
  forall st w st' w', P st -> forEach body xs st w = (Ok st', w') -> P st'.
Proof.
  intros Hbody. induction xs as [|x xs IH]; intros st w st' w' HP H; cbn in H.
  - unfold ret in H. by simplify_eq.
  - apply bind_inv_ok in H as (s1 & w1 & H1 & H2). eauto.
Qed.

(** ** The conflict tables *)

Lemma portMap_tblSet t p ip k v p' ip' :
  portMap (tblSet t p ip k v) p' ip' =
    if decide (p = p' /\ ip = ip') then <[k := v]> (portMap t p ip)
    else portMap t p' ip'.
Proof.
  unfold portMap, ipMaps, tblSet.
  destruct (decide (p = p')) as [->|Hp].
  - rewrite lookup_insert_eq. cbn.
    destruct (decide (ip = ip')) as [->|Hip].
    + rewrite lookup_insert_eq. cbn. by rewrite decide_True.
    + rewrite lookup_insert_ne by done. rewrite decide_False by (intros [? ?]; done). done.
  - rewrite lookup_insert_ne by done. rewrite decide_False by (intros [? ?]; done). done.
Qed.

Lemma portMap_ensureIP t p ip p' ip' :
  portMap (ensureIP t p ip) p' ip' = portMap t p' ip'.
Proof.
  unfold ensureIP. destruct (ipMaps t p !! ip) eqn:E; [done|].
  unfold portMap, ipMaps in *.
  destruct (decide (p = p')) as [->|Hp].
  - rewrite lookup_insert_eq. cbn.
    destruct (decide (ip = ip')) as [->|Hip].
    + rewrite lookup_insert_eq. by rewrite E.
    + by rewrite lookup_insert_ne.
  - by rewrite lookup_insert_ne.
Qed.

Lemma portMap_initTable p ip : portMap initTable p ip = ∅.
Proof.
  unfold portMap, ipMaps, initTable. cbn.
  destruct (decide (p = protoSCTP)) as [->|H1]; [by rewrite lookup_insert_eq|].
  rewrite lookup_insert_ne by done.
  destruct (decide (p = protoUDP)) as [->|H2]; [by rewrite lookup_insert_eq|].
  rewrite lookup_insert_ne by done.
  destruct (decide (p = protoTCP)) as [->|H3]; [by rewrite lookup_insert_eq|].
  rewrite lookup_insert_ne by done. by rewrite lookup_empty.
Qed.

Lemma tblGet_tblSet t p ip k v p' ip' k' :
  tblGet (tblSet t p ip k v) p' ip' k' =
    if decide (p = p' /\ ip = ip' /\ k = k') then v else tblGet t p' ip' k'.
Proof.
  unfold tblGet. rewrite portMap_tblSet.
  destruct (decide (p = p' /\ ip = ip')) as [[-> ->]|Hne].
  - destruct (decide (k = k')) as [->|Hk].
    + rewrite lookup_insert_eq. by rewrite decide_True.
    + rewrite lookup_insert_ne by done. by rewrite decide_False by (intros (? & ? & ?); done).
  - by rewrite decide_False by (intros (? & ? & ?); apply Hne; done).
Qed.

Lemma tblGet_ensureIP t p ip p' ip' k :
  tblGet (ensureIP t p ip) p' ip' k = tblGet t p' ip' k.
Proof. unfold tblGet. by rewrite portMap_ensureIP. Qed.

Lemma tblGet_initTable p ip k : tblGet initTable p ip k = 0.
Proof. unfold tblGet. by rewrite portMap_initTable, lookup_empty. Qed.

Lemma claimsNonzero_init : claimsNonzero initTable.
Proof. intros p ip k v. by rewrite portMap_initTable, lookup_empty. Qed.

Lemma claimsNonzero_ensureIP t p ip : claimsNonzero t -> claimsNonzero (ensureIP t p ip).
Proof. intros H p' ip' k v. rewrite portMap_ensureIP. apply H. Qed.

Lemma claimsNonzero_tblSet t p ip k v :
  k <> 0 -> v <> 0 -> claimsNonzero t -> claimsNonzero (tblSet t p ip k v).
Proof.
  intros Hk Hv H p' ip' k' v'. rewrite portMap_tblSet.
  case_decide as Hd; [|apply H].
  destruct (decide (k = k')) as [<-|Hne].
  - rewrite lookup_insert_eq. intros [= <-]. done.
  - rewrite lookup_insert_ne by done. apply H.
Qed.

Lemma claimsNonzero_key0 t p ip : claimsNonzero t -> tblGet t p ip 0 = 0.
Proof.
  intros H. unfold tblGet. destruct (portMap t p ip !! 0) as [v|] eqn:E; [|done].
  by apply H in E as [? _].
Qed.

(** A key that is present holds a claim, a value other than 0. *)
Lemma claimsNonzero_present t p ip k :
  claimsNonzero t -> is_Some (portMap t p ip !! k) -> tblGet t p ip k <> 0.
Proof. intros H [v Hv]. unfold tblGet. rewrite Hv. cbn. by apply H in Hv as [_ ?]. Qed.

(** ** Fixed-width integers *)

Lemma uint16_range z : 0 <= uint16 z < 65536.
Proof. unfold uint16. apply Z.mod_pos_bound. lia. Qed.

Lemma uint16_small z : 0 <= z < 65536 -> uint16 z = z.
Proof. intros H. unfold uint16. by apply Z.mod_small. Qed.

Lemma uint32_small z : 0 <= z < 4294967296 -> uint32 z = z.
Proof. intros H. unfold uint32. by apply Z.mod_small. Qed.

Lemma int32_small z : -2147483648 <= z < 2147483648 -> int32 z = z.
Proof. intros H. unfold int32. rewrite Z.mod_small; lia. Qed.

Lemma uint16_int32 z : uint16 (int32 z) = uint16 z.
Proof.
  unfold uint16, int32.
  rewrite (Z.mod_eq (z + 2147483648) 4294967296) by lia.
  replace (z + 2147483648 - 4294967296 * ((z + 2147483648) / 4294967296) - 2147483648)
    with (z + (- 65536 * ((z + 2147483648) / 4294967296)) * 65536) by lia.
  apply Z.mod_add. lia.
Qed.

(** ** The invariant of parsePortMapping *)

Lemma parseInv_init : parseInv (mkPState [] initTable initTable).
Proof.
  split; cbn.
  - apply claimsNonzero_init.
  - apply claimsNonzero_init.
  - split; intros p ip c h Hnz; rewrite !tblGet_initTable; congruence.
  - intros m Hm. by apply elem_of_nil in Hm.
  - split; constructor.
  - intros p ip c. by rewrite tblGet_initTable.
Qed.

Lemma mirrored_update ctr host p ip c h :
  c <> 0 -> h <> 0 ->
  claimsNonzero ctr -> claimsNonzero host -> mirrored ctr host ->
  tblGet ctr p ip c = 0 \/ tblGet ctr p ip c = h ->
  tblGet host p ip h = 0 \/ tblGet host p ip h = c ->
  mirrored (tblSet ctr p ip c h) (tblSet host p ip h c).
Proof.
  intros Hc Hh Hcz Hhz [Hch Hhc] HtC HtH. split.
  - intros p' ip' c' h' Hnz. rewrite !tblGet_tblSet.
    destruct (decide (p = p' /\ ip = ip' /\ c = c')) as [(-> & -> & ->)|Hne].
    + intros <-. by rewrite decide_True.
    + intros Hget. pose proof (Hch _ _ _ _ Hnz Hget) as Hback.
      destruct (decide (p = p' /\ ip = ip' /\ h = h')) as [(-> & -> & ->)|Hne']; [|done].
      destruct HtH as [HtH|HtH]; rewrite Hback in HtH.
      * subst c'. rewrite (claimsNonzero_key0 _ _ _ Hcz) in Hget. congruence.
      * subst c'. naive_solver.
  - intros p' ip' c' h' Hnz. rewrite !tblGet_tblSet.
    destruct (decide (p = p' /\ ip = ip' /\ h = h')) as [(-> & -> & ->)|Hne].
    + intros <-. by rewrite decide_True.
    + intros Hget. pose proof (Hhc _ _ _ _ Hnz Hget) as Hback.
      destruct (decide (p = p' /\ ip = ip' /\ c = c')) as [(-> & -> & ->)|Hne']; [|done].
      destruct HtC as [HtC|HtC]; rewrite Hback in HtC.
      * subst h'. rewrite (claimsNonzero_key0 _ _ _ Hhz) in Hget. congruence.
      * subst h'. naive_solver.
Qed.

Lemma mapPort_inv port p containerPort hostPort index st st' :
  parseInv st ->
  mapPort port p (resolveIP (specgen.HostIP port)) containerPort hostPort index st
    = inr st' ->
  parseInv st'.
Proof.
  intros [Hcz Hhz Hmir Hent [Hu1 Hu2] Hcl]. unfold mapPort.
  set (ip := resolveIP (specgen.HostIP port)).
  set (c := uint16 (containerPort + index)). set (h := uint16 (hostPort + index)).
  pose proof (uint16_range (containerPort + index)) as Hcr. fold c in Hcr.
  pose proof (uint16_range (hostPort + index)) as Hhr. fold h in Hhr.
  destruct (c =? 0) eqn:Ec0; [done|]. destruct (h =? 0) eqn:Eh0; [done|].
  apply Z.eqb_neq in Ec0, Eh0. cbn [orb].
  set (testC := tblGet (containerPortValidate st) p ip c).
  set (testH := tblGet (hostPortValidate st) p ip h).
  destruct (testC =? 0) eqn:EC0; destruct (testC =? h) eqn:ECh; cbn [negb andb]; try done;
    destruct (testH =? 0) eqn:EH0; destruct (testH =? c) eqn:EHc; cbn [negb andb]; try done;
    rewrite ?Z.eqb_eq, ?Z.eqb_neq in *;
    try lia.
  all: assert (Hiff : testC = h <-> testH = c)
    by (destruct Hmir as [H1 H2]; split; intros Hx; [apply H1 | apply H2]; done).
  all: try (exfalso; lia).
  all: assert (HtC : testC = 0 \/ testC = h) by lia.
  all: assert (HtH : testH = 0 \/ testH = c) by lia.
  all: pose proof (mirrored_update _ _ p ip c h Ec0 Eh0 Hcz Hhz Hmir HtC HtH) as Hmir'.
  all: pose proof (claimsNonzero_tblSet _ p ip c h Ec0 Eh0 Hcz) as Hcz'.
  all: pose proof (claimsNonzero_tblSet _ p ip h c Eh0 Ec0 Hhz) as Hhz'.
  all: assert (Hold : forall m, m ∈ finalMappings st ->
      validPort (ocicni.HostPort m) /\ validPort (ocicni.ContainerPort m) /\
      tblGet (tblSet (containerPortValidate st) p ip c h) (ocicni.Protocol m)
        (resolveIP (ocicni.HostIP m)) (ocicni.ContainerPort m) = ocicni.HostPort m).
  all: try (intros m Hm; destruct (Hent m Hm) as (Hv1 & Hv2 & Hg);
            split; [done|]; split; [done|]; rewrite tblGet_tblSet;
            case_decide as Hd; [|done];
            destruct Hd as (-> & Heq & ->); rewrite <- Heq in Hg; fold ip testC in Hg;
            unfold validPort in Hv1; lia).
  all: assert (Hcl' : forall p' ip' c',
      tblGet (tblSet (containerPortValidate st) p ip c h) p' ip' c' <> 0 ->
      (p', ip', c') = (p, ip, c) \/
      exists m, m ∈ finalMappings st /\ ctrKey m = (p', ip', c')).
  all: try (intros p' ip' c'; rewrite tblGet_tblSet; case_decide as Hd;
            [destruct Hd as (-> & -> & ->); by left | intros Hnz; right; by apply Hcl]).
  all: intros [= <-].
  - (* both unclaimed: a new entry *)
    split; cbn; try done; cycle 2.
    { intros p' ip' c' [[= -> -> ->]|(m & Hm & Hk)]%Hcl'.
      - eexists; split; [apply elem_of_app; right; by apply list_elem_of_singleton|].
        cbv [ctrKey ocicni.ContainerPort ocicni.Protocol ocicni.HostIP]. fold ip.
        by rewrite int32_small by lia.
      - exists m. split; [apply elem_of_app; by left|done]. }
    + intros m [Hm| ->%list_elem_of_singleton]%elem_of_app; [by apply Hold|].
      cbn. fold ip. rewrite !int32_small by lia. rewrite tblGet_tblSet, decide_True by done.
      unfold validPort. lia.
    + assert (Hfresh : forall m, m ∈ finalMappings st ->
          hostKey m <> (p, ip, h) /\ ctrKey m <> (p, ip, c)).
      { intros m Hm. destruct (Hent m Hm) as (Hv1 & Hv2 & Hg). unfold validPort in *.
        split; intros [= Hp Hip Hport]; rewrite Hp, Hip in Hg.
        - destruct Hmir as [Hch _]. rewrite Hport in Hg.
          apply Hch in Hg; [|lia]. fold testH in Hg. lia.
        - rewrite Hport in Hg. fold testC in Hg. lia. }
      unfold uniqueMappings. rewrite !fmap_app. cbn.
      rewrite !int32_small by lia. fold ip.
      split; apply NoDup_app; (split; [done|]); (split; [|apply NoDup_singleton]);
        intros k (m & Hk & Hm)%list_elem_of_fmap Hk'%list_elem_of_singleton;
        destruct (Hfresh m Hm); cbv [hostKey ctrKey ocicni.HostPort ocicni.ContainerPort
          ocicni.Protocol ocicni.HostIP] in Hk'; fold ip in Hk'; congruence.
  - (* the same pair again *)
    split; cbn; try done.
    intros p' ip' c' [[= -> -> ->]|Hm]%Hcl'; [|done].
    apply Hcl. fold ip testC. lia.
Qed.

Lemma mapRange_inv port p containerPort hostPort n :
  forall index st st',
  parseInv st ->
  mapRange port p (resolveIP (specgen.HostIP port)) containerPort hostPort n index st
    = inr st' ->
  parseInv st'.
Proof.
  induction n as [|n IH]; intros index st st' Hinv H; cbn in H.
  - by simplify_eq.
  - destruct (mapPort _ _ _ _ _ _ _) as [e|st1] eqn:E; [done|].
    eapply IH; [|exact H]. by eapply mapPort_inv.
Qed.

Lemma parseInv_ensureIP st p ip :
  parseInv st ->
  parseInv (mkPState (finalMappings st) (ensureIP (containerPortValidate st) p ip)
              (ensureIP (hostPortValidate st) p ip)).
Proof.
  intros [Hcz Hhz [Hch Hhc] Hent Hu Hcl]. split; cbn.
  - by apply claimsNonzero_ensureIP.
  - by apply claimsNonzero_ensureIP.
  - split; intros p' ip' c h Hnz; rewrite !tblGet_ensureIP; auto.
  - intros m Hm. rewrite tblGet_ensureIP. by apply Hent.
  - done.
  - intros p' ip' c. rewrite tblGet_ensureIP. apply Hcl.
Qed.

Lemma mapProtocols_inv port len containerPort hostPort protocols :
  forall st st',
  parseInv st ->
  mapProtocols port (resolveIP (specgen.HostIP port)) len containerPort hostPort
    protocols st = inr st' ->
  parseInv st'.
Proof.
  induction protocols as [|p rest IH]; intros st st' Hinv H; cbn in H.
  - by simplify_eq.
  - destruct (mapRange _ _ _ _ _ _ _ _) as [e|st1] eqn:E; [done|].
    eapply IH; [|exact H]. eapply mapRange_inv; [|exact E].
    by apply parseInv_ensureIP.
Qed.

Lemma forEach_reaches {A S} (body : A -> S -> M S) xs x :
  x ∈ xs ->
  forall st w st' w', forEach body xs st w = (Ok st', w') ->
  exists s1 w1 s2 w2, body x s1 w1 = (Ok s2, w2).
Proof.
  induction xs as [|y xs IH]; intros Hx st w st' w' H; [by apply elem_of_nil in Hx|].
  cbn in H. apply bind_inv_ok in H as (s1 & w1 & H1 & H2).
  apply elem_of_cons in Hx as [->|Hx]; eauto 6.
Qed.

(** An invariant that follows the elements already handled. *)
Lemma forEach_inv_split {A S} (P : list A -> S -> Prop) (body : A -> S -> M S) xs :
  (forall pre x suf s w s' w',
     xs = (pre ++ x :: suf)%list -> P pre s -> body x s w = (Ok s', w') ->
     P (pre ++ [x])%list s') ->
  forall st w st' w', P [] st -> forEach body xs st w = (Ok st', w') -> P xs st'.
Proof.
  intros Hbody.
  assert (G : forall suf pre st w st' w',
             xs = (pre ++ suf)%list -> P pre st ->
             forEach body suf st w = (Ok st', w') -> P xs st').
  { induction suf as [|x suf IH]; intros pre st w st' w' Hxs HP H; cbn in H.
    - unfold ret in H. simplify_eq. by rewrite app_nil_r.
    - apply bind_inv_ok in H as (s1 & w1 & H1 & H2).
      apply (IH (pre ++ [x])%list s1 w1 st' w'); [by rewrite <- app_assoc| |done].
      by eapply Hbody. }
  intros st w st' w' HP H. by apply (G xs [] st w st' w').
Qed.

(** A loop whose body only appends to the list it carries. *)
Lemma forEach_appends {A X T} (body : A -> list X * T -> M (list X * T))
    (Q : A -> X -> Prop) (E : A -> list X -> Prop) xs :
  (forall x l1 l l2, E x l -> E x (l1 ++ l ++ l2)%list) ->
  (forall x st w st' w', body x st w = (Ok st', w') ->
     exists news, st'.1 = (st.1 ++ news)%list /\ Forall (Q x) news /\ E x news) ->
  forall st w st' w', forEach body xs st w = (Ok st', w') ->
  exists news, st'.1 = (st.1 ++ news)%list /\
    Forall (fun m => exists x, x ∈ xs /\ Q x m) news /\
    (forall x, x ∈ xs -> E x news).
Proof.
  intros Hmono Hbody. induction xs as [|x xs IH]; intros st w st' w' H; cbn in H.
  - unfold ret in H. simplify_eq. exists []. rewrite app_nil_r.
    split; [done|]. split; [constructor|]. intros x Hx. by apply elem_of_nil in Hx.
  - apply bind_inv_ok in H as (s1 & w1 & H1 & H2).
    apply Hbody in H1 as (n1 & Hn1 & HQ1 & HE1).
    apply IH in H2 as (n2 & Hn2 & HQ2 & HE2).
    exists (n1 ++ n2)%list. rewrite Hn2, Hn1, <- app_assoc. split; [done|]. split.
    + apply Forall_app. split.
      * eapply Forall_impl; [exact HQ1|]. intros m Hm. exists x. split; [|done].
        apply elem_of_cons. by left.
      * eapply Forall_impl; [exact HQ2|]. intros m (y & Hy & Hm). exists y.
        split; [|done]. apply elem_of_cons. by right.
    + intros y Hy. apply elem_of_cons in Hy as [Hy|Hy].
      * subst y. specialize (Hmono x [] n1 n2 HE1). done.
      * specialize (Hmono y n1 n2 [] (HE2 y Hy)). by rewrite app_nil_r in Hmono.
Qed.

(** ** Requests at the edge of the host-port range *)

Lemma rangeLen_bounds port : specgen.wf port -> 1 <= rangeLen port < 65536.
Proof. intros (_ & _ & H). unfold rangeLen. destruct (Z.eqb_spec (specgen.Range port) 0); lia. Qed.

Lemma mapPort_wraps port p ip containerPort hostPort index st :
  uint16 (hostPort + index) = 0 ->
  mapPort port p ip containerPort hostPort index st = inl ZeroPortInExpansion.
Proof. intros H. unfold mapPort. rewrite H. cbn. by rewrite orb_true_r. Qed.

(** A range whose last host port would be 65536 never gets through the
    loop over [index]. *)
Lemma mapRange_edge_fails port p ip containerPort hostPort len n :
  forall index st,
  (0 < n)%nat -> 0 <= index -> index + Z.of_nat n = len -> len < 65536 ->
  hostPort + len - 1 = 65536 ->
  exists e, mapRange port p ip containerPort hostPort n index st = inl e.
Proof.
  induction n as [|n IH]; intros index st Hn Hi Hlen Hlt Hedge; [lia|].
  cbn. destruct (mapPort _ _ _ _ _ _ _) as [e|st1] eqn:E; [by exists e|].
  destruct n as [|n].
  - rewrite mapPort_wraps in E; [done|].
    replace (hostPort + index) with 65536 by lia. done.
  - rewrite uint16_small by lia. apply IH; lia.
Qed.

(** Alone on empty tables the same range fails at its last offset, on the
    check for port 0. *)
Lemma mapRange_edge_alone port p ip containerPort hostPort len n :
  forall index st,
  (0 < n)%nat -> 0 <= index -> index + Z.of_nat n = len ->
  1 <= containerPort -> containerPort + len - 1 <= 65535 ->
  1 <= hostPort -> hostPort + len - 1 = 65536 ->
  (forall k, containerPort + index <= k -> tblGet (containerPortValidate st) p ip k = 0) ->
  (forall k, hostPort + index <= k -> tblGet (hostPortValidate st) p ip k = 0) ->
  mapRange port p ip containerPort hostPort n index st = inl ZeroPortInExpansion.
Proof.
  induction n as [|n IH]; intros index st Hn Hi Hlen Hc Hcr Hh Hedge Hcfree Hhfree; [lia|].
  cbn. destruct n as [|n].
  - rewrite mapPort_wraps; [done|].
    replace (hostPort + index) with 65536 by lia. done.
  - unfold mapPort. rewrite !(uint16_small (_ + index)) by lia.
    rewrite Hcfree, Hhfree by lia.
    destruct (Z.eqb_spec (containerPort + index) 0); [lia|].
    destruct (Z.eqb_spec (hostPort + index) 0); [lia|].
    destruct (Z.eqb_spec 0 (containerPort + index)); [lia|].
    destruct (Z.eqb_spec 0 (hostPort + index)); [lia|].
    cbn. rewrite uint16_small by lia.
    apply IH; cbn; try lia.
    + intros k Hk. rewrite tblGet_tblSet, decide_False by (intros (_ & _ & ?); lia).
      apply Hcfree. lia.
    + intros k Hk. rewrite tblGet_tblSet, decide_False by (intros (_ & _ & ?); lia).
      apply Hhfree. lia.
Qed.

(** ** The loop of checkProtocol *)

Lemma Split_nonempty s sep : Split s sep <> [].
Proof. destruct s as [|c s]; cbn; [done|]. destruct (Ascii.eqb c sep); [done|]. by destruct (Split s sep). Qed.

Lemma checkProtocolLoop_nonempty allowSCTP splitProto :
  forall acc pset,
  checkProtocolLoop allowSCTP splitProto acc = inr pset ->
  splitProto <> [] \/ acc <> ∅ -> pset <> ∅.
Proof.
  induction splitProto as [|p rest IH]; intros acc pset H Hne; cbn in H.
  - simplify_eq. by destruct Hne.
  - repeat case_match; try done; (eapply IH; [exact H|right]);
      eapply non_empty_inhabited_L; apply elem_of_union_l, elem_of_singleton; reflexivity.
Qed.

(** ** Calls that return *)

Lemma converges_ret {A} (a : A) : converges (ret a).
Proof. intros w. done. Qed.

Lemma converges_fail {A} e : converges (@fail A e).
Proof. intros w. done. Qed.

Lemma converges_lift {A} (r : error + A) : converges (lift r).
Proof. destruct r; [apply converges_fail|apply converges_ret]. Qed.

Lemma converges_bind_ok {A B} (m : M A) (k : A -> M B) :
  converges m ->
  (forall a w w', m w = (Ok a, w') -> (k a w').1 <> Diverge) ->
  converges (m ≫= k).
Proof.
  intros Hm Hk w. unfold mbind, M_bind, bind. specialize (Hm w).
  destruct (m w) as [[a|e|] w1] eqn:E; cbn in *; [by eapply Hk|done|done].
Qed.

Lemma converges_bind {A B} (m : M A) (k : A -> M B) :
  converges m -> (forall a, converges (k a)) -> converges (m ≫= k).
Proof. intros Hm Hk. apply converges_bind_ok; [done|]. intros a w w' _. apply Hk. Qed.

Lemma converges_wrapErr {A} f (m : M A) : converges m -> converges (wrapErr f m).
Proof.
  intros Hm w. unfold wrapErr. specialize (Hm w). by destruct (m w) as [[a|e|] w1].
Qed.

Lemma converges_forEach {A S} (P : A -> Prop) (body : A -> S -> M S) xs :
  Forall P xs -> (forall x s, P x -> converges (body x s)) ->
  forall st, converges (forEach body xs st).
Proof.
  intros HP Hb. induction HP as [|x xs Hx HP IH]; intros st; cbn.
  - apply converges_ret.
  - apply converges_bind; auto.
Qed.

(** ** Calls that leave the port source alone *)

Lemma sameProbes_ret {A} (a : A) : sameProbes (ret a).
Proof. intros w r w' H. unfold ret in H. by simplify_eq. Qed.

Lemma sameProbes_fail {A} e : sameProbes (@fail A e).
Proof. intros w r w' H. unfold fail in H. by simplify_eq. Qed.

Lemma sameProbes_lift {A} (r : error + A) : sameProbes (lift r).
Proof. destruct r; [apply sameProbes_fail|apply sameProbes_ret]. Qed.

Lemma sameProbes_bind {A B} (m : M A) (k : A -> M B) :
  sameProbes m -> (forall a, sameProbes (k a)) -> sameProbes (m ≫= k).
Proof.
  intros Hm Hk w r w'. unfold mbind, M_bind, bind.
  destruct (m w) as [[a|e|] w1] eqn:E; intros H.
  - rewrite (Hk _ _ _ _ H). by eapply Hm.
  - simplify_eq. by eapply Hm.
  - simplify_eq. by eapply Hm.
Qed.

Lemma sameProbes_wrapErr {A} f (m : M A) : sameProbes m -> sameProbes (wrapErr f m).
Proof.
  intros Hm w r w'. unfold wrapErr.
  destruct (m w) as [[a|e|] w1] eqn:E; intros H; simplify_eq; by eapply Hm.
Qed.

Lemma sameProbes_forEach {A S} (body : A -> S -> M S) xs :
  (forall x s, sameProbes (body x s)) -> forall st, sameProbes (forEach body xs st).
Proof.
  intros Hb. induction xs as [|x xs IH]; intros st; cbn.
  - apply sameProbes_ret.
  - apply sameProbes_bind; auto.
Qed.

(** ** Marking the ports to expose *)

Lemma markProtocol_eq port te ctr p :
  markProtocol port (te, ctr) p =
    if tblGet ctr p "0.0.0.0" port =? 0
    then (<[port := (default [] (te !! port) ++ [p])%list]> te, ensureIP ctr p "0.0.0.0")
    else (te, ensureIP ctr p "0.0.0.0").
Proof. unfold markProtocol. cbn [fst snd]. by rewrite tblGet_ensureIP. Qed.

Lemma foldl_markProtocol port (P : string -> Prop) `{!forall p, Decision (P p)} ps :
  forall te ctr,
  (forall p, P p <-> tblGet ctr p "0.0.0.0" port = 0) ->
  let r := foldl (markProtocol port) (te, ctr) ps in
  (forall p ip k, tblGet r.2 p ip k = tblGet ctr p ip k) /\
  (forall k, k <> port -> r.1 !! k = te !! k) /\
  default [] (r.1 !! port) = (default [] (te !! port) ++ filter P ps)%list.
Proof.
  induction ps as [|p ps IH]; intros te ctr HP; cbn [foldl].
  - split; [done|]. split; [done|]. cbn. by rewrite app_nil_r.
  - rewrite markProtocol_eq.
    assert (HP' : forall q, P q <-> tblGet (ensureIP ctr p "0.0.0.0") q "0.0.0.0" port = 0)
      by (intros q; by rewrite tblGet_ensureIP).
    destruct (Z.eqb_spec (tblGet ctr p "0.0.0.0" port) 0) as [E|E].
    + destruct (IH (<[port := (default [] (te !! port) ++ [p])%list]> te) _ HP')
        as (H1 & H2 & H3).
      split; [intros; by rewrite H1, tblGet_ensureIP|].
      split; [intros k Hk; by rewrite H2, lookup_insert_ne|].
      rewrite H3, lookup_insert_eq.
      rewrite filter_cons_True by (by apply HP). cbn. by rewrite <- app_assoc.
    + destruct (IH te _ HP') as (H1 & H2 & H3).
      split; [intros; by rewrite H1, tblGet_ensureIP|].
      split; [done|].
      rewrite H3. rewrite filter_cons_False by (by rewrite HP). done.
Qed.

(** ** Tables that answer alike *)

Lemma tblEq_refl t : tblEq t t.
Proof. done. Qed.

Lemma tblEq_trans t1 t2 t3 : tblEq t1 t2 -> tblEq t2 t3 -> tblEq t1 t3.
Proof. intros H1 H2 p ip k. by rewrite H1. Qed.

Lemma tblEq_ensureIP t p ip : tblEq (ensureIP t p ip) t.
Proof. intros p' ip' k. apply tblGet_ensureIP. Qed.

Lemma tblEq_tblSet t t' p ip k v : tblEq t t' -> tblEq (tblSet t p ip k v) (tblSet t' p ip k v).
Proof. intros H p' ip' k'. rewrite !tblGet_tblSet. by case_decide. Qed.

(** ** Building the expose set *)

Lemma foldl_setEntry_other kvs : forall m k,
  k ∉ kvs.*1 -> foldl setEntry m kvs !! k = m !! k.
Proof.
  induction kvs as [|[k0 v0] kvs IH]; intros m k Hk; cbn; [done|].
  cbn in Hk. apply not_elem_of_cons in Hk as [Hne Hk].
  rewrite IH by done. unfold setEntry. cbn. by rewrite lookup_insert_ne.
Qed.

Lemma foldl_setEntry_some kvs : forall m k,
  k ∈ kvs.*1 -> exists v, (k, v) ∈ kvs /\ foldl setEntry m kvs !! k = Some v.
Proof.
  induction kvs as [|[k0 v0] kvs IH]; intros m k Hk; cbn in *.
  - by apply elem_of_nil in Hk.
  - destruct (decide (k ∈ kvs.*1)) as [Hin|Hnotin].
    + destruct (IH (setEntry m (k0, v0)) k Hin) as (v & Hv & Hl).
      exists v. split; [apply elem_of_cons; by right|done].
    + apply elem_of_cons in Hk as [->|Hk]; [|done].
      exists v0. split; [apply elem_of_cons; by left|].
      rewrite foldl_setEntry_other by done. unfold setEntry. cbn. by rewrite lookup_insert_eq.
Qed.

Lemma foldl_setEntry_nodup kvs m k v :
  NoDup kvs.*1 -> (k, v) ∈ kvs -> foldl setEntry m kvs !! k = Some v.
Proof.
  intros Hnd Hin.
  destruct (foldl_setEntry_some kvs m k) as (v' & Hin' & Hl).
  { apply list_elem_of_fmap. by exists (k, v). }
  rewrite Hl. f_equal.
  apply list_elem_of_lookup in Hin as [i Hi], Hin' as [j Hj].
  assert (i = j) as ->; [|congruence].
  eapply NoDup_lookup; [exact Hnd|..]; rewrite list_lookup_fmap.
  - by rewrite Hi.
  - by rewrite Hj.
Qed.

(** Copying a map entry by entry, in whatever order, gives the map. *)
Lemma foldl_setEntry_copy (m : gmap Z string) entries :
  entries ≡ₚ map_to_list m -> foldl setEntry ∅ entries = m.
Proof.
  intros Hperm. apply map_eq. intros k.
  assert (Hnd : NoDup entries.*1) by (rewrite Hperm; apply NoDup_fst_map_to_list).
  destruct (m !! k) as [v|] eqn:E.
  - apply foldl_setEntry_nodup; [done|]. rewrite Hperm. by apply elem_of_map_to_list.
  - rewrite foldl_setEntry_other; [by rewrite lookup_empty|].
    rewrite Hperm. intros ([k' v] & -> & Hin)%list_elem_of_fmap.
    apply elem_of_map_to_list in Hin. cbn in E. congruence.
Qed.

(** ** The invariant of the publication *)

Lemma pubInv_of_parseInv st :
  parseInv st -> pubInv (containerPortValidate st) [] (finalMappings st, hostPortValidate st).
Proof.
  intros Hinv. split; cbn.
  - apply Hinv.
  - intros m Hm Hip. destruct (inv_entries _ Hinv m Hm) as (Hh & Hc & Hg).
    unfold validPort in *. rewrite Hip in Hg. rewrite uint16_small by lia.
    destruct (inv_mirror _ Hinv) as [Hch _].
    assert (Hnz : ocicni.HostPort m <> 0) by lia.
    rewrite (Hch _ _ _ _ Hnz Hg). lia.
  - intros m Hm Hip. destruct (inv_entries _ Hinv m Hm) as (Hh & Hc & Hg).
    unfold validPort in *. rewrite Hip in Hg. left. lia.
Qed.

Lemma pubInv_unchanged ctr done done' fm host host' :
  pubInv ctr done (fm, host) -> tblEq host' host -> done ⊆ done' ->
  pubInv ctr done' (fm, host').
Proof.
  intros [Hu Hh Hc] Heq Hsub. split; cbn in *.
  - done.
  - intros m Hm Hip. rewrite Heq. by apply Hh.
  - intros m Hm Hip. destruct (Hc m Hm Hip) as [?|Hd]; [by left|right; by apply Hsub].
Qed.

Lemma pubInv_append ctr done fm host host' candidate port p :
  pubInv ctr done (fm, host) ->
  0 < port < 65536 ->
  (port, p) ∉ done ->
  tblGet ctr p "0.0.0.0" port = 0 ->
  tblGet host p "0.0.0.0" (uint16 candidate) = 0 ->
  tblEq host' (tblSet host p "0.0.0.0" (uint16 candidate) port) ->
  pubInv ctr (done ++ [(port, p)])
    ((fm ++ [cni (int32 candidate) (int32 port) p ""])%list, host').
Proof.
  intros [[Hu1 Hu2] Hh Hc] Hport Hnew Hunclaimed Hfree Heq. cbn in *.
  rewrite (int32_small port) by lia.
  split; cbn.
  - unfold uniqueMappings. rewrite !fmap_app. cbn. split.
    + apply NoDup_app. split; [done|]. split; [|apply NoDup_singleton].
      intros k (m & Hk & Hm)%list_elem_of_fmap Hk'%list_elem_of_singleton.
      subst k. injection Hk' as Hp Hip Hhp.
      apply (Hh m Hm Hip). by rewrite Hp, Hhp, uint16_int32.
    + apply NoDup_app. split; [done|]. split; [|apply NoDup_singleton].
      intros k (m & Hk & Hm)%list_elem_of_fmap Hk'%list_elem_of_singleton.
      subst k. injection Hk' as Hp Hip Hcp.
      destruct (Hc m Hm Hip) as [Hclaim|Hdone].
      * apply Hclaim. by rewrite Hp, Hcp.
      * apply Hnew. by rewrite <- Hp, <- Hcp.
  - intros m [Hm| ->%list_elem_of_singleton]%elem_of_app Hip; rewrite Heq, tblGet_tblSet.
    + case_decide; [lia|]. by apply Hh.
    + cbn. rewrite uint16_int32. rewrite decide_True by done. lia.
  - intros m [Hm| ->%list_elem_of_singleton]%elem_of_app Hip.
    + destruct (Hc m Hm Hip) as [?|Hd]; [by left|right; apply elem_of_app; by left].
    + right. cbn. apply elem_of_app. right. by apply list_elem_of_singleton.
Qed.

Section Properties.
Context {R : Runtime}.

(** ** checkProtocol *)

Lemma checkProtocol_single (protocol p : string) (allowSCTP : bool) w :
  checkProtocolLoop allowSCTP (Split protocol ",") ∅ = inr {[p]} ->
  checkProtocol protocol allowSCTP w = (Ok [p], tick w).
Proof.
  intros H. unfold checkProtocol. rewrite H.
  unfold mbind, M_bind, bind, lift, ret, rangeStrings. cbn.
  rewrite elements_singleton.
  pose proof (orderStrings_perm (rangeCalls w) [p]) as Hp.
  apply Permutation_singleton_r in Hp. by rewrite Hp.
Qed.

Lemma checkProtocol_tcp allowSCTP w :
  checkProtocol "tcp" allowSCTP w = (Ok ["tcp"], tick w).
Proof. apply checkProtocol_single. destruct allowSCTP; vm_compute; reflexivity. Qed.

Lemma mapRequest_wildcard port st w protocols w1 :
  checkProtocol (specgen.Protocol port) true w = (Ok protocols, w1) ->
  specgen.HostIP port = "" ->
  mapRequest port st w =
    (let len := if specgen.Range port =? 0 then 1 else specgen.Range port in
     let containerPort := specgen.ContainerPort port in
     if containerPort =? 0 then fail ZeroContainerPort else
     let hostPort := if specgen.HostPort port =? 0 then containerPort
                     else specgen.HostPort port in
     if 65535 <? uint32 (uint32 (uint16 (len - 1)) + uint32 containerPort)
     then fail ContainerPortRangeOverflow else
     if 65536 <? uint32 (uint32 (uint16 (len - 1)) + uint32 hostPort)
     then fail HostPortRangeOverflow else
     lift (mapProtocols port "0.0.0.0" len containerPort hostPort protocols st)) w1.
Proof.
  intros Hp Hip. unfold mapRequest. erewrite bind_ok by exact Hp.
  rewrite Hip. cbn [String.eqb]. by rewrite ParseIP_wildcard.
Qed.

Lemma mapRequest_tcp_wildcard port st w :
  specgen.Protocol port = "tcp" -> specgen.HostIP port = "" ->
  mapRequest port st w =
    (let len := if specgen.Range port =? 0 then 1 else specgen.Range port in
     let containerPort := specgen.ContainerPort port in
     if containerPort =? 0 then fail ZeroContainerPort else
     let hostPort := if specgen.HostPort port =? 0 then containerPort
                     else specgen.HostPort port in
     if 65535 <? uint32 (uint32 (uint16 (len - 1)) + uint32 containerPort)
     then fail ContainerPortRangeOverflow else
     if 65536 <? uint32 (uint32 (uint16 (len - 1)) + uint32 hostPort)
     then fail HostPortRangeOverflow else
     lift (mapProtocols port "0.0.0.0" len containerPort hostPort ["tcp"] st)) (tick w).
Proof.
  intros Hp Hip. apply mapRequest_wildcard; [|done]. rewrite Hp. apply checkProtocol_tcp.
Qed.

(** C8: the request [{ContainerPort:8000, HostPort:9000, Range:3,
    Protocol:"tcp"}] alone is accepted and yields the three mappings
    8000 to 9000, 8001 to 9001 and 8002 to 9002, each for "tcp", and no
    other entry. *)
Theorem range_expansion w :
  exists st,
    parsePortMapping [req8000] w = (Ok st, tick w) /\
    finalMappings st =
      [cni 9000 8000 "tcp" ""; cni 9001 8001 "tcp" ""; cni 9002 8002 "tcp" ""].
Proof.
  unfold parsePortMapping. cbn [forEach].
  eexists. split.
  - erewrite bind_ok; [reflexivity|].
    rewrite mapRequest_tcp_wildcard by reflexivity. vm_compute. reflexivity.
  - reflexivity.
Qed.

Lemma checkProtocol_loop_ok protocol allowSCTP pset w :
  checkProtocolLoop allowSCTP (Split protocol ",") ∅ = inr pset ->
  exists ps, checkProtocol protocol allowSCTP w = (Ok ps, tick w) /\ ps ≡ₚ elements pset.
Proof.
  intros H. unfold checkProtocol. rewrite H.
  unfold mbind, M_bind, bind, lift, ret, rangeStrings. cbn.
  pose proof (orderStrings_perm (rangeCalls w) (elements pset)) as Hp.
  destruct (orderStrings _ _) as [|p ps] eqn:E.
  - symmetry in Hp. apply Permutation_nil_r in Hp. apply elements_empty_inv in Hp.
    apply leibniz_equiv in Hp.
    by eapply checkProtocolLoop_nonempty in H; [|left; apply Split_nonempty].
  - cbn. by exists (p :: ps).
Qed.

Lemma checkProtocol_loop_err protocol allowSCTP e w :
  checkProtocolLoop allowSCTP (Split protocol ",") ∅ = inl e ->
  checkProtocol protocol allowSCTP w = (Err e, w).
Proof. intros H. unfold checkProtocol. by rewrite H. Qed.

Lemma checkProtocol_ok_inv protocol allowSCTP w ps w' :
  checkProtocol protocol allowSCTP w = (Ok ps, w') ->
  exists pset, checkProtocolLoop allowSCTP (Split protocol ",") ∅ = inr pset /\
               ps ≡ₚ elements pset /\ w' = tick w.
Proof.
  intros H. destruct (checkProtocolLoop allowSCTP (Split protocol ",") ∅) as [e|pset] eqn:E.
  - by rewrite (checkProtocol_loop_err _ _ _ _ E) in H.
  - destruct (checkProtocol_loop_ok _ _ _ w E) as (ps' & H' & Hp).
    rewrite H' in H. simplify_eq. by exists pset.
Qed.

Lemma sameProbes_rangeStrings s : sameProbes (rangeStrings s).
Proof. intros w r w' H. unfold rangeStrings in H. by simplify_eq. Qed.

Lemma sameProbes_rangeExpose m : sameProbes (rangeExpose m).
Proof. intros w r w' H. unfold rangeExpose in H. by simplify_eq. Qed.

Lemma sameProbes_checkProtocol protocol allowSCTP :
  sameProbes (checkProtocol protocol allowSCTP).
Proof.
  unfold checkProtocol. apply sameProbes_bind; [apply sameProbes_lift|]. intros pset.
  apply sameProbes_bind; [apply sameProbes_rangeStrings|]. intros ps.
  case_match; [apply sameProbes_fail|apply sameProbes_ret].
Qed.

Lemma sameProbes_mapRequest port st : sameProbes (mapRequest port st).
Proof.
  unfold mapRequest. apply sameProbes_bind; [apply sameProbes_checkProtocol|]. intros ps.
  cbv zeta.
  destruct (negb _); [apply sameProbes_fail|].
  destruct (_ =? 0); [apply sameProbes_fail|].
  destruct (65535 <? _); [apply sameProbes_fail|].
  destruct (65536 <? _); [apply sameProbes_fail|].
  apply sameProbes_lift.
Qed.

Lemma sameProbes_parsePortMapping portMappings : sameProbes (parsePortMapping portMappings).
Proof. apply sameProbes_forEach. apply sameProbes_mapRequest. Qed.

Lemma sameProbes_addImageExpose imgExpose expose : sameProbes (addImageExpose imgExpose expose).
Proof.
  unfold addImageExpose.
  repeat case_match; try apply sameProbes_fail; apply sameProbes_ret.
Qed.

Lemma sameProbes_mergeExpose s img : sameProbes (mergeExpose s img).
Proof.
  unfold mergeExpose. apply sameProbes_bind; [apply sameProbes_rangeExpose|]. intros entries.
  destruct img as [im|]; [|apply sameProbes_ret].
  destruct (InspectNoSize im); [apply sameProbes_fail|].
  apply sameProbes_bind; [apply sameProbes_rangeStrings|]. intros declared.
  apply sameProbes_forEach. apply sameProbes_addImageExpose.
Qed.

Lemma sameProbes_markPort entry st : sameProbes (markPort entry st).
Proof.
  unfold markPort. apply sameProbes_bind.
  - apply sameProbes_wrapErr, sameProbes_checkProtocol.
  - intros ps. case_match; [apply sameProbes_fail|apply sameProbes_ret].
Qed.

Lemma sameProbes_markExposed expose ctr : sameProbes (markExposed expose ctr).
Proof.
  unfold markExposed. apply sameProbes_bind; [apply sameProbes_rangeExpose|]. intros entries.
  apply sameProbes_forEach. apply sameProbes_markPort.
Qed.

(** ** parsePortMapping keeps its invariant *)

(** What a request that passed the checks of lines 66-99 went through. *)
Lemma mapRequest_ok port st w st' w' :
  mapRequest port st w = (Ok st', w') ->
  exists protocols,
    checkProtocol (specgen.Protocol port) true w = (Ok protocols, w') /\
    let len := if specgen.Range port =? 0 then 1 else specgen.Range port in
    let containerPort := specgen.ContainerPort port in
    let hostPort := if specgen.HostPort port =? 0 then containerPort
                    else specgen.HostPort port in
    ParseIP (resolveIP (specgen.HostIP port)) = true /\
    containerPort <> 0 /\
    uint32 (uint32 (uint16 (len - 1)) + uint32 containerPort) <= 65535 /\
    uint32 (uint32 (uint16 (len - 1)) + uint32 hostPort) <= 65536 /\
    mapProtocols port (resolveIP (specgen.HostIP port)) len containerPort hostPort
      protocols st = inr st'.
Proof.
  unfold mapRequest. intros (protocols & w1 & Hchk & H)%bind_inv_ok.
  fold (resolveIP (specgen.HostIP port)) in H.
  exists protocols.
  destruct (ParseIP _) eqn:Eip; [|done]. cbn [negb] in H.
  destruct (specgen.ContainerPort port =? 0) eqn:Ec; [done|].
  destruct (65535 <? _) eqn:E1; [done|].
  destruct (65536 <? _) eqn:E2; [done|].
  apply lift_ok in H as [H ->].
  apply Z.eqb_neq in Ec. apply Z.ltb_ge in E1, E2.
  cbn zeta. done.
Qed.

Lemma mapRequest_inv port st w st' w' :
  parseInv st -> mapRequest port st w = (Ok st', w') -> parseInv st'.
Proof.
  intros Hinv (protocols & _ & H)%mapRequest_ok. cbn zeta in H.
  destruct H as (_ & _ & _ & _ & H). by eapply mapProtocols_inv.
Qed.

Lemma parsePortMapping_inv portMappings w st w' :
  parsePortMapping portMappings w = (Ok st, w') -> parseInv st.
Proof.
  unfold parsePortMapping. apply forEach_inv.
  - intros port s w1 s' w1'. apply mapRequest_inv.
  - apply parseInv_init.
Qed.

(** C4: when [parsePortMapping] returns without error, the container-to-host
    table and the host-to-container table mirror each other for every
    protocol and host IP: a container port [c] claimed by a host port
    [h <> 0] has [h] claimed by [c] in the other table, and the other way
    round, an entry 0 standing for no claim. *)
Theorem tables_are_mirrors portMappings w st w' :
  parsePortMapping portMappings w = (Ok st, w') ->
  forall p hostIP c h,
    (h <> 0 -> tblGet (containerPortValidate st) p hostIP c = h ->
       tblGet (hostPortValidate st) p hostIP h = c) /\
    (c <> 0 -> tblGet (hostPortValidate st) p hostIP h = c ->
       tblGet (containerPortValidate st) p hostIP c = h).
Proof.
  intros Hinv%parsePortMapping_inv p hostIP c h.
  destruct (inv_mirror _ Hinv) as [Hch Hhc]. split; auto.
Qed.

(** ** Ports of the finalized mappings *)

Lemma checkProtocol_nonempty protocol allowSCTP w protocols w' :
  checkProtocol protocol allowSCTP w = (Ok protocols, w') -> protocols <> [].
Proof.
  unfold checkProtocol. intros (s & w1 & _ & (l & w2 & _ & H)%bind_inv_ok)%bind_inv_ok.
  destruct l; cbn in H; [done|]. unfold ret in H. by simplify_eq.
Qed.

Lemma bounds_small port :
  specgen.wf port ->
  uint32 (uint32 (uint16 (rangeLen port - 1)) + uint32 (specgen.ContainerPort port))
    = rangeLen port - 1 + specgen.ContainerPort port /\
  uint32 (uint32 (uint16 (rangeLen port - 1)) + uint32 (hostPortOf port))
    = rangeLen port - 1 + hostPortOf port.
Proof.
  intros Hwf. pose proof (rangeLen_bounds _ Hwf) as Hl. destruct Hwf as (Hc & Hh & Hr).
  assert (0 <= hostPortOf port < 65536)
    by (unfold hostPortOf; destruct (specgen.HostPort port =? 0); lia).
  rewrite uint16_small by lia. rewrite !(uint32_small (_ - 1)) by lia.
  rewrite !(uint32_small (specgen.ContainerPort port)) by lia.
  rewrite !(uint32_small (hostPortOf port)) by lia.
  rewrite !uint32_small by lia. done.
Qed.

Lemma mapRequest_edge_fails port st w st' w' :
  specgen.wf port -> hostPortOf port + rangeLen port - 1 = 65536 ->
  mapRequest port st w <> (Ok st', w').
Proof.
  intros Hwf Hedge (protocols & Hchk & H)%mapRequest_ok. cbn zeta in H.
  destruct H as (_ & _ & _ & _ & H).
  apply checkProtocol_nonempty in Hchk.
  destruct protocols as [|p rest]; [done|]. cbn in H.
  pose proof (rangeLen_bounds _ Hwf) as Hl.
  edestruct (mapRange_edge_fails port p (resolveIP (specgen.HostIP port))
               (specgen.ContainerPort port) (hostPortOf port) (rangeLen port)
               (Z.to_nat (rangeLen port)) 0) as [e He]; [lia..|exact Hedge|].
  unfold rangeLen, hostPortOf in He. by rewrite He in H.
Qed.

(** C10: every finalized mapping [parsePortMapping] returns has its host port
    and its container port between 1 and 65535, and every request of a
    successful call has both its ranges end at 65535 at most.  A request
    whose host range would end at 65536, the one case beyond 65535 the
    bounds check lets through, is never part of a successful call: at the
    last offset the [uint16] sum [hostPort + index] is 0 and the body of the
    loop stops on the check for port 0, which is also the error of the call
    when the request is alone. *)
Theorem no_port_zero_returned portMappings w :
  Forall specgen.wf portMappings ->
  (forall st w', parsePortMapping portMappings w = (Ok st, w') ->
     (forall m, m ∈ finalMappings st ->
        1 <= ocicni.HostPort m <= 65535 /\ 1 <= ocicni.ContainerPort m <= 65535) /\
     (forall port, port ∈ portMappings ->
        specgen.ContainerPort port + rangeLen port - 1 <= 65535 /\
        hostPortOf port + rangeLen port - 1 <= 65535)) /\
  (forall port, port ∈ portMappings ->
     hostPortOf port + rangeLen port - 1 = 65536 ->
     uint16 (hostPortOf port + (rangeLen port - 1)) = 0 /\
     (forall p hostIP st,
        mapPort port p hostIP (specgen.ContainerPort port) (hostPortOf port)
          (rangeLen port - 1) st = inl ZeroPortInExpansion) /\
     (forall protocols w1,
        checkProtocol (specgen.Protocol port) true w = (Ok protocols, w1) ->
        ParseIP (resolveIP (specgen.HostIP port)) = true ->
        specgen.ContainerPort port <> 0 ->
        specgen.ContainerPort port + rangeLen port - 1 <= 65535 ->
        parsePortMapping [port] w = (Err ZeroPortInExpansion, w1))).
Proof.
  intros Hwf. split.
  - intros st w' H. split.
    + intros m Hm. apply parsePortMapping_inv in H.
      destruct (inv_entries _ H m Hm) as (H1 & H2 & _). done.
    + intros port Hin.
      destruct (forEach_reaches _ _ _ Hin _ _ _ _ H) as (s1 & w1 & s2 & w2 & Hreq).
      assert (Hw : specgen.wf port) by (by eapply Forall_forall in Hwf).
      pose proof (mapRequest_edge_fails port s1 w1 s2 w2 Hw) as Hedge.
      apply mapRequest_ok in Hreq as Hok. destruct Hok as (protocols & _ & Hok).
      cbn zeta in Hok. fold (rangeLen port) (hostPortOf port) in Hok.
      destruct Hok as (_ & _ & Hb1 & Hb2 & _).
      destruct (bounds_small _ Hw) as [E1 E2]. rewrite E1 in Hb1. rewrite E2 in Hb2.
      split; [lia|].
      destruct (decide (hostPortOf port + rangeLen port - 1 = 65536)) as [He|He]; [|lia].
      by destruct (Hedge He).
  - intros port Hin Hedge.
    assert (Hwrap : uint16 (hostPortOf port + (rangeLen port - 1)) = 0)
      by (replace (hostPortOf port + (rangeLen port - 1)) with 65536 by lia; done).
    split; [done|]. split; [intros; by apply mapPort_wraps|].
    intros protocols w1 Hchk Hip Hc0 Hcr.
    assert (Hw : specgen.wf port) by (by eapply Forall_forall in Hwf).
    pose proof (rangeLen_bounds _ Hw) as Hl.
    pose proof (bounds_small _ Hw) as [Hb1 Hb2].
    pose proof (checkProtocol_nonempty _ _ _ _ _ Hchk) as Hne.
    destruct protocols as [|p rest]; [done|].
    unfold parsePortMapping. cbn [forEach].
    apply bind_err. unfold mapRequest. erewrite bind_ok by exact Hchk.
    fold (resolveIP (specgen.HostIP port)) (rangeLen port) (hostPortOf port).
    rewrite Hip. cbn [negb].
    destruct (Z.eqb_spec (specgen.ContainerPort port) 0) as [|_]; [done|].
    rewrite Hb1, Hb2.
    destruct (Z.ltb_spec 65535 (rangeLen port - 1 + specgen.ContainerPort port)); [lia|].
    destruct (Z.ltb_spec 65536 (rangeLen port - 1 + hostPortOf port)); [lia|].
    cbn [mapProtocols].
    rewrite (mapRange_edge_alone port p _ _ _ (rangeLen port)); [done|try lia..].
    + destruct Hw as (? & ? & ?). lia.
    + intros k _. cbn. by rewrite tblGet_ensureIP, tblGet_initTable.
    + intros k _. cbn. by rewrite tblGet_ensureIP, tblGet_initTable.
Qed.

(** ** Requests given twice *)

(** C6: the request [{ContainerPort:80, HostPort:8080, Protocol:"tcp"}] given
    twice in one list is accepted, and the finalized list holds one mapping
    for the pair: the second occurrence adds no entry and raises no error. *)
Theorem duplicate_request_once w :
  exists st,
    parsePortMapping [req80; req80] w = (Ok st, tick (tick w)) /\
    finalMappings st = [cni 8080 80 "tcp" ""].
Proof.
  unfold parsePortMapping. cbn [forEach].
  eexists. split.
  - erewrite bind_ok;
      [|rewrite mapRequest_tcp_wildcard by reflexivity; vm_compute; reflexivity].
    erewrite bind_ok; [reflexivity|].
    rewrite mapRequest_tcp_wildcard by reflexivity. vm_compute. reflexivity.
  - reflexivity.
Qed.

(** ** The bound on the host-port range *)

(** A request that reaches the comparison of line 97 with a host range
    ending beyond 65536 is refused there. *)
Lemma host_range_beyond_65536_refused port st w protocols w1 :
  specgen.wf port ->
  checkProtocol (specgen.Protocol port) true w = (Ok protocols, w1) ->
  ParseIP (resolveIP (specgen.HostIP port)) = true ->
  specgen.ContainerPort port <> 0 ->
  specgen.ContainerPort port + rangeLen port - 1 <= 65535 ->
  65536 < hostPortOf port + rangeLen port - 1 ->
  mapRequest port st w = (Err HostPortRangeOverflow, w1).
Proof.
  intros Hw Hchk Hip Hc0 Hcr Hhr. unfold mapRequest.
  erewrite bind_ok by exact Hchk.
  fold (resolveIP (specgen.HostIP port)) (rangeLen port) (hostPortOf port).
  rewrite Hip. cbn [negb].
  destruct (Z.eqb_spec (specgen.ContainerPort port) 0) as [|_]; [done|].
  destruct (bounds_small _ Hw) as [-> ->].
  destruct (Z.ltb_spec 65535 (rangeLen port - 1 + specgen.ContainerPort port)); [lia|].
  destruct (Z.ltb_spec 65536 (rangeLen port - 1 + hostPortOf port)); [done|lia].
Qed.

(** C2, at the request [{ContainerPort:1, HostPort:65535, Range:2,
    Protocol:"tcp"}]: host port plus range minus 1 is 65536, beyond 65535,
    and the comparison of line 97 lets the request through; the call then
    stops on the check for port 0 and not on the bound of the host range. *)
Theorem host_range_edge_not_rejected w :
  hostPortOf reqEdge + rangeLen reqEdge - 1 = 65536 /\
  (65536 <? uint32 (uint32 (uint16 (rangeLen reqEdge - 1)) + uint32 (hostPortOf reqEdge)))
    = false /\
  parsePortMapping [reqEdge] w = (Err ZeroPortInExpansion, tick w) /\
  parsePortMapping [reqEdge] w <> (Err HostPortRangeOverflow, tick w).
Proof.
  assert (H : parsePortMapping [reqEdge] w = (Err ZeroPortInExpansion, tick w)).
  { unfold parsePortMapping. cbn [forEach]. apply bind_err.
    rewrite mapRequest_tcp_wildcard by reflexivity. vm_compute. reflexivity. }
  repeat split; [exact H|]. rewrite H. discriminate.
Qed.

(** ** Marking the ports to expose *)

Lemma markPort_ok entry st w st' w' :
  markPort entry st w = (Ok st', w') ->
  entry.1 <> 0 /\
  exists pset ps,
    checkProtocolLoop false (Split entry.2 ",") ∅ = inr pset /\
    ps ≡ₚ elements pset /\
    st' = foldl (markProtocol entry.1) st ps.
Proof.
  unfold markPort. intros (ps & w1 & Hchk & H)%bind_inv_ok.
  unfold wrapErr in Hchk.
  destruct (checkProtocol entry.2 false w) as [[ps'|e|] w2] eqn:E; simplify_eq.
  apply checkProtocol_ok_inv in E as (pset & Hloop & Hperm & _).
  destruct (Z.eqb_spec entry.1 0); [done|].
  unfold ret in H. simplify_eq. split; [done|]. by exists pset, ps.
Qed.

Lemma forEach_markPort entries :
  NoDup entries.*1 ->
  forall te ctr w te' ctr' w',
  forEach markPort entries (te, ctr) w = (Ok (te', ctr'), w') ->
  (forall p ip k, tblGet ctr' p ip k = tblGet ctr p ip k) /\
  (forall k, k ∉ entries.*1 -> te' !! k = te !! k) /\
  (forall port proto, (port, proto) ∈ entries ->
     port <> 0 /\
     exists pset ps,
       checkProtocolLoop false (Split proto ",") ∅ = inr pset /\
       ps ≡ₚ elements pset /\
       default [] (te' !! port)
         = (default [] (te !! port)
            ++ filter (fun p => tblGet ctr p "0.0.0.0" port = 0) ps)%list).
Proof.
  induction entries as [|[port proto] entries IH]; intros Hnd te ctr w te' ctr' w' H.
  - cbn in H. unfold ret in H. simplify_eq.
    split; [done|]. split; [done|]. intros ?? Hin. by apply elem_of_nil in Hin.
  - cbn in H. apply bind_inv_ok in H as ([te1 ctr1] & w1 & Hhd & Htl).
    apply markPort_ok in Hhd as (Hport & pset & ps & Hloop & Hperm & Hst). cbn in *.
    apply NoDup_cons in Hnd as [Hnotin Hnd].
    destruct (foldl_markProtocol port (fun p => tblGet ctr p "0.0.0.0" port = 0) ps te ctr)
      as (G1 & G2 & G3); [done|]. rewrite <- Hst in G1, G2, G3. cbn in G1, G2, G3.
    destruct (IH Hnd _ _ _ _ _ _ Htl) as (T1 & T2 & T3).
    split; [intros; by rewrite T1, G1|]. split.
    + intros k Hk. apply not_elem_of_cons in Hk as [Hk1 Hk2]. rewrite T2, G2; done.
    + intros port' proto' [[= -> ->]|Hin]%elem_of_cons.
      * split; [done|]. exists pset, ps. rewrite T2 by done. done.
      * destruct (T3 _ _ Hin) as (Hnz & pset' & ps' & Hl' & Hp' & Hd').
        split; [done|]. exists pset', ps'. split; [done|]. split; [done|].
        rewrite Hd'. rewrite G2.
        -- f_equal. apply list_filter_iff. intros q. by rewrite G1.
        -- intros ->. apply Hnotin. apply list_elem_of_fmap. by exists (port, proto').
Qed.

Lemma rangeExpose_entries m w entries w' :
  rangeExpose m w = (Ok entries, w') ->
  entries ≡ₚ map_to_list m /\ w' = tick w.
Proof.
  unfold rangeExpose. intros H. simplify_eq. split; [apply orderExpose_perm|done].
Qed.

Lemma markExposed_spec expose ctr w toExpose ctr' w' :
  markExposed expose ctr w = (Ok (toExpose, ctr'), w') ->
  markedFor expose ctr toExpose /\
  (forall p ip k, tblGet ctr' p ip k = tblGet ctr p ip k).
Proof.
  unfold markExposed. intros (entries & w1 & [Hperm _]%rangeExpose_entries & H)%bind_inv_ok.
  apply forEach_markPort in H as (H1 & H2 & H3).
  2:{ rewrite Hperm. apply NoDup_fst_map_to_list. }
  split; [|done]. intros port.
  destruct (expose !! port) as [proto|] eqn:E.
  - destruct (H3 port proto) as (Hnz & pset & ps & Hl & Hp & Hd).
    { rewrite Hperm. by apply elem_of_map_to_list. }
    split; [done|]. exists pset, ps. rewrite lookup_empty in Hd. done.
  - rewrite H2; [by rewrite lookup_empty|].
    rewrite Hperm. intros ((k & v) & -> & Hin)%list_elem_of_fmap.
    apply elem_of_map_to_list in Hin. cbn in E. congruence.
Qed.

(** ** The probe loop *)

Lemma probeLoop_done fuel port p hostPort tries st w :
  hostPort <> 0 \/ tries <= 0 ->
  probeLoop fuel port p hostPort tries st w = (Ok (hostPort, tries, st), w).
Proof.
  intros H. destruct fuel; cbn.
  all: destruct (Z.eqb_spec hostPort 0); destruct (Z.ltb_spec 0 tries); cbn; try done; lia.
Qed.

Lemma probeLoop_step fuel port p tries st w :
  0 < tries ->
  probeLoop (S fuel) port p 0 tries st w =
    match randomPort (probeCalls w) with
    | inl e => (Err e, probed w)
    | inr candidate =>
        let host := ensureIP st.2 p "0.0.0.0" in
        if negb (tblGet host p "0.0.0.0" (uint16 candidate) =? 0)
        then probeLoop fuel port p 0 (tries - 1) (st.1, host) (probed w)
        else probeLoop fuel port p candidate tries
               ((st.1 ++ [cni (int32 candidate) (int32 port) p ""])%list,
                tblSet host p "0.0.0.0" (uint16 candidate) port) (probed w)
    end.
Proof.
  intros Ht. cbn [probeLoop]. cbn [Z.eqb andb].
  destruct (Z.ltb_spec 0 tries); [|lia].
  unfold mbind, M_bind, bind, getRandomPort. fold (probed w).
  destruct (randomPort (probeCalls w)) as [e|c]; [done|]. by destruct (negb _).
Qed.

(** What the loop leaves when it ends, whatever the port source answers:
    the mappings it appended are for this container port and protocol with
    an empty host IP, and it ends with a host port or without tries. *)
Lemma probeLoop_general fuel port p :
  forall hp0 tries fm host w hp tr fm' host' w',
  probeLoop fuel port p hp0 tries (fm, host) w = (Ok (hp, tr, (fm', host')), w') ->
  0 <= tries ->
  0 <= tr /\ (hp <> 0 \/ tr = 0) /\
  exists news, fm' = (fm ++ news)%list /\
    Forall (fun m => ocicni.ContainerPort m = int32 port /\ ocicni.Protocol m = p /\
                     ocicni.HostIP m = "") news /\
    (hp <> hp0 -> news <> []).
Proof.
  induction fuel as [|fuel IH]; intros hp0 tries fm host w hp tr fm' host' w' H Ht.
  - cbn in H. destruct (Z.eqb_spec hp0 0); destruct (Z.ltb_spec 0 tries); cbn in H;
      try done; unfold ret in H; simplify_eq;
      (split; [done|]); (split; [lia|]); exists []; by rewrite app_nil_r.
  - destruct (decide (hp0 <> 0 \/ tries <= 0)) as [Hd|Hd].
    + rewrite probeLoop_done in H by done. simplify_eq.
      split; [done|]. split; [lia|]. exists []. by rewrite app_nil_r.
    + assert (hp0 = 0) as -> by lia. rewrite probeLoop_step in H by lia.
      destruct (randomPort (probeCalls w)) as [e|c]; [done|]. cbn [fst snd] in H.
      destruct (negb _).
      * apply IH in H as (H1 & H2 & news & -> & H3 & H4); [|lia]. eauto 6.
      * apply IH in H as (H1 & H2 & news & -> & H3 & H4); [|lia].
        split; [done|]. split; [done|].
        exists (cni (int32 c) (int32 port) p "" :: news).
        rewrite <- app_assoc. split; [done|]. split; [|done].
        constructor; [done|done].
Qed.

(** With such a source the loop appends at most one mapping, for a host
    port the host table had no claim for. *)
Lemma probeLoop_nonzero fuel port p :
  nonzeroProbes ->
  forall tries fm host w hp tr fm' host' w',
  probeLoop fuel port p 0 tries (fm, host) w = (Ok (hp, tr, (fm', host')), w') ->
  (hp = 0 /\ fm' = fm /\ tblEq host' host) \/
  (exists candidate,
     hp <> 0 /\
     fm' = (fm ++ [cni (int32 candidate) (int32 port) p ""])%list /\
     tblGet host p "0.0.0.0" (uint16 candidate) = 0 /\
     tblEq host' (tblSet host p "0.0.0.0" (uint16 candidate) port)).
Proof.
  intros Hnz. induction fuel as [|fuel IH]; intros tries fm host w hp tr fm' host' w' H.
  - cbn in H. destruct (Z.ltb_spec 0 tries); cbn in H; [done|].
    unfold ret in H. simplify_eq. by left.
  - destruct (Z.ltb_spec 0 tries) as [Ht|Ht].
    2:{ rewrite probeLoop_done in H by lia. simplify_eq. by left. }
    rewrite probeLoop_step in H by done.
    destruct (randomPort (probeCalls w)) as [e|c] eqn:Ec; [done|]. cbn [fst snd] in H.
    destruct (Z.eqb_spec (tblGet (ensureIP host p "0.0.0.0") p "0.0.0.0" (uint16 c)) 0)
      as [E|E]; cbn [negb] in H.
    + rewrite probeLoop_done in H by (left; by eapply Hnz).
      injection H as <- <- <- <- <-.
      right. exists c. split; [by eapply Hnz|]. split; [done|].
      rewrite tblGet_ensureIP in E. split; [done|].
      apply tblEq_tblSet, tblEq_ensureIP.
    + apply IH in H as [(-> & -> & Heq)|(c' & Hhp & -> & Hfree & Heq)].
      * left. split; [done|]. split; [done|].
        eapply tblEq_trans; [exact Heq|apply tblEq_ensureIP].
      * right. exists c'. split; [done|]. split; [done|].
        rewrite tblGet_ensureIP in Hfree. split; [done|].
        eapply tblEq_trans; [exact Heq|]. apply tblEq_tblSet, tblEq_ensureIP.
Qed.

(** A port source that only answers host ports that are claimed uses up
    the tries, one call each. *)
Lemma probeLoop_exhaust port p fm host0 :
  (forall n, exists z, randomPort n = inr z /\ tblGet host0 p "0.0.0.0" (uint16 z) <> 0) ->
  forall k fuel host w,
  (k <= fuel)%nat -> tblEq host host0 ->
  exists host',
    probeLoop fuel port p 0 (Z.of_nat k) (fm, host) w =
      (Ok (0, 0, (fm, host')), mkWorld (rangeCalls w) (probeCalls w + k)) /\
    tblEq host' host0.
Proof.
  intros Hstub. induction k as [|k IH]; intros fuel host w Hf Heq.
  - exists host. rewrite probeLoop_done by (cbn; lia). rewrite Nat.add_0_r.
    by destruct w.
  - destruct fuel as [|fuel]; [lia|]. rewrite probeLoop_step by lia.
    destruct (Hstub (probeCalls w)) as (z & -> & Hz). cbn [fst snd].
    rewrite tblGet_ensureIP, Heq.
    destruct (Z.eqb_spec (tblGet host0 p "0.0.0.0" (uint16 z)) 0); [done|]. cbn [negb].
    replace (Z.of_nat (S k) - 1) with (Z.of_nat k) by lia.
    destruct (IH fuel (ensureIP host p "0.0.0.0") (probed w)) as (host' & -> & Heq').
    + lia.
    + eapply tblEq_trans; [apply tblEq_ensureIP|done].
    + exists host'. split; [|done]. cbn. do 2 f_equal. lia.
Qed.

(** ** Publishing the marked ports *)

Lemma publishProtocol_ok port p st w st' w' :
  publishProtocol port p st w = (Ok st', w') ->
  exists news, st'.1 = (st.1 ++ news)%list /\ Forall (publishedFor port p) news /\
               exists m, m ∈ news /\ publishedFor port p m.
Proof.
  unfold publishProtocol. intros ([[hp tr] [fm' host']] & w1 & Hloop & H)%bind_inv_ok.
  destruct st as [fm host]. cbn [fst snd] in *.
  apply probeLoop_general in Hloop as (Htr & Hexit & news & -> & Hall & Hne); [|lia].
  destruct ((tr =? 0) && (hp =? 0)) eqn:Ec; [done|].
  assert (Hhp : hp <> 0)
    by (apply andb_false_iff in Ec as [Ec|Ec]; apply Z.eqb_neq in Ec; lia).
  unfold ret in H. injection H as <- <-. cbn.
  exists news. split; [done|]. split; [done|].
  destruct news as [|m news]; [exfalso; by apply Hne|].
  exists m. split; [apply elem_of_cons; by left|by apply Forall_cons in Hall as [? _]].
Qed.

Lemma publishPort_ok entry st w st' w' :
  publishPort entry st w = (Ok st', w') ->
  exists news, st'.1 = (st.1 ++ news)%list /\
    Forall (fun m => exists p, p ∈ entry.2 /\ publishedFor entry.1 p m) news /\
    (forall p, p ∈ entry.2 -> exists m, m ∈ news /\ publishedFor entry.1 p m).
Proof.
  unfold publishPort.
  apply (forEach_appends (publishProtocol entry.1) (publishedFor entry.1)
           (fun p news => exists m, m ∈ news /\ publishedFor entry.1 p m)).
  - intros p l1 l l2 (m & Hm & HQ). exists m. split; [|done].
    apply elem_of_app. right. apply elem_of_app. by left.
  - intros p s0 w0 s1 w1. apply publishProtocol_ok.
Qed.

Lemma publishExposed_ok toExpose st w st' w' :
  publishExposed toExpose st w = (Ok st', w') ->
  exists news, st'.1 = (st.1 ++ news)%list /\
    Forall (fun m => exists port protos p,
              toExpose !! port = Some protos /\ p ∈ protos /\ publishedFor port p m) news /\
    (forall port protos p, toExpose !! port = Some protos -> p ∈ protos ->
       exists m, m ∈ news /\ publishedFor port p m).
Proof.
  unfold publishExposed. intros (entries & w1 & Hr & H)%bind_inv_ok.
  unfold rangeToExpose in Hr. simplify_eq.
  pose proof (orderToExpose_perm (rangeCalls w) (map_to_list toExpose)) as Hperm.
  apply (forEach_appends publishPort
           (fun entry m => exists p, p ∈ entry.2 /\ publishedFor entry.1 p m)
           (fun entry news => forall p, p ∈ entry.2 ->
                                exists m, m ∈ news /\ publishedFor entry.1 p m)) in H.
  - destruct H as (news & Hn & HQ & HE). exists news. split; [done|]. split.
    + eapply Forall_impl; [exact HQ|]. intros m ([port protos] & Hin & p & Hp & Hm).
      rewrite Hperm in Hin. apply elem_of_map_to_list in Hin. by exists port, protos, p.
    + intros port protos p Hl Hp. apply (HE (port, protos)); [|done].
      rewrite Hperm. by apply elem_of_map_to_list.
  - intros entry l1 l l2 HE p Hp. destruct (HE p Hp) as (m & Hm & HQ).
    exists m. split; [|done]. apply elem_of_app. right. apply elem_of_app. by left.
  - intros entry s0 w0 s1 w2. apply publishPort_ok.
Qed.

(** ** Which ports are marked *)


(** ** createPortMappings, stage by stage *)

(** The stages of a call that goes on to publish the exposed ports. *)
Lemma createPortMappings_stages s img w parsed w1 expose w2 marked w3 :
  parsePortMapping (PortMappings s) w = (Ok parsed, w1) ->
  PublishExposedPorts s = true ->
  size (Expose s) <> 0%nat \/ is_Some img ->
  mergeExpose s img w1 = (Ok expose, w2) ->
  markExposed expose (containerPortValidate parsed) w2 = (Ok marked, w3) ->
  createPortMappings s img w =
    (published ← publishExposed marked.1 (finalMappings parsed, hostPortValidate parsed);
     ret published.1) w3.
Proof.
  intros Hparse Hpub Hsome Hmerge Hmark. unfold createPortMappings.
  erewrite bind_ok by exact Hparse. rewrite Hpub. cbn [negb orb].
  replace ((size (Expose s) =? 0)%nat && negb (bool_decide (is_Some img))) with false.
  2:{ symmetry. apply andb_false_iff. destruct Hsome as [H|H].
      - left. by apply Nat.eqb_neq.
      - right. by rewrite bool_decide_eq_true_2. }
  erewrite bind_ok by exact Hmerge. erewrite bind_ok by exact Hmark. done.
Qed.

Lemma createPortMappings_ok_inv s img w fm w' :
  createPortMappings s img w = (Ok fm, w') ->
  exists parsed w1,
    parsePortMapping (PortMappings s) w = (Ok parsed, w1) /\
    ((fm = finalMappings parsed /\ w' = w1) \/
     (exists expose w2 toExpose ctr' w3 host',
        mergeExpose s img w1 = (Ok expose, w2) /\
        markExposed expose (containerPortValidate parsed) w2 = (Ok (toExpose, ctr'), w3) /\
        publishExposed toExpose (finalMappings parsed, hostPortValidate parsed) w3
          = (Ok (fm, host'), w'))).
Proof.
  unfold createPortMappings. intros (parsed & w1 & Hparse & H)%bind_inv_ok.
  exists parsed, w1. split; [done|].
  destruct (negb _ || _).
  - left. unfold ret in H. by simplify_eq.
  - right. apply bind_inv_ok in H as (expose & w2 & Hmerge & H).
    apply bind_inv_ok in H as ([toExpose ctr'] & w3 & Hmark & H).
    apply bind_inv_ok in H as ([fm' host'] & w4 & Hpub & H).
    unfold ret in H. simplify_eq. cbn. by exists expose, w2, toExpose, ctr', w3, host'.
Qed.

(** ** Running out of tries *)

(** C5: when every answer of [getRandomPort] is a host port that is a key of
    the host-to-container table for the protocol under "0.0.0.0", the
    publication of the first port to expose fails: [createPortMappings]
    returns the error for that container port, after fifteen calls of
    [getRandomPort] and no more. *)
Theorem exhaustion_after_15_probes s img w parsed w1 expose w2 toExpose ctr' w3
    port p ps rest :
  parsePortMapping (PortMappings s) w = (Ok parsed, w1) ->
  PublishExposedPorts s = true ->
  size (Expose s) <> 0%nat \/ is_Some img ->
  mergeExpose s img w1 = (Ok expose, w2) ->
  markExposed expose (containerPortValidate parsed) w2 = (Ok (toExpose, ctr'), w3) ->
  orderToExpose (rangeCalls w3) (map_to_list toExpose) = (port, p :: ps) :: rest ->
  (forall n, exists z,
     randomPort n = inr z /\
     is_Some (portMap (hostPortValidate parsed) p "0.0.0.0" !! uint16 z)) ->
  createPortMappings s img w =
    (Err (PortAllocationExhausted port),
     mkWorld (S (rangeCalls w3)) (probeCalls w + 15)).
Proof.
  intros Hparse Hpub Hsome Hmerge Hmark Hfirst Hstub.
  erewrite createPortMappings_stages by done. cbn [fst].
  assert (Hprobes : probeCalls w3 = probeCalls w).
  { rewrite (sameProbes_markExposed _ _ _ _ _ Hmark).
    rewrite (sameProbes_mergeExpose _ _ _ _ _ Hmerge).
    by rewrite (sameProbes_parsePortMapping _ _ _ _ Hparse). }
  apply bind_err. unfold publishExposed.
  erewrite bind_ok by reflexivity. rewrite Hfirst. cbn [forEach].
  apply bind_err. unfold publishPort. cbn [fst snd forEach].
  apply bind_err. unfold publishProtocol.
  pose proof (parsePortMapping_inv _ _ _ _ Hparse) as Hinv.
  destruct (probeLoop_exhaust port p (finalMappings parsed) (hostPortValidate parsed))
    with (k := 15%nat) (fuel := probeFuel) (host := hostPortValidate parsed)
         (w := tick w3) as (host' & Hloop & _).
  - intros n. destruct (Hstub n) as (z & Hz & Hkey). exists z. split; [done|].
    apply claimsNonzero_present; [apply Hinv|done].
  - unfold probeFuel. lia.
  - apply tblEq_refl.
  - erewrite bind_ok by exact Hloop. cbn. unfold fail. by rewrite Hprobes.
Qed.

(** ** The merged expose set *)

Lemma addImageExpose_eq imgExpose expose :
  addImageExpose imgExpose expose =
    match parseImageExpose imgExpose with
    | inl e => fail e
    | inr kv => ret (setEntry expose kv)
    end.
Proof.
  unfold addImageExpose, parseImageExpose.
  destruct (Atoi _); [done|]. destruct (_ || _); [done|]. by destruct (_ =? _)%nat.
Qed.

Lemma forEach_addImageExpose declared :
  forall expose w expose' w',
  forEach addImageExpose declared expose w = (Ok expose', w') ->
  exists kvs,
    Forall2 (fun d kv => parseImageExpose d = inr kv) declared kvs /\
    expose' = foldl setEntry expose kvs.
Proof.
  induction declared as [|d declared IH]; intros expose w expose' w' H; cbn in H.
  - unfold ret in H. simplify_eq. exists []. split; [constructor|done].
  - apply bind_inv_ok in H as (e1 & w1 & Hd & H). rewrite addImageExpose_eq in Hd.
    destruct (parseImageExpose d) as [err|kv] eqn:E; [done|].
    unfold ret in Hd. simplify_eq.
    apply IH in H as (kvs & Hall & ->).
    exists (kv :: kvs). split; [by constructor|done].
Qed.

Lemma mergeExpose_spec s img w expose w' :
  mergeExpose s img w = (Ok expose, w') ->
  match img with
  | None => expose = Expose s
  | Some im =>
      exists declaredSet declared kvs,
        InspectNoSize im = inr declaredSet /\
        declared ≡ₚ elements declaredSet /\
        Forall2 (fun d kv => parseImageExpose d = inr kv) declared kvs /\
        expose = foldl setEntry (Expose s) kvs
  end.
Proof.
  unfold mergeExpose. intros (entries & w1 & [Hperm _]%rangeExpose_entries & H)%bind_inv_ok.
  change (foldl _ ∅ entries) with (foldl setEntry ∅ entries) in H.
  rewrite (foldl_setEntry_copy _ _ Hperm) in H.
  destruct img as [im|].
  - destruct (InspectNoSize im) as [err|declaredSet]; [done|].
    apply bind_inv_ok in H as (declared & w2 & Hd & H).
    unfold rangeStrings in Hd. simplify_eq.
    apply forEach_addImageExpose in H as (kvs & Hall & ->).
    eexists declaredSet, _, kvs. split; [done|]. split; [apply orderStrings_perm|done].
  - unfold ret in H. by simplify_eq.
Qed.

(** C1, as the code has it: a container port that the image declares gets,
    in the merged expose set, the protocol specifier of a declaration of
    the image for that port, which replaces the specifier of the explicit
    expose map; only a port the image does not declare keeps the specifier
    of the explicit expose map.  One specifier is kept for a port, so the
    ports to publish for it are the protocols of that specifier alone. *)
Theorem image_expose_replaces_explicit s im w expose w' declaredSet :
  mergeExpose s (Some im) w = (Ok expose, w') ->
  InspectNoSize im = inr declaredSet ->
  forall port,
    ((exists d proto, d ∈ declaredSet /\ parseImageExpose d = inr (port, proto)) ->
     exists d proto, d ∈ declaredSet /\ parseImageExpose d = inr (port, proto) /\
                     expose !! port = Some proto) /\
    ((forall d proto, d ∈ declaredSet -> parseImageExpose d <> inr (port, proto)) ->
     expose !! port = Expose s !! port) /\
    (forall ctr w1 marked w2,
       markExposed expose ctr w1 = (Ok marked, w2) ->
       forall p, p ∈ default [] (marked.1 !! port) ->
       exists proto pset,
         expose !! port = Some proto /\
         checkProtocolLoop false (Split proto ",") ∅ = inr pset /\ p ∈ pset).
Proof.
  intros Hmerge Hinspect port.
  apply mergeExpose_spec in Hmerge as (dset & declared & kvs & Hi & Hperm & Hall & ->).
  rewrite Hinspect in Hi. simplify_eq.
  assert (Hkv : forall kv, kv ∈ kvs -> exists d, d ∈ dset /\ parseImageExpose d = inr kv).
  { intros kv Hin. apply list_elem_of_lookup in Hin as [i Hi].
    destruct (Forall2_lookup_r _ _ _ _ _ Hall Hi) as (d & Hd & Hp).
    exists d. split; [|done]. apply elem_of_elements. rewrite <- Hperm.
    by eapply list_elem_of_lookup_2. }
  assert (Hd : forall d kv, d ∈ dset -> parseImageExpose d = inr kv -> kv ∈ kvs).
  { intros d kv Hin Hp. apply elem_of_elements in Hin. rewrite <- Hperm in Hin.
    apply list_elem_of_lookup in Hin as [i Hi].
    destruct (Forall2_lookup_l _ _ _ _ _ Hall Hi) as (kv' & Hkv' & Hp').
    rewrite Hp in Hp'. simplify_eq. by eapply list_elem_of_lookup_2. }
  split; [|split].
  - intros (d & proto & Hin & Hp).
    destruct (foldl_setEntry_some kvs (Expose s) port) as (v & Hv & Hl).
    { apply list_elem_of_fmap. exists (port, proto). split; [done|]. by eapply Hd. }
    destruct (Hkv _ Hv) as (d' & Hd' & Hp'). by exists d', v.
  - intros Hnone. apply foldl_setEntry_other.
    intros ([k v] & -> & Hin)%list_elem_of_fmap.
    destruct (Hkv _ Hin) as (d & Hd' & Hp). by eapply Hnone.
  - intros ctr w1 [toExpose ctr'] w2 Hmark p Hp.
    apply markExposed_spec in Hmark as [Hm _]. specialize (Hm port). cbn in Hp.
    destruct (foldl setEntry (Expose s) kvs !! port) as [proto|].
    + destruct Hm as (_ & pset & ps & Hloop & Hperm' & Hdef).
      exists proto, pset. split; [done|]. split; [done|].
      rewrite Hdef in Hp. apply list_elem_of_filter in Hp as [_ Hp].
      rewrite Hperm' in Hp. by apply elem_of_elements in Hp.
    + rewrite Hm in Hp. by apply elem_of_nil in Hp.
Qed.

(** ** No two mappings for one port *)

Lemma publishProtocol_inv ctr done port p st w st' w' :
  nonzeroProbes ->
  pubInv ctr done st ->
  0 < port < 65536 -> (port, p) ∉ done -> tblGet ctr p "0.0.0.0" port = 0 ->
  publishProtocol port p st w = (Ok st', w') ->
  pubInv ctr (done ++ [(port, p)]) st'.
Proof.
  intros Hnz Hinv Hport Hnew Hun. unfold publishProtocol.
  intros ([[hp tr] [fm' host']] & w1 & Hloop & H)%bind_inv_ok.
  destruct st as [fm host].
  apply (probeLoop_nonzero _ _ _ Hnz) in Hloop
    as [(-> & -> & Heq)|(c & Hhp & -> & Hfree & Heq)]; cbn [fst snd] in H.
  - destruct (_ && _); [done|]. unfold ret in H. injection H as <- <-.
    eapply pubInv_unchanged; [exact Hinv|done|]. intros x Hx. apply elem_of_app. by left.
  - destruct (_ && _); [done|]. unfold ret in H. injection H as <- <-.
    by apply pubInv_append with (host := host).
Qed.

Lemma publishPort_inv ctr done entry st w st' w' :
  nonzeroProbes ->
  pubInv ctr done st ->
  goodEntry ctr entry -> entry.1 ∉ done.*1 ->
  publishPort entry st w = (Ok st', w') ->
  pubInv ctr (done ++ (pair entry.1 <$> entry.2)) st'.
Proof.
  intros Hnz Hinv (Hport & Hnd & Hun) Hnew H. unfold publishPort in H.
  apply (forEach_inv_split
           (fun pre s => pubInv ctr (done ++ (pair entry.1 <$> pre)) s)) in H; [done| |].
  - intros pre p suf s w0 s' w0' Hsplit HP Hbody.
    rewrite fmap_app, app_assoc. cbn.
    eapply publishProtocol_inv; [done|exact HP|done| |apply Hun|exact Hbody].
    + intros [Hin|Hin]%elem_of_app.
      * apply Hnew. apply list_elem_of_fmap. by exists (entry.1, p).
      * apply list_elem_of_fmap in Hin as (q & [= ->] & Hq).
        rewrite Hsplit in Hnd. apply NoDup_app in Hnd as (_ & Hdis & _).
        apply (Hdis q Hq). apply elem_of_cons. by left.
    + rewrite Hsplit. apply elem_of_app. right. apply elem_of_cons. by left.
  - cbn. by rewrite app_nil_r.
Qed.

Lemma pairsOf_app l1 l2 : pairsOf (l1 ++ l2) = (pairsOf l1 ++ pairsOf l2)%list.
Proof. unfold pairsOf. apply bind_app. Qed.

Lemma pairsOf_keys entries k : k ∈ (pairsOf entries).*1 -> k ∈ entries.*1.
Proof.
  intros ([k' p] & -> & Hin)%list_elem_of_fmap. unfold pairsOf in Hin.
  apply list_elem_of_bind in Hin as (entry & Hp & Hentry).
  apply list_elem_of_fmap in Hp as (q & [= -> ->] & _).
  apply list_elem_of_fmap. by exists entry.
Qed.

Lemma forEach_publishPort_inv ctr entries st w st' w' :
  nonzeroProbes ->
  pubInv ctr [] st ->
  NoDup entries.*1 -> Forall (goodEntry ctr) entries ->
  forEach publishPort entries st w = (Ok st', w') ->
  pubInv ctr (pairsOf entries) st'.
Proof.
  intros Hnz Hinv Hnd Hgood H.
  apply (forEach_inv_split (fun pre s => pubInv ctr (pairsOf pre) s)) in H; [done| |done].
  intros pre entry suf s w0 s' w0' Hsplit HP Hbody.
  rewrite pairsOf_app. unfold pairsOf at 2. cbn. rewrite app_nil_r.
  eapply publishPort_inv; [done|exact HP| | |exact Hbody].
  - eapply Forall_forall; [exact Hgood|]. rewrite Hsplit.
    apply elem_of_app. right. apply elem_of_cons. by left.
  - intros Hin%pairsOf_keys. rewrite Hsplit, fmap_app in Hnd.
    apply NoDup_app in Hnd as (_ & Hdis & _). apply (Hdis _ Hin).
    cbn. apply elem_of_cons. by left.
Qed.

(** The keys of the merged expose set are [uint16] values when those of
    [s.Expose] are. *)
Lemma mergeExpose_keys s img w expose w' :
  (forall k v, Expose s !! k = Some v -> 0 <= k < 65536) ->
  mergeExpose s img w = (Ok expose, w') ->
  forall k v, expose !! k = Some v -> 0 <= k < 65536.
Proof.
  intros Hwf Hmerge k v Hk. apply mergeExpose_spec in Hmerge.
  destruct img as [im|]; [|subst; by eapply Hwf].
  destruct Hmerge as (dset & declared & kvs & _ & _ & Hall & ->).
  destruct (decide (k ∈ kvs.*1)) as [Hin|Hnotin].
  - apply list_elem_of_fmap in Hin as ([k' v'] & -> & Hin).
    apply list_elem_of_lookup in Hin as [i Hi].
    destruct (Forall2_lookup_r _ _ _ _ _ Hall Hi) as (d & _ & Hp).
    unfold parseImageExpose in Hp. destruct (Atoi _); [done|]. destruct (_ || _); [done|].
    injection Hp as <- _. apply uint16_range.
  - rewrite foldl_setEntry_other in Hk by done. by eapply Hwf.
Qed.

Lemma markedFor_goodEntry expose ctr toExpose port protos :
  (forall k v, expose !! k = Some v -> 0 <= k < 65536) ->
  markedFor expose ctr toExpose ->
  toExpose !! port = Some protos ->
  goodEntry ctr (port, protos).
Proof.
  intros Hkeys Hm Hl. specialize (Hm port).
  destruct (expose !! port) as [proto|] eqn:E; [|congruence].
  destruct Hm as (Hnz & pset & ps & _ & Hperm & Hdef). rewrite Hl in Hdef. cbn in Hdef.
  pose proof (Hkeys _ _ E). split; [cbn; lia|]. cbn. subst protos. split.
  - apply NoDup_filter. rewrite Hperm. apply NoDup_elements.
  - intros p Hp. by apply list_elem_of_filter in Hp as [? _].
Qed.

(** C3: the list a successful call of [createPortMappings] returns has no
    two entries at different places with the same protocol, resolved host
    IP and host port, nor with the same protocol, resolved host IP and
    container port, the empty host IP resolving to "0.0.0.0".  The keys of
    [s.Expose] are [uint16] values and [getRandomPort] does not answer 0. *)
Theorem final_mappings_unique s img w fm w' :
  (forall k v, Expose s !! k = Some v -> 0 <= k < 65536) ->
  nonzeroProbes ->
  createPortMappings s img w = (Ok fm, w') ->
  forall i j mi mj,
    fm !! i = Some mi -> fm !! j = Some mj -> i <> j ->
    ~ (ocicni.Protocol mi = ocicni.Protocol mj /\
       resolveIP (ocicni.HostIP mi) = resolveIP (ocicni.HostIP mj) /\
       ocicni.HostPort mi = ocicni.HostPort mj) /\
    ~ (ocicni.Protocol mi = ocicni.Protocol mj /\
       resolveIP (ocicni.HostIP mi) = resolveIP (ocicni.HostIP mj) /\
       ocicni.ContainerPort mi = ocicni.ContainerPort mj).
Proof.
  intros Hkeys Hnz Hcreate.
  assert (Hu : uniqueMappings fm).
  { apply createPortMappings_ok_inv in Hcreate as (parsed & w1 & Hparse & Hrest).
    apply parsePortMapping_inv in Hparse as Hinv.
    destruct Hrest as [[-> _]|(expose & w2 & toExpose & ctr' & w3 & host' & Hmerge & Hmark & Hpub)].
    - apply Hinv.
    - apply markExposed_spec in Hmark as [Hmarked _].
      unfold publishExposed in Hpub.
      apply bind_inv_ok in Hpub as (entries & w4 & Hr & Hpub).
      unfold rangeToExpose in Hr. injection Hr as <- <-.
      pose proof (orderToExpose_perm (rangeCalls w3) (map_to_list toExpose)) as Hperm.
      apply (forEach_publishPort_inv (containerPortValidate parsed)) in Hpub.
      + apply Hpub.
      + done.
      + by apply pubInv_of_parseInv.
      + rewrite Hperm. apply NoDup_fst_map_to_list.
      + apply Forall_forall. intros [port protos] Hin. rewrite Hperm in Hin.
        apply elem_of_map_to_list in Hin.
        eapply markedFor_goodEntry; [|exact Hmarked|exact Hin].
        by eapply mergeExpose_keys. }
  destruct Hu as [Hu1 Hu2]. intros i j mi mj Hi Hj Hne. split.
  - intros (H1 & H2 & H3). apply Hne.
    eapply NoDup_lookup; [exact Hu1|rewrite list_lookup_fmap, Hi; reflexivity|].
    rewrite list_lookup_fmap, Hj. cbn. unfold hostKey. by rewrite H1, H2, H3.
  - intros (H1 & H2 & H3). apply Hne.
    eapply NoDup_lookup; [exact Hu2|rewrite list_lookup_fmap, Hi; reflexivity|].
    rewrite list_lookup_fmap, Hj. cbn. unfold ctrKey. by rewrite H1, H2, H3.
Qed.

(** ** Every call returns *)

(** Once host port 0 is claimed, every candidate that is accepted ends the
    loop, and [tries] iterations are enough. *)
Lemma probeLoop_converges_claimed port p fuel :
  forall hostPort tries st w,
  tblGet st.2 p "0.0.0.0" 0 <> 0 ->
  (Z.to_nat tries <= fuel)%nat ->
  (probeLoop fuel port p hostPort tries st w).1 <> Diverge.
Proof.
  induction fuel as [|fuel IH]; intros hp tries st w Hzero Hfuel.
  - rewrite probeLoop_done by lia. done.
  - destruct (decide (hp <> 0 \/ tries <= 0)) as [Hd|Hd];
      [by rewrite probeLoop_done|].
    assert (hp = 0) as -> by lia. rewrite probeLoop_step by lia.
    destruct (randomPort (probeCalls w)) as [e|c]; [done|]. cbn zeta.
    destruct (Z.eqb_spec (tblGet (ensureIP st.2 p "0.0.0.0") p "0.0.0.0" (uint16 c)) 0)
      as [E|E]; cbn [negb].
    + rewrite probeLoop_done; [done|]. left. intros ->.
      rewrite tblGet_ensureIP in E. done.
    + apply IH; [cbn; by rewrite tblGet_ensureIP|lia].
Qed.

(** For a container port other than 0 the loop needs one iteration more
    than [tries] at most. *)
Lemma probeLoop_converges port p fuel :
  port <> 0 ->
  forall tries st w,
  (Z.to_nat tries + 1 <= fuel)%nat ->
  (probeLoop fuel port p 0 tries st w).1 <> Diverge.
Proof.
  intros Hport. induction fuel as [|fuel IH]; intros tries st w Hfuel; [lia|].
  destruct (Z.ltb_spec 0 tries) as [Ht|Ht]; [|by rewrite probeLoop_done by lia].
  rewrite probeLoop_step by done.
  destruct (randomPort (probeCalls w)) as [e|c]; [done|]. cbn zeta.
  destruct (Z.eqb_spec (tblGet (ensureIP st.2 p "0.0.0.0") p "0.0.0.0" (uint16 c)) 0)
    as [E|E]; cbn [negb].
  - destruct (decide (c = 0)) as [->|Hc]; [|by rewrite probeLoop_done by (by left)].
    apply probeLoop_converges_claimed; [|lia].
    cbn. by rewrite tblGet_tblSet, decide_True.
  - apply IH. lia.
Qed.

Lemma converges_checkProtocol protocol allowSCTP : converges (checkProtocol protocol allowSCTP).
Proof.
  unfold checkProtocol. apply converges_bind; [apply converges_lift|]. intros pset.
  apply converges_bind; [intros w; done|]. intros ps.
  case_match; [apply converges_fail|apply converges_ret].
Qed.

Lemma converges_parsePortMapping portMappings : converges (parsePortMapping portMappings).
Proof.
  apply (converges_forEach (fun _ => True)); [by apply Forall_true|].
  intros port st _. unfold mapRequest.
  apply converges_bind; [apply converges_checkProtocol|]. intros ps. cbv zeta.
  destruct (negb _); [apply converges_fail|].
  destruct (_ =? 0); [apply converges_fail|].
  destruct (65535 <? _); [apply converges_fail|].
  destruct (65536 <? _); [apply converges_fail|].
  apply converges_lift.
Qed.

Lemma converges_mergeExpose s img : converges (mergeExpose s img).
Proof.
  unfold mergeExpose. apply converges_bind; [intros w; done|]. intros entries.
  destruct img as [im|]; [|apply converges_ret].
  destruct (InspectNoSize im); [apply converges_fail|].
  apply converges_bind; [intros w; done|]. intros declared.
  apply (converges_forEach (fun _ => True)); [by apply Forall_true|].
  intros d e _. rewrite addImageExpose_eq.
  destruct (parseImageExpose d); [apply converges_fail|apply converges_ret].
Qed.

Lemma converges_markExposed expose ctr : converges (markExposed expose ctr).
Proof.
  unfold markExposed. apply converges_bind; [intros w; done|]. intros entries.
  apply (converges_forEach (fun _ => True)); [by apply Forall_true|].
  intros entry st _. unfold markPort.
  apply converges_bind; [apply converges_wrapErr, converges_checkProtocol|]. intros ps.
  case_match; [apply converges_fail|apply converges_ret].
Qed.

Lemma converges_publishProtocol port p st :
  port <> 0 -> converges (publishProtocol port p st).
Proof.
  intros Hport. unfold publishProtocol. apply converges_bind.
  - intros w. apply probeLoop_converges; [done|]. unfold probeFuel. lia.
  - intros r. case_match; [apply converges_fail|apply converges_ret].
Qed.

(** The model of [createPortMappings] is never cut by the bound on the
    probe loop: every call returns a list or an error. *)
Lemma createPortMappings_converges s img : converges (createPortMappings s img).
Proof.
  unfold createPortMappings.
  apply converges_bind; [apply converges_parsePortMapping|]. intros parsed.
  destruct (negb _ || _); [apply converges_ret|].
  apply converges_bind; [apply converges_mergeExpose|]. intros expose.
  apply converges_bind_ok; [apply converges_markExposed|].
  intros [toExpose ctr'] w w' Hmark.
  apply markExposed_spec in Hmark as [Hmarked _].
  apply converges_bind; [|intros; apply converges_ret].
  unfold publishExposed. cbn [fst]. apply converges_bind_ok; [intros w0; done|].
  intros entries w0 w1 Hr. unfold rangeToExpose in Hr. injection Hr as <- <-.
  pose proof (orderToExpose_perm (rangeCalls w0) (map_to_list toExpose)) as Hperm.
  apply (converges_forEach (fun entry : Z * list string => entry.1 <> 0)).
  - apply Forall_forall. intros [port protos] Hin. rewrite Hperm in Hin.
    apply elem_of_map_to_list in Hin. cbn. intros ->.
    specialize (Hmarked 0). rewrite Hin in Hmarked.
    destruct (expose !! 0); [by destruct Hmarked|done].
  - intros entry st Hentry. unfold publishPort.
    apply (converges_forEach (fun _ => True)); [by apply Forall_true|].
    intros p st0 _. by apply converges_publishProtocol.
Qed.

(** ** SCTP *)

Lemma forEach_markPort_sctp entries :
  forall st w port,
  (port, "sctp") ∈ entries ->
  (forall port' proto, (port', proto) ∈ entries -> proto <> "sctp" ->
     port' <> 0 /\ exists pset, checkProtocolLoop false (Split proto ",") ∅ = inr pset) ->
  exists port' w',
    forEach markPort entries st w = (Err (ExposeProtocol port' ProtocolNotAllowed), w') /\
    (port', "sctp") ∈ entries.
Proof.
  induction entries as [|[k proto] entries IH]; intros st w port Hin Hother.
  - by apply elem_of_nil in Hin.
  - cbn [forEach].
    destruct (decide (proto = "sctp")) as [->|Hne].
    + exists k, w. split; [|apply elem_of_cons; by left].
      apply bind_err. unfold markPort. apply bind_err. cbn [fst snd]. unfold wrapErr.
      by rewrite (checkProtocol_loop_err "sctp" false ProtocolNotAllowed).
    + apply elem_of_cons in Hin as [Heq|Hin]; [congruence|].
      destruct (Hother k proto) as (Hk & pset & Hloop); [apply elem_of_cons; by left|done|].
      destruct (checkProtocol_loop_ok _ _ _ w Hloop) as (ps & Hchk & _).
      assert (Hhd : markPort (k, proto) st w = (Ok (foldl (markProtocol k) st ps), tick w)).
      { unfold markPort. cbn [fst snd]. erewrite bind_ok.
        2:{ unfold wrapErr. by rewrite Hchk. }
        by destruct (Z.eqb_spec k 0). }
      erewrite bind_ok by exact Hhd.
      destruct (IH (foldl (markProtocol k) st ps) (tick w) port Hin) as (port' & w' & H1 & H2).
      { intros port' proto' Hin'. apply Hother. apply elem_of_cons. by right. }
      exists port', w'. split; [done|]. apply elem_of_cons. by right.
Qed.

(** C7: [checkProtocol] refuses "sctp" when SCTP is not allowed and accepts
    it when it is.  An explicit mapping with protocol "sctp" goes through
    [parsePortMapping], which allows it.  A merged expose set with an entry
    "sctp", whether it came from the image or from the explicit expose map,
    makes [createPortMappings] fail, and fail with the SCTP error when the
    other entries of the set are valid. *)
Theorem sctp_only_for_explicit_mappings w :
  checkProtocol "sctp" false w = (Err ProtocolNotAllowed, w) /\
  checkProtocol "sctp" true w = (Ok ["sctp"], tick w) /\
  (exists st, parsePortMapping [req53sctp] w = (Ok st, tick w) /\
              finalMappings st = [cni 53 53 "sctp" ""]) /\
  (forall s img parsed w1 expose w2 port,
     parsePortMapping (PortMappings s) w = (Ok parsed, w1) ->
     PublishExposedPorts s = true ->
     size (Expose s) <> 0%nat \/ is_Some img ->
     mergeExpose s img w1 = (Ok expose, w2) ->
     expose !! port = Some "sctp" ->
     (exists e w', createPortMappings s img w = (Err e, w')) /\
     ((forall port' proto, expose !! port' = Some proto -> proto <> "sctp" ->
         port' <> 0 /\
         exists pset, checkProtocolLoop false (Split proto ",") ∅ = inr pset) ->
      exists port' w',
        createPortMappings s img w = (Err (ExposeProtocol port' ProtocolNotAllowed), w') /\
        expose !! port' = Some "sctp")).
Proof.
  assert (Hsctp : checkProtocol "sctp" true w = (Ok ["sctp"], tick w))
    by (apply checkProtocol_single; vm_compute; reflexivity).
  split; [by apply checkProtocol_loop_err|]. split; [done|]. split.
  - unfold parsePortMapping. cbn [forEach]. eexists. split.
    + erewrite bind_ok; [reflexivity|].
      erewrite mapRequest_wildcard by (try exact Hsctp; reflexivity).
      vm_compute. reflexivity.
    + reflexivity.
  - intros s img parsed w1 expose w2 port Hparse Hpub Hsome Hmerge Hport.
    pose proof (orderExpose_perm (rangeCalls w2) (map_to_list expose)) as Hperm.
    assert (Hstage : forall r,
              markExposed expose (containerPortValidate parsed) w2 = r ->
              (forall e w', r = (Err e, w') ->
                 createPortMappings s img w = (Err e, w'))).
    { intros r Hr e w' ->. unfold createPortMappings.
      erewrite bind_ok by exact Hparse. rewrite Hpub. cbn [negb orb].
      replace ((size (Expose s) =? 0)%nat && negb (bool_decide (is_Some img))) with false.
      2:{ symmetry. apply andb_false_iff. destruct Hsome as [H|H].
          - left. by apply Nat.eqb_neq.
          - right. by rewrite bool_decide_eq_true_2. }
      erewrite bind_ok by exact Hmerge. by apply bind_err. }
    split.
    + destruct (markExposed expose (containerPortValidate parsed) w2) as [[m|e|] w'] eqn:E.
      * exfalso. unfold markExposed in E. erewrite bind_ok in E by reflexivity.
        eapply (forEach_reaches markPort _ (port, "sctp")) in E
          as (s1 & w3 & s2 & w4 & Hbody).
        -- apply markPort_ok in Hbody as (_ & pset & ps & Hloop & _). cbn in Hloop.
           vm_compute in Hloop. discriminate Hloop.
        -- rewrite Hperm. by apply elem_of_map_to_list.
      * exists e, w'. by eapply Hstage.
      * exfalso. by apply (converges_markExposed expose (containerPortValidate parsed) w2);
          rewrite E.
    + intros Hother.
      destruct (forEach_markPort_sctp (orderExpose (rangeCalls w2) (map_to_list expose))
                  (∅, containerPortValidate parsed) (tick w2) port) as (port' & w' & Hf & Hin).
      * rewrite Hperm. by apply elem_of_map_to_list.
      * intros port' proto Hin. rewrite Hperm in Hin. apply elem_of_map_to_list in Hin.
        by apply Hother.
      * exists port', w'. split.
        -- eapply Hstage; [reflexivity|].
           unfold markExposed. erewrite bind_ok by reflexivity. exact Hf.
        -- rewrite Hperm in Hin. by apply elem_of_map_to_list in Hin.
Qed.

End Properties.

(** * Further properties *)

Lemma checkProtocolLoop_ok allowSCTP splitProto :
  forall acc pset,
  checkProtocolLoop allowSCTP splitProto acc = inr pset ->
  Forall (validToken allowSCTP) splitProto /\
  forall p, p ∈ pset <-> p ∈ acc \/ exists t, t ∈ splitProto /\ tokenProtocol t = p.
Proof.
  induction splitProto as [|t rest IH]; intros acc pset H; cbn in H.
  - simplify_eq. split; [constructor|]. intros p. split; [by left|].
    intros [?|(t & Ht & _)]; [done|by apply elem_of_nil in Ht].
  - destruct ((t =? protoTCP)%string || (t =? "")%string) eqn:E1.
    { apply IH in H as [Hall Hmem]. split.
      - constructor; [|done]. apply orb_true_iff in E1 as [E|E]; apply String.eqb_eq in E;
          subst; unfold validToken; auto.
      - intros p. rewrite Hmem, elem_of_union, elem_of_singleton.
        assert (Ht : tokenProtocol t = "tcp")
          by (apply orb_true_iff in E1 as [E|E]; apply String.eqb_eq in E; by subst).
        split.
        + intros [[->|?]|(t' & Hin & He)]; [right; exists t|by left|right; exists t'];
            (split; [|done]); apply elem_of_cons; auto.
        + intros [?|(t' & [->|Hin]%elem_of_cons & He)]; [by left; right| |right; by exists t'].
          left. left. by rewrite <- He. }
    apply orb_false_iff in E1 as [E1 E1'].
    destruct (t =? protoUDP)%string eqn:E2.
    { apply String.eqb_eq in E2. subst t. apply IH in H as [Hall Hmem]. split.
      - constructor; [|done]. unfold validToken. auto.
      - intros p. rewrite Hmem, elem_of_union, elem_of_singleton. split.
        + intros [[->|?]|(t' & Hin & He)]; [right; exists "udp"|by left|right; exists t'];
            (split; [|done]); apply elem_of_cons; auto.
        + intros [?|(t' & [->|Hin]%elem_of_cons & He)]; [by left; right| |right; by exists t'].
          left. left. by rewrite <- He. }
    destruct (t =? protoSCTP)%string eqn:E3; [|done].
    apply String.eqb_eq in E3. subst t.
    destruct allowSCTP; [|done]. cbn in H. apply IH in H as [Hall Hmem]. split.
    + constructor; [|done]. unfold validToken. auto.
    + intros p. rewrite Hmem, elem_of_union, elem_of_singleton. split.
      * intros [[->|?]|(t' & Hin & He)]; [right; exists "sctp"|by left|right; exists t'];
          (split; [|done]); apply elem_of_cons; auto.
      * intros [?|(t' & [->|Hin]%elem_of_cons & He)]; [by left; right| |right; by exists t'].
        left. left. by rewrite <- He.
Qed.

Lemma checkProtocolLoop_valid allowSCTP splitProto :
  Forall (validToken allowSCTP) splitProto ->
  forall acc, exists pset, checkProtocolLoop allowSCTP splitProto acc = inr pset.
Proof.
  induction 1 as [|t rest Ht Hrest IH]; intros acc; cbn; [by eexists|].
  destruct Ht as [->|[->|[->|[-> ->]]]]; cbn; apply IH.
Qed.

Lemma checkProtocolLoop_err allowSCTP splitProto :
  forall acc e,
  checkProtocolLoop allowSCTP splitProto acc = inl e ->
  exists pre t suf,
    splitProto = (pre ++ t :: suf)%list /\
    Forall (validToken allowSCTP) pre /\ ~ validToken allowSCTP t /\ e = tokenError t.
Proof.
  induction splitProto as [|t rest IH]; intros acc e H; cbn in H; [done|].
  assert (Hcons : forall acc',
            checkProtocolLoop allowSCTP rest acc' = inl e -> validToken allowSCTP t ->
            exists pre t' suf,
              t :: rest = (pre ++ t' :: suf)%list /\
              Forall (validToken allowSCTP) pre /\ ~ validToken allowSCTP t' /\
              e = tokenError t').
  { intros acc' H' Hv. apply IH in H' as (pre & t' & suf & -> & Hpre & Hbad & ->).
    exists (t :: pre), t', suf. split; [done|]. split; [by constructor|done]. }
  destruct ((t =? protoTCP)%string || (t =? "")%string) eqn:E1.
  { eapply Hcons; [exact H|].
    apply orb_true_iff in E1 as [E|E]; apply String.eqb_eq in E; subst;
      unfold validToken; auto. }
  apply orb_false_iff in E1 as [E1 E1'].
  apply String.eqb_neq in E1, E1'.
  destruct (t =? protoUDP)%string eqn:E2.
  { apply String.eqb_eq in E2. subst t. eapply Hcons; [exact H|]. unfold validToken. auto. }
  apply String.eqb_neq in E2.
  destruct (t =? protoSCTP)%string eqn:E3.
  - apply String.eqb_eq in E3. subst t. destruct allowSCTP; cbn in H.
    + eapply Hcons; [exact H|]. unfold validToken. auto.
    + simplify_eq. exists [], "sctp", rest. split; [done|]. split; [constructor|].
      split; [|done]. intros [?|[?|[?|[_ ?]]]]; done.
  - apply String.eqb_neq in E3. simplify_eq.
    exists [], t, rest. split; [done|]. split; [constructor|]. split.
    + intros [?|[?|[?|[? _]]]]; done.
    + unfold tokenError. destruct (String.eqb_spec t "sctp"); [done|done].
Qed.

(** ** Claims that are made again *)

Lemma tblGet_some t p ip k : tblGet t p ip k <> 0 ->
  portMap t p ip !! k = Some (tblGet t p ip k) /\
  ipMaps t p !! ip = Some (portMap t p ip) /\
  t !! p = Some (ipMaps t p).
Proof.
  intros Hnz. unfold tblGet in *.
  destruct (portMap t p ip !! k) as [v|] eqn:E1; [|done]. split; [done|].
  unfold portMap in *.
  destruct (ipMaps t p !! ip) as [m|] eqn:E2; [|cbn in E1; by rewrite lookup_empty in E1].
  split; [done|]. unfold ipMaps in *.
  destruct (t !! p) as [m'|] eqn:E3; [done|cbn in E2; by rewrite lookup_empty in E2].
Qed.

Lemma ensureIP_id t p ip k : tblGet t p ip k <> 0 -> ensureIP t p ip = t.
Proof.
  intros (_ & H & _)%tblGet_some. unfold ensureIP. by rewrite H.
Qed.

Lemma tblSet_id t p ip k v : v <> 0 -> tblGet t p ip k = v -> tblSet t p ip k v = t.
Proof.
  intros Hv Hget. assert (Hnz : tblGet t p ip k <> 0) by congruence.
  apply tblGet_some in Hnz as (H1 & H2 & H3). rewrite Hget in H1.
  unfold tblSet. rewrite (insert_id _ _ _ H1), (insert_id _ _ _ H2).
  by apply insert_id.
Qed.

Lemma mapPort_again port p ip containerPort hostPort index st :
  uint16 (containerPort + index) <> 0 -> uint16 (hostPort + index) <> 0 ->
  tblGet (containerPortValidate st) p ip (uint16 (containerPort + index))
    = uint16 (hostPort + index) ->
  tblGet (hostPortValidate st) p ip (uint16 (hostPort + index))
    = uint16 (containerPort + index) ->
  mapPort port p ip containerPort hostPort index st = inr st.
Proof.
  intros Hc Hh Hctr Hhost. unfold mapPort. rewrite Hctr, Hhost.
  destruct (Z.eqb_spec (uint16 (containerPort + index)) 0); [done|].
  destruct (Z.eqb_spec (uint16 (hostPort + index)) 0); [done|].
  rewrite !Z.eqb_refl. cbn.
  rewrite (tblSet_id _ _ _ _ _ Hh Hctr), (tblSet_id _ _ _ _ _ Hc Hhost).
  by destruct st.
Qed.

(** ** Claims that are kept *)

Lemma keeps_refl t : keeps t t.
Proof. by intros p ip k v. Qed.

Lemma keeps_trans t1 t2 t3 : keeps t1 t2 -> keeps t2 t3 -> keeps t1 t3.
Proof. intros H1 H2 p ip k v Hv Hg. apply H2; [done|]. by apply H1. Qed.

Lemma keeps_ensureIP t p ip : keeps t (ensureIP t p ip).
Proof. intros p' ip' k v _. by rewrite tblGet_ensureIP. Qed.

Lemma grows_refl st : grows st st.
Proof.
  split; [apply keeps_refl|]. split; [apply keeps_refl|]. exists []. by rewrite app_nil_r.
Qed.

Lemma grows_trans st1 st2 st3 : grows st1 st2 -> grows st2 st3 -> grows st1 st3.
Proof.
  intros (H1 & H2 & n1 & H3) (G1 & G2 & n2 & G3).
  split; [by eapply keeps_trans|]. split; [by eapply keeps_trans|].
  exists (n1 ++ n2)%list. by rewrite G3, H3, <- app_assoc.
Qed.

(** What a step of the loop over [index] that succeeds has done. *)
Lemma mapPort_ok port p ip containerPort hostPort index st st' :
  mapPort port p ip containerPort hostPort index st = inr st' ->
  let cPort := uint16 (containerPort + index) in
  let hPort := uint16 (hostPort + index) in
  cPort <> 0 /\ hPort <> 0 /\
  tblGet (containerPortValidate st') p ip cPort = hPort /\
  tblGet (hostPortValidate st') p ip hPort = cPort /\
  grows st st' /\
  (finalMappings st' = finalMappings st \/
   finalMappings st' =
     (finalMappings st ++ [cni hPort cPort p (specgen.HostIP port)])%list).
Proof.
  unfold mapPort. cbn zeta.
  set (c := uint16 (containerPort + index)). set (h := uint16 (hostPort + index)).
  pose proof (uint16_range (containerPort + index)) as Hcr. fold c in Hcr.
  pose proof (uint16_range (hostPort + index)) as Hhr. fold h in Hhr.
  destruct (Z.eqb_spec c 0) as [|Hc]; [done|]. destruct (Z.eqb_spec h 0) as [|Hh]; [done|].
  cbn [orb].
  set (testC := tblGet (containerPortValidate st) p ip c).
  set (testH := tblGet (hostPortValidate st) p ip h).
  destruct (Z.eqb_spec testC 0) as [EC0|EC0]; destruct (Z.eqb_spec testC h) as [ECh|ECh];
    cbn [negb andb]; try done;
    destruct (Z.eqb_spec testH 0) as [EH0|EH0]; destruct (Z.eqb_spec testH c) as [EHc|EHc];
    cbn [negb andb]; try done; try (exfalso; lia); intros [= <-];
    cbn [finalMappings containerPortValidate hostPortValidate].
  all: split; [done|]; split; [done|].
  all: split; [by rewrite tblGet_tblSet, decide_True|].
  all: split; [by rewrite tblGet_tblSet, decide_True|].
  all: split;
    [|first [by left | right; by rewrite (int32_small h), (int32_small c) by lia]].
  all: split; [|split].
  all: cbn [finalMappings containerPortValidate hostPortValidate].
  all: try (intros p' ip' k v Hv Hg; rewrite tblGet_tblSet; case_decide as Hd; [|done];
            destruct Hd as (-> & -> & ->);
            first [fold testC in Hg; lia | fold testH in Hg; lia]).
  all: first [by (exists []; rewrite app_nil_r) | by eexists].
Qed.

(** ** A range that passed the bounds checks *)

Lemma mapRange_ok port p ip containerPort hostPort len n :
  forall index st st',
  0 <= index -> index + Z.of_nat n <= len ->
  1 <= containerPort -> containerPort + len - 1 <= 65535 ->
  1 <= hostPort -> hostPort + len - 1 <= 65536 ->
  mapRange port p ip containerPort hostPort n index st = inr st' ->
  grows st st' /\
  (forall i, index <= i < index + Z.of_nat n ->
     hostPort + i <= 65535 /\
     tblGet (containerPortValidate st') p ip (containerPort + i) = hostPort + i /\
     tblGet (hostPortValidate st') p ip (hostPort + i) = containerPort + i) /\
  (forall m, m ∈ finalMappings st' ->
     m ∈ finalMappings st \/
     exists i, index <= i < index + Z.of_nat n /\
               m = cni (hostPort + i) (containerPort + i) p (specgen.HostIP port)).
Proof.
  induction n as [|n IH]; intros index st st' Hi Hn Hc Hcr Hh Hhr H; cbn in H.
  - simplify_eq. split; [apply grows_refl|]. split; [intros i ?; lia|]. intros m ?. by left.
  - destruct (mapPort _ _ _ _ _ _ _) as [e|st1] eqn:E; [done|].
    apply mapPort_ok in E as (Hc0 & Hh0 & Hg1 & Hg2 & Hgrow & Hfm). cbn zeta in *.
    rewrite (uint16_small (containerPort + index)) in * by lia.
    assert (Hhi : hostPort + index <= 65535).
    { destruct (decide (hostPort + index = 65536)) as [He|He]; [|lia].
      rewrite He in Hh0. done. }
    rewrite (uint16_small (hostPort + index)) in * by lia.
    rewrite uint16_small in H by lia.
    apply IH in H as (Hgrow' & Hclaims & Hsound); try lia.
    split; [by eapply grows_trans|]. split.
    + intros i Hir. destruct (decide (i = index)) as [->|Hne].
      * split; [done|]. destruct Hgrow' as (K1 & K2 & _).
        split; [apply K1; [lia|done]|apply K2; [lia|done]].
      * apply Hclaims. lia.
    + intros m Hm. destruct (Hsound m Hm) as [Hin|(i & Hir & ->)].
      * destruct Hfm as [Hfm|Hfm]; rewrite Hfm in Hin; [by left|].
        apply elem_of_app in Hin as [?|Hs%list_elem_of_singleton]; [by left|]. subst m.
        right. exists index. split; [lia|done].
      * right. exists i. split; [lia|done].
Qed.

Lemma mapRange_again port p ip containerPort hostPort n :
  forall index st,
  0 <= index -> 1 <= containerPort -> 1 <= hostPort ->
  containerPort + index + Z.of_nat n - 1 <= 65535 ->
  (forall i, index <= i < index + Z.of_nat n ->
     hostPort + i <= 65535 /\
     tblGet (containerPortValidate st) p ip (containerPort + i) = hostPort + i /\
     tblGet (hostPortValidate st) p ip (hostPort + i) = containerPort + i) ->
  mapRange port p ip containerPort hostPort n index st = inr st.
Proof.
  induction n as [|n IH]; intros index st Hi Hc Hh Hcr Hclaims; cbn; [done|].
  destruct (Hclaims index) as (Hhi & G1 & G2); [lia|].
  rewrite mapPort_again; rewrite ?(uint16_small (containerPort + index)),
    ?(uint16_small (hostPort + index)) by lia; try done; try lia.
  rewrite uint16_small by lia. apply IH; try lia. intros i Hir. apply Hclaims. lia.
Qed.

Lemma mapRange_fresh port p ip containerPort hostPort len n :
  forall index st,
  0 <= index -> index + Z.of_nat n <= len ->
  1 <= containerPort -> containerPort + len - 1 <= 65535 ->
  1 <= hostPort -> hostPort + len - 1 <= 65535 ->
  (forall k, containerPort + index <= k -> tblGet (containerPortValidate st) p ip k = 0) ->
  (forall k, hostPort + index <= k -> tblGet (hostPortValidate st) p ip k = 0) ->
  exists st',
    mapRange port p ip containerPort hostPort n index st = inr st' /\
    finalMappings st' =
      (finalMappings st ++ rangeMappings port p containerPort hostPort index n)%list /\
    (forall p' ip' k, p' <> p ->
       tblGet (containerPortValidate st') p' ip' k = tblGet (containerPortValidate st) p' ip' k /\
       tblGet (hostPortValidate st') p' ip' k = tblGet (hostPortValidate st) p' ip' k).
Proof.
  induction n as [|n IH]; intros index st Hi Hn Hc Hcr Hh Hhr Hcfree Hhfree.
  - exists st. cbn. unfold rangeMappings. cbn. by rewrite app_nil_r.
  - cbn [mapRange]. unfold mapPort.
    rewrite !(uint16_small (_ + index)) by lia.
    rewrite Hcfree, Hhfree by lia.
    destruct (Z.eqb_spec (containerPort + index) 0); [lia|].
    destruct (Z.eqb_spec (hostPort + index) 0); [lia|].
    destruct (Z.eqb_spec 0 (containerPort + index)); [lia|].
    destruct (Z.eqb_spec 0 (hostPort + index)); [lia|].
    cbn [negb andb orb Z.eqb]. rewrite uint16_small by lia.
    rewrite !int32_small by lia.
    edestruct (IH (index + 1)) as (st' & Hrun & Hfm & Hother); cycle -1.
    + exists st'. split; [exact Hrun|]. split.
      * rewrite Hfm. cbn [finalMappings]. rewrite <- app_assoc. f_equal.
        unfold rangeMappings. rewrite (seqZ_cons index) by lia. cbn.
        f_equal. f_equal. f_equal; lia.
      * intros p' ip' k Hp. destruct (Hother p' ip' k Hp) as [-> ->]. cbn.
        rewrite !tblGet_tblSet, !decide_False by (intros (? & _); congruence). done.
    + lia.
    + lia.
    + done.
    + done.
    + done.
    + done.
    + intros k Hk. cbn. rewrite tblGet_tblSet, decide_False by (intros (_ & _ & ?); lia).
      apply Hcfree. lia.
    + intros k Hk. cbn. rewrite tblGet_tblSet, decide_False by (intros (_ & _ & ?); lia).
      apply Hhfree. lia.
Qed.

(** ** The protocols of a request that passed the bounds checks *)

Lemma mapProtocols_ok port ip len containerPort hostPort protocols :
  forall st st',
  1 <= len -> 1 <= containerPort -> containerPort + len - 1 <= 65535 ->
  1 <= hostPort -> hostPort + len - 1 <= 65536 ->
  mapProtocols port ip len containerPort hostPort protocols st = inr st' ->
  grows st st' /\
  (forall p i, p ∈ protocols -> 0 <= i < len ->
     hostPort + i <= 65535 /\
     tblGet (containerPortValidate st') p ip (containerPort + i) = hostPort + i /\
     tblGet (hostPortValidate st') p ip (hostPort + i) = containerPort + i) /\
  (forall m, m ∈ finalMappings st' ->
     m ∈ finalMappings st \/
     exists p i, p ∈ protocols /\ 0 <= i < len /\
                 m = cni (hostPort + i) (containerPort + i) p (specgen.HostIP port)).
Proof.
  induction protocols as [|p rest IH]; intros st st' Hl Hc Hcr Hh Hhr H; cbn in H.
  - simplify_eq. split; [apply grows_refl|].
    split; [intros p i Hp; by apply elem_of_nil in Hp|]. intros m ?. by left.
  - destruct (mapRange _ _ _ _ _ _ _ _) as [e|st1] eqn:E; [done|].
    apply (mapRange_ok _ _ _ _ _ len) in E as (Hg1 & Hcl1 & Hs1); try lia.
    apply IH in H as (Hg2 & Hcl2 & Hs2); try lia.
    assert (Hg0 : grows st st1).
    { eapply grows_trans; [|exact Hg1]. split; [apply keeps_ensureIP|].
      split; [apply keeps_ensureIP|]. exists []. by rewrite app_nil_r. }
    split; [by eapply grows_trans|]. split.
    + intros q i [->|Hq]%elem_of_cons Hi; [|by apply Hcl2].
      destruct (Hcl1 i) as (Hhi & G1 & G2); [lia|]. split; [done|].
      destruct Hg2 as (K1 & K2 & _). split; [apply K1; [lia|done]|apply K2; [lia|done]].
    + intros m Hm. destruct (Hs2 m Hm) as [Hin|(q & i & Hq & Hi & ->)].
      * destruct (Hs1 m Hin) as [?|(i & Hi & ->)]; [by left|].
        right. exists p, i. split; [apply elem_of_cons; by left|]. split; [lia|done].
      * right. exists q, i. split; [apply elem_of_cons; by right|done].
Qed.

Lemma mapProtocols_again port ip len containerPort hostPort protocols :
  forall st,
  1 <= len -> 1 <= containerPort -> containerPort + len - 1 <= 65535 -> 1 <= hostPort ->
  (forall p i, p ∈ protocols -> 0 <= i < len ->
     hostPort + i <= 65535 /\
     tblGet (containerPortValidate st) p ip (containerPort + i) = hostPort + i /\
     tblGet (hostPortValidate st) p ip (hostPort + i) = containerPort + i) ->
  mapProtocols port ip len containerPort hostPort protocols st = inr st.
Proof.
  induction protocols as [|p rest IH]; intros st Hl Hc Hcr Hh Hclaims; cbn; [done|].
  destruct (Hclaims p 0) as (_ & G1 & G2); [apply elem_of_cons; by left|lia|].
  rewrite (ensureIP_id _ p ip (containerPort + 0)) by (rewrite G1; lia).
  rewrite (ensureIP_id _ p ip (hostPort + 0)) by (rewrite G2; lia).
  assert (Hst : mkPState (finalMappings st) (containerPortValidate st) (hostPortValidate st)
                = st) by (by destruct st).
  rewrite Hst. rewrite mapRange_again; try lia.
  - apply IH; try done. intros q i Hq. apply Hclaims. apply elem_of_cons. by right.
  - intros i Hi. apply Hclaims; [apply elem_of_cons; by left|lia].
Qed.

Lemma mapProtocols_fresh port ip len containerPort hostPort protocols :
  forall st,
  1 <= len -> 1 <= containerPort -> containerPort + len - 1 <= 65535 ->
  1 <= hostPort -> hostPort + len - 1 <= 65535 ->
  NoDup protocols ->
  (forall p k, p ∈ protocols ->
     tblGet (containerPortValidate st) p ip k = 0 /\ tblGet (hostPortValidate st) p ip k = 0) ->
  exists st',
    mapProtocols port ip len containerPort hostPort protocols st = inr st' /\
    finalMappings st' =
      (finalMappings st ++
       (protocols ≫= fun p =>
          rangeMappings port p containerPort hostPort 0 (Z.to_nat len)))%list.
Proof.
  induction protocols as [|p rest IH]; intros st Hl Hc Hcr Hh Hhr Hnd Hfree.
  - exists st. cbn. by rewrite app_nil_r.
  - apply NoDup_cons in Hnd as [Hp Hnd]. cbn [mapProtocols].
    edestruct (mapRange_fresh port p ip containerPort hostPort len (Z.to_nat len) 0)
      as (st1 & Hrun & Hfm & Hother); cycle -1.
    + rewrite Hrun. destruct (IH st1) as (st' & Hrun' & Hfm'); try done.
      * intros q k Hq. assert (q <> p) by congruence.
        destruct (Hother q ip k) as [-> ->]; [done|]. cbn.
        rewrite !tblGet_ensureIP. apply Hfree. apply elem_of_cons. by right.
      * exists st'. split; [done|]. rewrite Hfm', Hfm. cbn. by rewrite <- app_assoc.
    + lia.
    + lia.
    + done.
    + done.
    + done.
    + done.
    + intros k _. cbn. rewrite tblGet_ensureIP. apply Hfree. apply elem_of_cons. by left.
    + intros k _. cbn. rewrite tblGet_ensureIP. apply Hfree. apply elem_of_cons. by left.
Qed.

Lemma forEach_app {A S} (body : A -> S -> M S) xs ys st w :
  forEach body (xs ++ ys) st w = (forEach body xs st ≫= forEach body ys) w.
Proof.
  revert st w. induction xs as [|x xs IH]; intros st w; cbn; [done|].
  unfold mbind, M_bind, bind in *.
  destruct (body x st w) as [[s1|e|] w1]; [|done|done]. apply IH.
Qed.

Lemma forEach_fmap_ext {A S} (body : A -> S -> M S) (f : A -> A) xs :
  (forall x st w, body (f x) st w = body x st w) ->
  forall st w, forEach body (f <$> xs) st w = forEach body xs st w.
Proof.
  intros Hf. induction xs as [|x xs IH]; intros st w; cbn; [done|].
  unfold mbind, M_bind, bind. rewrite Hf.
  destruct (body x st w) as [[s1|e|] w1]; [|done|done]. apply IH.
Qed.

(** The loops read the host IP of the request and nothing else of it. *)
Lemma mapProtocols_hostIP port port' ip len containerPort hostPort protocols st :
  specgen.HostIP port = specgen.HostIP port' ->
  mapProtocols port ip len containerPort hostPort protocols st
    = mapProtocols port' ip len containerPort hostPort protocols st.
Proof.
  intros Hip.
  assert (Hport : forall p index s,
            mapPort port p ip containerPort hostPort index s
              = mapPort port' p ip containerPort hostPort index s)
    by (intros; unfold mapPort; by rewrite Hip).
  assert (Hrange : forall p n index s,
            mapRange port p ip containerPort hostPort n index s
              = mapRange port' p ip containerPort hostPort n index s).
  { intros p n. induction n as [|n IH]; intros index s; cbn; [done|].
    rewrite Hport. destruct (mapPort port' _ _ _ _ _ _); [done|apply IH]. }
  revert st. induction protocols as [|p rest IH]; intros st; cbn; [done|].
  rewrite Hrange. destruct (mapRange port' _ _ _ _ _ _ _); [done|apply IH].
Qed.

(** ** Declarations of the image that are refused *)

Lemma parseImageExpose_err imgExpose e :
  parseImageExpose imgExpose = inl e ->
  (exists cause, e = ExposeNotANumber imgExpose cause) \/
  (exists num, e = ExposeNotAPort num imgExpose /\ (65535 < num \/ num < 1)).
Proof.
  unfold parseImageExpose. destruct (Atoi _) as [cause|num]; [intros [= <-]; eauto|].
  destruct (Z.ltb_spec 65535 num); destruct (Z.ltb_spec num 1); cbn; intros [= <-];
    right; exists num; (split; [done|lia]).
Qed.

Section Further.
Context {R : Runtime}.

(** ** checkProtocol *)

(** X1: when [checkProtocol] succeeds every token of the specifier is one
    it accepts, and the list returned is not empty, has no duplicate and
    holds exactly the protocols the tokens stand for; it succeeds whenever
    every token is accepted. *)
Theorem checkProtocol_result protocol allowSCTP w :
  (forall ps w',
     checkProtocol protocol allowSCTP w = (Ok ps, w') ->
     Forall (validToken allowSCTP) (Split protocol ",") /\
     ps <> [] /\ NoDup ps /\
     forall p, p ∈ ps <-> exists t, t ∈ Split protocol "," /\ tokenProtocol t = p) /\
  (Forall (validToken allowSCTP) (Split protocol ",") ->
   exists ps, checkProtocol protocol allowSCTP w = (Ok ps, tick w)).
Proof.
  split.
  - intros ps w' H. pose proof (checkProtocol_nonempty _ _ _ _ _ H) as Hne.
    apply checkProtocol_ok_inv in H as (pset & Hloop & Hperm & _).
    apply checkProtocolLoop_ok in Hloop as [Hall Hmem].
    split; [done|]. split; [done|]. split.
    + rewrite Hperm. apply NoDup_elements.
    + intros p. rewrite Hperm, elem_of_elements, Hmem. split.
      * intros [Hp|?]; [by apply elem_of_empty in Hp|done].
      * intros ?. by right.
  - intros Hall. destruct (checkProtocolLoop_valid _ _ Hall ∅) as [pset Hloop].
    destruct (checkProtocol_loop_ok _ _ _ w Hloop) as (ps & H & _). by exists ps.
Qed.

(** X2: when [checkProtocol] fails, the error is the one of the first token
    it does not accept: the SCTP error for "sctp", the error naming the
    token for any other.  It never fails for want of a protocol. *)
Theorem checkProtocol_error protocol allowSCTP w e w' :
  checkProtocol protocol allowSCTP w = (Err e, w') ->
  e <> NoValidProtocols /\
  exists pre t suf,
    Split protocol "," = (pre ++ t :: suf)%list /\
    Forall (validToken allowSCTP) pre /\ ~ validToken allowSCTP t /\
    e = (if (t =? "sctp")%string then ProtocolNotAllowed else InvalidProtocol t).
Proof.
  intros H.
  destruct (checkProtocolLoop allowSCTP (Split protocol ",") ∅) as [e'|pset] eqn:E.
  - rewrite (checkProtocol_loop_err _ _ _ _ E) in H. simplify_eq.
    apply checkProtocolLoop_err in E as (pre & t & suf & Hs & Hpre & Hbad & ->).
    split; [unfold tokenError; by destruct (t =? "sctp")%string|].
    by exists pre, t, suf.
  - destruct (checkProtocol_loop_ok _ _ _ w E) as (ps & H' & _). congruence.
Qed.

(** ** parsePortMapping, request by request *)

Lemma checkProtocol_mem protocol allowSCTP w ps w' :
  checkProtocol protocol allowSCTP w = (Ok ps, w') ->
  NoDup ps /\
  forall p, p ∈ ps <-> exists t, t ∈ Split protocol "," /\ tokenProtocol t = p.
Proof.
  intros H. apply checkProtocol_ok_inv in H as (pset & Hloop & Hperm & _).
  apply checkProtocolLoop_ok in Hloop as [_ Hmem]. split.
  - rewrite Hperm. apply NoDup_elements.
  - intros p. rewrite Hperm, elem_of_elements, Hmem. split.
    + intros [Hp|?]; [by apply elem_of_empty in Hp|done].
    + intros ?. by right.
Qed.

(** What a request with [uint16] fields that was accepted went through,
    without the fixed-width arithmetic. *)
Lemma mapRequest_facts port st w st' w' :
  specgen.wf port ->
  mapRequest port st w = (Ok st', w') ->
  exists protocols,
    checkProtocol (specgen.Protocol port) true w = (Ok protocols, w') /\
    ParseIP (resolveIP (specgen.HostIP port)) = true /\
    1 <= rangeLen port /\
    1 <= specgen.ContainerPort port /\
    specgen.ContainerPort port + rangeLen port - 1 <= 65535 /\
    1 <= hostPortOf port /\
    hostPortOf port + rangeLen port - 1 <= 65536 /\
    mapProtocols port (resolveIP (specgen.HostIP port)) (rangeLen port)
      (specgen.ContainerPort port) (hostPortOf port) protocols st = inr st'.
Proof.
  intros Hw (protocols & Hchk & H)%mapRequest_ok. cbn zeta in H.
  fold (rangeLen port) (hostPortOf port) in H.
  destruct H as (Hip & Hc0 & Hb1 & Hb2 & Hrun).
  destruct (bounds_small _ Hw) as [E1 E2]. rewrite E1 in Hb1. rewrite E2 in Hb2.
  pose proof (rangeLen_bounds _ Hw). destruct Hw as (Hc & Hh & Hr).
  exists protocols. split; [done|]. split; [done|].
  assert (1 <= hostPortOf port)
    by (unfold hostPortOf; destruct (Z.eqb_spec (specgen.HostPort port) 0); lia).
  repeat split; try lia. done.
Qed.

Lemma mapRequest_grows port st w st' w' :
  specgen.wf port -> mapRequest port st w = (Ok st', w') -> grows st st'.
Proof.
  intros Hw (ps & _ & _ & Hl & Hc & Hcr & Hh & Hhr & Hrun)%mapRequest_facts; [|done].
  by apply mapProtocols_ok in Hrun as [? _].
Qed.

(** The claims of every request of a successful call are in the tables. *)
Lemma parse_claims portMappings w st w' port p i :
  parsePortMapping portMappings w = (Ok st, w') ->
  Forall specgen.wf portMappings ->
  port ∈ portMappings ->
  (exists t, t ∈ Split (specgen.Protocol port) "," /\ tokenProtocol t = p) ->
  0 <= i < rangeLen port ->
  1 <= specgen.ContainerPort port + i <= 65535 /\
  1 <= hostPortOf port + i <= 65535 /\
  tblGet (containerPortValidate st) p (resolveIP (specgen.HostIP port))
    (specgen.ContainerPort port + i) = hostPortOf port + i /\
  tblGet (hostPortValidate st) p (resolveIP (specgen.HostIP port))
    (hostPortOf port + i) = specgen.ContainerPort port + i.
Proof.
  intros Hparse Hwf Hin Htok Hi. unfold parsePortMapping in Hparse.
  assert (Hbody : forall y s w0 s' w0',
            y ∈ portMappings -> mapRequest y s w0 = (Ok s', w0') -> grows s s').
  { intros y s w0 s' w0' Hy. apply mapRequest_grows. by eapply Forall_forall in Hwf. }
  assert (Hreach : exists s1 w1 s2 w2,
            mapRequest port s1 w1 = (Ok s2, w2) /\ grows s2 st).
  { clear Htok Hi. revert Hparse. generalize (mkPState [] initTable initTable) as st0.
    revert w Hbody Hin. clear Hwf.
    induction portMappings as [|y ys IH]; intros w Hbody Hin st0 H;
      [by apply elem_of_nil in Hin|].
    cbn in H. apply bind_inv_ok in H as (s1 & w1 & H1 & H2).
    assert (Hrest : grows s1 st).
    { clear IH Hin H1. revert s1 w1 H2.
      induction ys as [|z zs IHz]; intros s1 w1 H2; cbn in H2.
      - unfold ret in H2. simplify_eq. apply grows_refl.
      - apply bind_inv_ok in H2 as (s2 & w2 & G1 & G2).
        eapply grows_trans; [eapply Hbody; [|exact G1]|].
        + apply elem_of_cons. right. apply elem_of_cons. by left.
        + eapply IHz; [|exact G2]. intros y' s w0 s' w0' Hy'. apply Hbody.
          apply elem_of_cons in Hy' as [->|Hy']; [apply elem_of_cons; by left|].
          apply elem_of_cons. right. apply elem_of_cons. by right. }
    apply elem_of_cons in Hin as [->|Hin].
    - by exists st0, w, s1, w1.
    - eapply (IH w1); [|done|exact H2]. intros y' s w0 s' w0' Hy'. apply Hbody.
      apply elem_of_cons. by right. }
  destruct Hreach as (s1 & w1 & s2 & w2 & Hreq & Hgrow).
  assert (Hw : specgen.wf port) by (by eapply Forall_forall in Hwf).
  apply mapRequest_facts in Hreq as (ps & Hchk & _ & Hl & Hc & Hcr & Hh & Hhr & Hrun);
    [|done].
  apply mapProtocols_ok in Hrun as (_ & Hclaims & _); try lia.
  apply checkProtocol_mem in Hchk as [_ Hmem].
  destruct (Hclaims p i) as (Hhi & G1 & G2); [by apply Hmem|done|].
  destruct Hgrow as (K1 & K2 & _).
  split; [lia|]. split; [lia|]. split; [apply K1; [lia|done]|apply K2; [lia|done]].
Qed.

(** X3: a successful call of [parsePortMapping] drops nothing: for every
    request of the list, every protocol its specifier stands for and every
    offset of its range, both tables hold the pair of container port and
    host port, and the finalized list holds a mapping for it. *)
Theorem every_request_is_mapped portMappings w st w' port p i :
  parsePortMapping portMappings w = (Ok st, w') ->
  Forall specgen.wf portMappings ->
  port ∈ portMappings ->
  (exists t, t ∈ Split (specgen.Protocol port) "," /\ tokenProtocol t = p) ->
  0 <= i < rangeLen port ->
  tblGet (containerPortValidate st) p (resolveIP (specgen.HostIP port))
    (specgen.ContainerPort port + i) = hostPortOf port + i /\
  tblGet (hostPortValidate st) p (resolveIP (specgen.HostIP port))
    (hostPortOf port + i) = specgen.ContainerPort port + i /\
  exists m, m ∈ finalMappings st /\
    ocicni.Protocol m = p /\
    resolveIP (ocicni.HostIP m) = resolveIP (specgen.HostIP port) /\
    ocicni.ContainerPort m = specgen.ContainerPort port + i /\
    ocicni.HostPort m = hostPortOf port + i.
Proof.
  intros Hparse Hwf Hin Htok Hi.
  destruct (parse_claims _ _ _ _ _ _ _ Hparse Hwf Hin Htok Hi) as (Hc & Hh & G1 & G2).
  split; [done|]. split; [done|].
  apply parsePortMapping_inv in Hparse as Hinv.
  destruct (inv_claims _ Hinv p (resolveIP (specgen.HostIP port))
              (specgen.ContainerPort port + i)) as (m & Hm & Hkey); [rewrite G1; lia|].
  injection Hkey as Hp Hip Hcp.
  exists m. split; [done|]. split; [done|]. split; [done|]. split; [done|].
  destruct (inv_entries _ Hinv m Hm) as (_ & _ & Hg).
  by rewrite Hp, Hip, Hcp, G1 in Hg.
Qed.

(** X4: a call of [parsePortMapping] that has two requests in conflict
    does not succeed: in a successful call, two requests that share a
    protocol and a resolved host IP map a common container port to one host
    port, and a common host port to one container port. *)
Theorem no_conflict_survives portMappings w st w' port1 port2 p i j :
  parsePortMapping portMappings w = (Ok st, w') ->
  Forall specgen.wf portMappings ->
  port1 ∈ portMappings -> port2 ∈ portMappings ->
  (exists t, t ∈ Split (specgen.Protocol port1) "," /\ tokenProtocol t = p) ->
  (exists t, t ∈ Split (specgen.Protocol port2) "," /\ tokenProtocol t = p) ->
  resolveIP (specgen.HostIP port1) = resolveIP (specgen.HostIP port2) ->
  0 <= i < rangeLen port1 -> 0 <= j < rangeLen port2 ->
  (specgen.ContainerPort port1 + i = specgen.ContainerPort port2 + j <->
   hostPortOf port1 + i = hostPortOf port2 + j).
Proof.
  intros Hparse Hwf Hin1 Hin2 Ht1 Ht2 Hip Hi Hj.
  destruct (parse_claims _ _ _ _ _ _ _ Hparse Hwf Hin1 Ht1 Hi) as (_ & _ & A1 & A2).
  destruct (parse_claims _ _ _ _ _ _ _ Hparse Hwf Hin2 Ht2 Hj) as (_ & _ & B1 & B2).
  rewrite Hip in A1, A2. split; intros E.
  - rewrite E in A1. congruence.
  - rewrite E in A2. congruence.
Qed.

(** X5: every finalized mapping of a successful call of [parsePortMapping]
    stands for an offset of the range of one of the requests, under a
    protocol of its specifier, and carries the host IP as that request
    gives it, the empty string included. *)
Theorem every_mapping_is_requested portMappings w st w' m :
  parsePortMapping portMappings w = (Ok st, w') ->
  Forall specgen.wf portMappings ->
  m ∈ finalMappings st ->
  exists port, port ∈ portMappings /\ mappingOf port m.
Proof.
  intros Hparse Hwf. revert m. unfold parsePortMapping in Hparse.
  refine (forEach_inv_split
            (fun pre s => forall m, m ∈ finalMappings s ->
                                    exists port, port ∈ pre /\ mappingOf port m)
            mapRequest portMappings _ _ _ _ _ _ Hparse).
  - intros pre port suf s w0 s' w0' Hsplit HP Hreq m Hm.
    assert (Hw : specgen.wf port).
    { eapply Forall_forall; [exact Hwf|]. rewrite Hsplit.
      apply elem_of_app. right. apply elem_of_cons. by left. }
    apply mapRequest_facts in Hreq as (ps & Hchk & _ & Hl & Hc & Hcr & Hh & Hhr & Hrun);
      [|done].
    apply mapProtocols_ok in Hrun as (_ & _ & Hsound); try lia.
    apply checkProtocol_mem in Hchk as [_ Hmem].
    destruct (Hsound m Hm) as [Hold|(p & i & Hp & Hi & ->)].
    + destruct (HP m Hold) as (port' & Hin' & Hof). exists port'.
      split; [apply elem_of_app; by left|done].
    + exists port. split; [apply elem_of_app; right; by apply list_elem_of_singleton|].
      exists i. split; [done|]. split; [done|]. split; [done|]. split; [done|].
      by apply Hmem.
  - intros m Hm. by apply elem_of_nil in Hm.
Qed.

(** X6: a request that repeats a request of an accepted list changes
    nothing: the call with the request appended succeeds with the same
    finalized mappings and the same tables. *)
Theorem repeated_request_changes_nothing portMappings w st w' port :
  parsePortMapping portMappings w = (Ok st, w') ->
  Forall specgen.wf portMappings ->
  port ∈ portMappings ->
  parsePortMapping (portMappings ++ [port]) w = (Ok st, tick w').
Proof.
  intros Hparse Hwf Hin.
  assert (Hw : specgen.wf port) by (by eapply Forall_forall in Hwf).
  assert (Hclaims := fun p i => parse_claims _ _ _ _ port p i Hparse Hwf Hin).
  unfold parsePortMapping in *. rewrite forEach_app. erewrite bind_ok by exact Hparse.
  destruct (forEach_reaches _ _ _ Hin _ _ _ _ Hparse) as (s1 & w1 & s2 & w2 & Hreq).
  apply mapRequest_ok in Hreq as Hchecks. destruct Hchecks as (ps0 & Hchk0 & Hchecks).
  cbn zeta in Hchecks. destruct Hchecks as (Hip & Hc0 & Hb1 & Hb2 & _).
  apply mapRequest_facts in Hreq as (_ & _ & _ & Hl & Hc & Hcr & Hh & Hhr & _); [|done].
  apply checkProtocol_ok_inv in Hchk0 as (pset & Hloop & _ & _).
  destruct (checkProtocol_loop_ok _ _ _ w' Hloop) as (ps & Hchk & Hperm).
  cbn [forEach]. erewrite bind_ok; [reflexivity|].
  unfold mapRequest. erewrite bind_ok by exact Hchk.
  fold (resolveIP (specgen.HostIP port)). rewrite Hip. cbn [negb].
  destruct (Z.eqb_spec (specgen.ContainerPort port) 0) as [|_]; [done|].
  apply Z.ltb_ge in Hb1, Hb2. rewrite Hb1, Hb2.
  fold (rangeLen port) (hostPortOf port).
  rewrite mapProtocols_again; try done.
  intros p i Hp Hi. apply checkProtocol_mem in Hchk as [_ Hmem].
  destruct (Hclaims p i) as (_ & Hhi & G1 & G2); [by apply Hmem|done|].
  split; [lia|done].
Qed.

(** X7: a request with [uint16] fields that passes the checks and whose
    host range ends at 65535 at most is accepted when it is alone, and
    yields, protocol by protocol in the order [checkProtocol] gives, the
    mappings of container port plus offset to host port plus offset for
    every offset of the range, with the host IP as the request gives it. *)
Theorem single_request_expansion port w protocols w1 :
  specgen.wf port ->
  checkProtocol (specgen.Protocol port) true w = (Ok protocols, w1) ->
  ParseIP (resolveIP (specgen.HostIP port)) = true ->
  specgen.ContainerPort port <> 0 ->
  specgen.ContainerPort port + rangeLen port - 1 <= 65535 ->
  hostPortOf port + rangeLen port - 1 <= 65535 ->
  exists st,
    parsePortMapping [port] w = (Ok st, w1) /\
    finalMappings st = requestMappings port protocols.
Proof.
  intros Hw Hchk Hip Hc0 Hcr Hhr.
  pose proof (rangeLen_bounds _ Hw) as Hl.
  destruct (bounds_small _ Hw) as [E1 E2].
  assert (Hc : 1 <= specgen.ContainerPort port) by (destruct Hw as (? & _); lia).
  assert (Hh : 1 <= hostPortOf port).
  { unfold hostPortOf. destruct Hw as (_ & ? & _).
    destruct (Z.eqb_spec (specgen.HostPort port) 0); lia. }
  destruct (mapProtocols_fresh port (resolveIP (specgen.HostIP port)) (rangeLen port)
              (specgen.ContainerPort port) (hostPortOf port) protocols
              (mkPState [] initTable initTable)) as (st & Hrun & Hfm); try lia.
  - by apply checkProtocol_mem in Hchk as [? _].
  - intros p k _. cbn. by rewrite !tblGet_initTable.
  - exists st. split; [|done].
    unfold parsePortMapping. cbn [forEach]. erewrite bind_ok; [reflexivity|].
    unfold mapRequest. erewrite bind_ok by exact Hchk.
    fold (resolveIP (specgen.HostIP port)) (rangeLen port) (hostPortOf port).
    rewrite Hip. cbn [negb].
    destruct (Z.eqb_spec (specgen.ContainerPort port) 0) as [|_]; [done|].
    rewrite E1, E2.
    destruct (Z.ltb_spec 65535 (rangeLen port - 1 + specgen.ContainerPort port)); [lia|].
    destruct (Z.ltb_spec 65536 (rangeLen port - 1 + hostPortOf port)); [lia|].
    by rewrite Hrun.
Qed.

(** X8: a request with the empty protocol specifier is treated as the same
    request with "tcp": replacing the empty specifiers of a list by "tcp"
    gives the same result, error or tables and mappings. *)
Theorem empty_protocol_is_tcp portMappings w :
  parsePortMapping (withDefaultProtocol <$> portMappings) w
    = parsePortMapping portMappings w.
Proof.
  unfold parsePortMapping. apply forEach_fmap_ext. clear w.
  intros port st w. unfold withDefaultProtocol.
  destruct (String.eqb_spec (specgen.Protocol port) "") as [E|E]; [|done].
  unfold mapRequest. cbn [specgen.Protocol specgen.HostIP specgen.Range
    specgen.ContainerPort specgen.HostPort]. rewrite E.
  assert (Hsame : checkProtocol "tcp" true w = checkProtocol "" true w) by reflexivity.
  unfold mbind, M_bind, bind. rewrite Hsame.
  destruct (checkProtocol "" true w) as [[ps|e|] w1]; [|done|done].
  cbv zeta.
  destruct (negb _); [done|].
  destruct (specgen.ContainerPort port =? 0); [done|].
  destruct (65535 <? _); [done|].
  destruct (65536 <? _); [done|].
  f_equal. apply mapProtocols_hostIP. done.
Qed.

(** ** createPortMappings: what is published *)

(** The stages of a successful call, with the reason why it went on to
    publish. *)
Lemma createPortMappings_ok_stages s img w fm w' :
  createPortMappings s img w = (Ok fm, w') ->
  exists parsed w1,
    parsePortMapping (PortMappings s) w = (Ok parsed, w1) /\
    ((fm = finalMappings parsed /\ w' = w1 /\
      (PublishExposedPorts s = false \/ (size (Expose s) = 0%nat /\ img = None))) \/
     (PublishExposedPorts s = true /\
      (size (Expose s) <> 0%nat \/ is_Some img) /\
      exists expose w2 toExpose ctr' w3 host',
        mergeExpose s img w1 = (Ok expose, w2) /\
        markExposed expose (containerPortValidate parsed) w2 = (Ok (toExpose, ctr'), w3) /\
        publishExposed toExpose (finalMappings parsed, hostPortValidate parsed) w3
          = (Ok (fm, host'), w'))).
Proof.
  unfold createPortMappings. intros (parsed & w1 & Hparse & H)%bind_inv_ok.
  exists parsed, w1. split; [done|].
  destruct (PublishExposedPorts s) eqn:Ep; cbn [negb orb] in H.
  - destruct (Nat.eqb_spec (size (Expose s)) 0) as [E0|E0]; cbn [andb] in H.
    + destruct img as [im|]; cbn in H.
      * right. split; [done|]. split; [right; by eexists|].
        apply bind_inv_ok in H as (expose & w2 & Hmerge & H).
        apply bind_inv_ok in H as ([toExpose ctr'] & w3 & Hmark & H).
        apply bind_inv_ok in H as ([fm' host'] & w4 & Hpub & H).
        unfold ret in H. simplify_eq. cbn. by exists expose, w2, toExpose, ctr', w3, host'.
      * left. unfold ret in H. simplify_eq. split; [done|]. split; [done|]. by right.
    + right. split; [done|]. split; [by left|].
      apply bind_inv_ok in H as (expose & w2 & Hmerge & H).
      apply bind_inv_ok in H as ([toExpose ctr'] & w3 & Hmark & H).
      apply bind_inv_ok in H as ([fm' host'] & w4 & Hpub & H).
      unfold ret in H. simplify_eq. cbn. by exists expose, w2, toExpose, ctr', w3, host'.
  - left. unfold ret in H. simplify_eq. split; [done|]. split; [done|]. by left.
Qed.

(** X9: the list a successful call of [createPortMappings] returns starts
    with the finalized mappings of [parsePortMapping], unchanged; every
    mapping after them was published: publishing is on, its host IP is
    empty, and its container port is a port of the merged expose set other
    than 0, its protocol one the specifier of that port stands for, and the
    container-to-host table has no claim for the pair under "0.0.0.0". *)
Theorem only_exposed_ports_are_published s img w fm w' :
  createPortMappings s img w = (Ok fm, w') ->
  exists parsed w1 news,
    parsePortMapping (PortMappings s) w = (Ok parsed, w1) /\
    fm = (finalMappings parsed ++ news)%list /\
    forall m, m ∈ news ->
      PublishExposedPorts s = true /\
      ocicni.HostIP m = "" /\
      exists expose w2 port proto,
        mergeExpose s img w1 = (Ok expose, w2) /\
        expose !! port = Some proto /\ port <> 0 /\
        ocicni.ContainerPort m = int32 port /\
        (exists t, t ∈ Split proto "," /\ tokenProtocol t = ocicni.Protocol m) /\
        tblGet (containerPortValidate parsed) (ocicni.Protocol m) "0.0.0.0" port = 0.
Proof.
  intros (parsed & w1 & Hparse & Hrest)%createPortMappings_ok_stages.
  exists parsed, w1.
  destruct Hrest as [(-> & _ & _)|(Hpub & _ & expose & w2 & toExpose & ctr' & w3 & host'
                                     & Hmerge & Hmark & Hpublish)].
  - exists []. rewrite app_nil_r. split; [done|]. split; [done|].
    intros m Hm. by apply elem_of_nil in Hm.
  - apply publishExposed_ok in Hpublish as (news & Hfm & Hall & _). cbn in Hfm.
    exists news. split; [done|]. split; [done|]. intros m Hm.
    eapply Forall_forall in Hall as (port & protos & p & Hl & Hp & Hport & Hproto & Hip);
      [|exact Hm].
    split; [done|]. split; [done|].
    apply markExposed_spec in Hmark as [Hmarked _]. specialize (Hmarked port).
    destruct (expose !! port) as [proto|] eqn:E; [|congruence].
    destruct Hmarked as (Hnz & pset & ps & Hloop & Hperm & Hdef).
    rewrite Hl in Hdef. cbn in Hdef. subst protos.
    apply list_elem_of_filter in Hp as [Hfree Hp].
    rewrite Hperm in Hp. apply elem_of_elements in Hp.
    apply checkProtocolLoop_ok in Hloop as [_ Hmem].
    exists expose, w2, port, proto. rewrite Hproto.
    split; [done|]. split; [done|]. split; [done|]. split; [done|]. split; [|done].
    apply Hmem in Hp as [Hp|Hp]; [by apply elem_of_empty in Hp|done].
Qed.

(** X10: a call of [createPortMappings] that publishes succeeds only when
    every entry of the merged expose set has a port other than 0 and a
    specifier made of the tokens "tcp", "udp" and the empty token. *)
Theorem published_expose_set_is_valid s img w fm w' :
  createPortMappings s img w = (Ok fm, w') ->
  PublishExposedPorts s = true ->
  size (Expose s) <> 0%nat \/ is_Some img ->
  exists parsed w1 expose w2,
    parsePortMapping (PortMappings s) w = (Ok parsed, w1) /\
    mergeExpose s img w1 = (Ok expose, w2) /\
    forall port proto, expose !! port = Some proto ->
      port <> 0 /\ Forall (validToken false) (Split proto ",").
Proof.
  intros (parsed & w1 & Hparse & Hrest)%createPortMappings_ok_stages Hpub Hsome.
  destruct Hrest as [(_ & _ & [Hoff|[Hsize Himg]])|(_ & _ & expose & w2 & toExpose & ctr'
                                                      & w3 & host' & Hmerge & Hmark & _)].
  - congruence.
  - destruct Hsome as [?|[? ?]]; [done|congruence].
  - exists parsed, w1, expose, w2. split; [done|]. split; [done|].
    intros port proto Hl. apply markExposed_spec in Hmark as [Hmarked _].
    specialize (Hmarked port). rewrite Hl in Hmarked.
    destruct Hmarked as (Hnz & pset & ps & Hloop & _). split; [done|].
    by apply checkProtocolLoop_ok in Hloop as [? _].
Qed.

(** ** createPortMappings: the image *)

Lemma forEach_addImageExpose_err declared :
  forall expose w d e,
  d ∈ declared -> parseImageExpose d = inl e ->
  exists d' e',
    d' ∈ declared /\ parseImageExpose d' = inl e' /\
    forEach addImageExpose declared expose w = (Err e', w).
Proof.
  induction declared as [|d0 declared IH]; intros expose w d e Hin Hp;
    [by apply elem_of_nil in Hin|].
  cbn [forEach]. destruct (parseImageExpose d0) as [e0|kv] eqn:E0.
  - exists d0, e0. split; [apply elem_of_cons; by left|]. split; [done|].
    apply bind_err. rewrite addImageExpose_eq, E0. done.
  - apply elem_of_cons in Hin as [->|Hin]; [congruence|].
    destruct (IH (setEntry expose kv) w d e Hin Hp) as (d' & e' & Hin' & Hp' & Hrun).
    exists d', e'. split; [apply elem_of_cons; by right|]. split; [done|].
    erewrite bind_ok; [exact Hrun|]. rewrite addImageExpose_eq, E0. done.
Qed.

(** X11: when the call goes on to publish, an image whose inspection fails
    makes it fail with that error, wrapped, and an image with a declaration
    that is refused, its port part not a number or not between 1 and 65535,
    makes it fail with the error of such a declaration, which names it. *)
Theorem image_errors_fail_the_call s im w parsed w1 :
  parsePortMapping (PortMappings s) w = (Ok parsed, w1) ->
  PublishExposedPorts s = true ->
  (forall err, InspectNoSize im = inl err ->
     createPortMappings s (Some im) w = (Err (InspectFailed err), tick w1)) /\
  (forall declaredSet d e,
     InspectNoSize im = inr declaredSet ->
     d ∈ declaredSet -> parseImageExpose d = inl e ->
     exists d' e',
       d' ∈ declaredSet /\ parseImageExpose d' = inl e' /\
       ((exists cause, e' = ExposeNotANumber d' cause) \/
        (exists num, e' = ExposeNotAPort num d' /\ (65535 < num \/ num < 1))) /\
       createPortMappings s (Some im) w = (Err e', tick (tick w1))).
Proof.
  intros Hparse Hpub.
  assert (Hgo : forall r,
            mergeExpose s (Some im) w1 = r ->
            forall e w', r = (Err e, w') ->
            createPortMappings s (Some im) w = (Err e, w')).
  { intros r Hr e w' ->. unfold createPortMappings.
    erewrite bind_ok by exact Hparse. rewrite Hpub. cbn [negb orb].
    rewrite bool_decide_eq_true_2 by (by eexists). cbn [negb]. rewrite andb_false_r.
    by apply bind_err. }
  split.
  - intros err Hi. eapply Hgo; [reflexivity|]. unfold mergeExpose.
    erewrite bind_ok by reflexivity. by rewrite Hi.
  - intros dset d e Hi Hin Hp.
    pose proof (orderStrings_perm (rangeCalls (tick w1)) (elements dset)) as Hperm.
    destruct (forEach_addImageExpose_err
                (orderStrings (rangeCalls (tick w1)) (elements dset))
                (foldl (fun m kv => <[kv.1 := kv.2]> m) (∅ : gmap Z string)
                   (orderExpose (rangeCalls w1) (map_to_list (Expose s))))
                (tick (tick w1)) d e) as (d' & e' & Hin' & Hp' & Hrun).
    + rewrite Hperm. by apply elem_of_elements.
    + done.
    + exists d', e'. rewrite Hperm in Hin'. apply elem_of_elements in Hin'.
      split; [done|]. split; [done|]. split; [by apply parseImageExpose_err|].
      eapply Hgo; [reflexivity|]. unfold mergeExpose.
      erewrite bind_ok by reflexivity. rewrite Hi.
      erewrite bind_ok by reflexivity. exact Hrun.
Qed.

(** ** createPortMappings: the calls of getRandomPort *)

Lemma surfaces_same {A} (m : M A) : sameProbes m -> probesSurface m.
Proof.
  intros Hs w r w' H. rewrite (Hs _ _ _ H). split; [done|]. intros n e Hn. lia.
Qed.

Lemma surfaces_bind {A B} (m : M A) (k : A -> M B) :
  probesSurface m -> (forall a, probesSurface (k a)) -> probesSurface (m ≫= k).
Proof.
  intros Hm Hk w r w' H. unfold mbind, M_bind, bind in H.
  destruct (m w) as [[a|e|] w1] eqn:E.
  - destruct (Hm _ _ _ E) as [Hle1 H1]. destruct (Hk a _ _ _ H) as [Hle2 H2].
    split; [lia|]. intros n e Hn He.
    destruct (decide (n < probeCalls w1)%nat) as [Hlt|Hge].
    + destruct (H1 n e) as [_ ?]; [lia|done|done].
    + apply H2; [lia|done].
  - simplify_eq. destruct (Hm _ _ _ E) as [Hle1 H1]. split; [done|].
    intros n e0 Hn He. destruct (H1 n e0 Hn He) as [? ?]. split; [done|congruence].
  - simplify_eq. destruct (Hm _ _ _ E) as [Hle1 H1]. split; [done|].
    intros n e0 Hn He. by destruct (H1 n e0 Hn He) as [? ?].
Qed.

Lemma surfaces_forEach {A S} (body : A -> S -> M S) xs :
  (forall x s, probesSurface (body x s)) -> forall st, probesSurface (forEach body xs st).
Proof.
  intros Hb. induction xs as [|x xs IH]; intros st; cbn.
  - apply surfaces_same, sameProbes_ret.
  - apply surfaces_bind; auto.
Qed.

Lemma surfaces_getRandomPort : probesSurface getRandomPort.
Proof.
  intros w r w' H. unfold getRandomPort in H. injection H as <- <-. cbn.
  split; [lia|]. intros n e Hn He. assert (n = probeCalls w) as -> by lia.
  rewrite He. done.
Qed.

Lemma surfaces_probeLoop fuel port p :
  forall hostPort tries st, probesSurface (probeLoop fuel port p hostPort tries st).
Proof.
  induction fuel as [|fuel IH]; intros hostPort tries st; cbn [probeLoop].
  - destruct (_ && _); apply surfaces_same; [|apply sameProbes_ret].
    intros w r w' H. by injection H as <- <-.
  - destruct (_ && _); [|apply surfaces_same, sameProbes_ret].
    apply surfaces_bind; [apply surfaces_getRandomPort|].
    intros c. destruct (negb _); apply IH.
Qed.

Lemma surfaces_createPortMappings s img : probesSurface (createPortMappings s img).
Proof.
  unfold createPortMappings.
  apply surfaces_bind; [apply surfaces_same, sameProbes_parsePortMapping|]. intros parsed.
  destruct (negb _ || _); [apply surfaces_same, sameProbes_ret|].
  apply surfaces_bind; [apply surfaces_same, sameProbes_mergeExpose|]. intros expose.
  apply surfaces_bind; [apply surfaces_same, sameProbes_markExposed|]. intros marked.
  apply surfaces_bind; [|intros; apply surfaces_same, sameProbes_ret].
  unfold publishExposed.
  apply surfaces_bind; [apply surfaces_same; intros w r w' H; by injection H as <- <-|].
  intros entries. apply surfaces_forEach. intros entry st. unfold publishPort.
  apply surfaces_forEach. intros p st'. unfold publishProtocol.
  apply surfaces_bind; [apply surfaces_probeLoop|]. intros r.
  destruct (_ && _); apply surfaces_same; [apply sameProbes_fail|apply sameProbes_ret].
Qed.

(** X12: an error of [getRandomPort] ends [createPortMappings] at once and
    is its error as it is: of the answers the call consumed only the last
    one can be an error, and the call then returns that error.  A call that
    succeeds was answered a port every time. *)
Theorem probe_error_ends_the_call s img w r w' :
  createPortMappings s img w = (r, w') ->
  (probeCalls w <= probeCalls w')%nat /\
  (forall n e, (probeCalls w <= n < probeCalls w')%nat -> randomPort n = inl e ->
     S n = probeCalls w' /\ r = Err e) /\
  (forall fm, r = Ok fm ->
     forall n, (probeCalls w <= n < probeCalls w')%nat -> exists c, randomPort n = inr c).
Proof.
  intros H. destruct (surfaces_createPortMappings s img _ _ _ H) as [Hle Hlast].
  split; [done|]. split; [done|]. intros fm -> n Hn.
  destruct (randomPort n) as [e|c] eqn:E; [|by exists c].
  by destruct (Hlast n e Hn E) as [_ ?].
Qed.

(** ** createPortMappings: free ports *)

Lemma forEach_pair {S} (f : Z -> string -> S -> M S) port protos :
  forall st w,
  forEach (fun pr => f pr.1 pr.2) (pair port <$> protos) st w = forEach (f port) protos st w.
Proof.
  induction protos as [|p protos IH]; intros st w; cbn; [done|].
  unfold mbind, M_bind, bind. destruct (f port p st w) as [[s1|e|] w1]; [|done|done].
  apply IH.
Qed.

(** The two loops of lines 248-295 are one loop over the pairs. *)
Lemma publishPort_flat entries :
  forall st w,
  forEach publishPort entries st w =
    forEach (fun pr => publishProtocol pr.1 pr.2) (pairsOf entries) st w.
Proof.
  induction entries as [|entry entries IH]; intros st w; [done|].
  replace (pairsOf (entry :: entries))
    with ((pair entry.1 <$> entry.2) ++ pairsOf entries)%list by done.
  rewrite forEach_app. cbn [forEach]. unfold mbind, M_bind, bind.
  rewrite forEach_pair. unfold publishPort at 1.
  destruct (forEach (publishProtocol entry.1) entry.2 st w) as [[s1|e|] w1]; [|done|done].
  apply IH.
Qed.

Lemma publishProtocol_free port p fm host w c :
  randomPort (probeCalls w) = inr c -> c <> 0 ->
  tblGet host p "0.0.0.0" (uint16 c) = 0 ->
  publishProtocol port p (fm, host) w =
    (Ok ((fm ++ [cni (int32 c) (int32 port) p ""])%list,
         tblSet (ensureIP host p "0.0.0.0") p "0.0.0.0" (uint16 c) port), probed w).
Proof.
  intros Hc Hnz Hfree. unfold publishProtocol, probeFuel.
  erewrite bind_ok.
  2:{ rewrite probeLoop_step by lia. rewrite Hc. cbn [fst snd].
      rewrite tblGet_ensureIP, Hfree. cbn [Z.eqb negb]. apply probeLoop_done. by left. }
  cbn [fst snd]. by destruct (Z.eqb_spec c 0).
Qed.

(** A claim of the host-to-container table has its finalized mapping. *)
Lemma host_claim_has_mapping st p ip h :
  parseInv st ->
  tblGet (hostPortValidate st) p ip h <> 0 ->
  exists m, m ∈ finalMappings st /\ hostKey m = (p, ip, h).
Proof.
  intros Hinv Hclaim.
  destruct (inv_host_nz _ Hinv p ip h _ (proj1 (tblGet_some _ _ _ _ Hclaim))) as [Hh _].
  destruct (inv_mirror _ Hinv) as [_ Hback].
  pose proof (Hback p ip _ h Hclaim eq_refl) as Hctr.
  destruct (inv_claims _ Hinv p ip (tblGet (hostPortValidate st) p ip h)) as (m & Hm & Hk);
    [congruence|].
  exists m. split; [done|]. injection Hk as H1 H2 H3.
  destruct (inv_entries _ Hinv m Hm) as (_ & _ & He).
  unfold hostKey. rewrite H1, H2. f_equal. rewrite <- He, H1, H2, H3. done.
Qed.

Lemma publish_free pairs :
  forall cs fm host w,
  length cs = length pairs ->
  (forall k c, cs !! k = Some c -> randomPort (probeCalls w + k) = inr c) ->
  Forall (fun c => c <> 0) cs ->
  NoDup (uint16 <$> cs) ->
  (forall c p, c ∈ cs -> tblGet host p "0.0.0.0" (uint16 c) = 0) ->
  exists host',
    forEach (fun pr => publishProtocol pr.1 pr.2) pairs (fm, host) w =
      (Ok ((fm ++ publishedMappings pairs cs)%list, host'),
       mkWorld (rangeCalls w) (probeCalls w + length pairs)).
Proof.
  induction pairs as [|[port p] pairs IH]; intros cs fm host w Hlen Hans Hnz Hnd Hfree.
  - destruct cs; [|done]. exists host. cbn. rewrite app_nil_r, Nat.add_0_r. by destruct w.
  - destruct cs as [|c cs]; [done|]. cbn [forEach fst snd].
    apply Forall_cons in Hnz as [Hc Hnz]. rewrite fmap_cons in Hnd.
    apply NoDup_cons in Hnd as [Hnotin Hnd].
    erewrite bind_ok.
    2:{ apply publishProtocol_free; [|done|].
        - specialize (Hans 0%nat c eq_refl). by rewrite Nat.add_0_r in Hans.
        - apply Hfree, elem_of_cons. by left. }
    destruct (IH cs (fm ++ [cni (int32 c) (int32 port) p ""])%list
                (tblSet (ensureIP host p "0.0.0.0") p "0.0.0.0" (uint16 c) port) (probed w))
      as (host' & Hrun).
    + by injection Hlen.
    + intros k c' Hk. specialize (Hans (S k) c' Hk). cbn.
      by replace (S (probeCalls w + k)) with (probeCalls w + S k)%nat by lia.
    + done.
    + done.
    + intros c' p' Hin. rewrite tblGet_tblSet, tblGet_ensureIP.
      destruct (decide _) as [(_ & _ & Heq)|_].
      * exfalso. apply Hnotin. rewrite Heq. apply list_elem_of_fmap. by exists c'.
      * apply Hfree, elem_of_cons. by right.
    + exists host'. rewrite Hrun. unfold publishedMappings. cbn [zip_with fst snd].
      rewrite <- app_assoc. cbn. do 2 f_equal. lia.
Qed.

(** X13: when the answers of [getRandomPort] are ports other than 0,
    different from each other as 16-bit numbers and without a claim in the
    host-to-container table under "0.0.0.0", the publication takes them in
    order, one call for each pair of container port and protocol to expose:
    the call returns the finalized mappings of the explicit requests and,
    after them, one mapping for each pair, with the answer as host port and
    an empty host IP. *)
Theorem free_answers_are_taken_in_order s img w parsed w1 expose w2 toExpose ctr' w3 cs :
  parsePortMapping (PortMappings s) w = (Ok parsed, w1) ->
  PublishExposedPorts s = true ->
  size (Expose s) <> 0%nat \/ is_Some img ->
  mergeExpose s img w1 = (Ok expose, w2) ->
  markExposed expose (containerPortValidate parsed) w2 = (Ok (toExpose, ctr'), w3) ->
  length cs = length (pairsOf (orderToExpose (rangeCalls w3) (map_to_list toExpose))) ->
  (forall k c, cs !! k = Some c -> randomPort (probeCalls w + k) = inr c) ->
  Forall (fun c => c <> 0) cs ->
  NoDup (uint16 <$> cs) ->
  (forall c p, c ∈ cs -> tblGet (hostPortValidate parsed) p "0.0.0.0" (uint16 c) = 0) ->
  createPortMappings s img w =
    (Ok (finalMappings parsed ++
         publishedMappings
           (pairsOf (orderToExpose (rangeCalls w3) (map_to_list toExpose))) cs)%list,
     mkWorld (S (rangeCalls w3)) (probeCalls w + length cs)).
Proof.
  intros Hparse Hpub Hsome Hmerge Hmark Hlen Hans Hnz Hnd Hfree.
  rewrite (createPortMappings_stages _ _ _ _ _ _ _ _ _ Hparse Hpub Hsome Hmerge Hmark).
  assert (Hw : probeCalls w3 = probeCalls w).
  { rewrite (sameProbes_markExposed _ _ _ _ _ Hmark).
    rewrite (sameProbes_mergeExpose _ _ _ _ _ Hmerge).
    by rewrite (sameProbes_parsePortMapping _ _ _ _ Hparse). }
  cbn [fst]. unfold publishExposed.
  destruct (publish_free
              (pairsOf (orderToExpose (rangeCalls w3) (map_to_list toExpose))) cs
              (finalMappings parsed) (hostPortValidate parsed) (tick w3))
    as (host' & Hrun); try done.
  { cbn. by rewrite Hw. }
  erewrite bind_ok.
  2:{ erewrite bind_ok by reflexivity. fold (tick w3). rewrite publishPort_flat. exact Hrun. }
  cbn. rewrite Hw, Hlen. done.
Qed.

(** ** createPortMappings: how many calls of getRandomPort *)

(** The loop of lines 256-289 for a container port other than 0: every
    call of [getRandomPort] uses up a try, ends the loop, or claims the
    host port 0, which happens once. *)
Lemma probeLoop_budget fuel port p :
  port <> 0 ->
  forall tries fm host w r w',
  0 <= tries ->
  probeLoop fuel port p 0 tries (fm, host) w = (r, w') ->
  (probeCalls w' <= probeCalls w + Z.to_nat tries +
     (if decide (tblGet host p "0.0.0.0" 0 = 0)%Z then 1 else 0))%nat /\
  (nonzeroProbes -> (probeCalls w' <= probeCalls w + Z.to_nat tries)%nat).
Proof.
  intros Hport. induction fuel as [|fuel IH]; intros tries fm host w r w' Ht H.
  - cbn in H. destruct (0 <? tries); cbn in H; injection H as <- <-; lia.
  - destruct (Z.ltb_spec 0 tries) as [Hpos|Hneg].
    2:{ rewrite probeLoop_done in H by lia. injection H as <- <-. lia. }
    rewrite probeLoop_step in H by done.
    destruct (randomPort (probeCalls w)) as [e|c] eqn:Ec.
    { injection H as <- <-. cbn. lia. }
    cbn [fst snd] in H. rewrite tblGet_ensureIP in H.
    destruct (Z.eqb_spec (tblGet host p "0.0.0.0" (uint16 c)) 0) as [E|E]; cbn [negb] in H.
    + destruct (decide (c = 0)) as [->|Hc].
      * change (uint16 0) with 0 in *.
        apply IH in H as [H1 _]; [|lia]. cbn in H1.
        assert (Hget : tblGet (tblSet (ensureIP host p "0.0.0.0") p "0.0.0.0" 0 port)
                         p "0.0.0.0" 0 = port)
          by (rewrite tblGet_tblSet; by rewrite decide_True).
        rewrite Hget in H1.
        rewrite decide_False in H1 by done. rewrite decide_True by done.
        split; [lia|]. intros Hnz. by destruct (Hnz _ _ Ec).
      * rewrite probeLoop_done in H by (by left). injection H as <- <-. cbn. lia.
    + apply IH in H as [H1 H2]; [|lia]. rewrite tblGet_ensureIP in H1. cbn in H1, H2.
      split; [|intros Hnz; specialize (H2 Hnz)]; lia.
Qed.

Lemma bind_world {A B} (m : M A) (k : A -> M B) w r w' :
  (forall a w0, exists r0, k a w0 = (r0, w0)) ->
  (m ≫= k) w = (r, w') -> exists r0, m w = (r0, w').
Proof.
  intros Hk. unfold mbind, M_bind, bind. destruct (m w) as [[a|e|] w1].
  - destruct (Hk a w1) as [r0 ->]. intros [= <- <-]. by eexists.
  - intros [= <- <-]. by eexists.
  - intros [= <- <-]. by eexists.
Qed.

Lemma publishProtocol_budget port p st w r w' :
  port <> 0 ->
  publishProtocol port p st w = (r, w') ->
  (probeCalls w' <= probeCalls w + 16)%nat /\
  (nonzeroProbes -> (probeCalls w' <= probeCalls w + 15)%nat).
Proof.
  intros Hport. unfold publishProtocol. intros H. destruct st as [fm host].
  apply bind_world in H as [r0 E].
  2:{ intros a w0. destruct (_ && _); by eexists. }
  apply probeLoop_budget in E as [H1 H2]; [|done|lia].
  split; [|intros Hnz; specialize (H2 Hnz); lia].
  destruct (decide _); lia.
Qed.

Lemma forEach_budget {A S} (body : A -> S -> M S) (P : A -> Prop) (b : nat) xs :
  (forall x s w r w', P x -> body x s w = (r, w') ->
     (probeCalls w' <= probeCalls w + b)%nat) ->
  Forall P xs ->
  forall st w r w', forEach body xs st w = (r, w') ->
  (probeCalls w' <= probeCalls w + b * length xs)%nat.
Proof.
  intros Hb. induction 1 as [|x xs Hx Hxs IH]; intros st w r w' H; cbn in H.
  - injection H as <- <-. lia.
  - unfold mbind, M_bind, bind in H.
    destruct (body x st w) as [r0 w1] eqn:E. apply Hb in E; [|done].
    destruct r0 as [s1|e|].
    + apply IH in H. cbn [length]. lia.
    + injection H as <- <-. cbn [length]. lia.
    + injection H as <- <-. cbn [length]. lia.
Qed.

Lemma pairsOf_length entries n :
  Forall (fun entry => (length entry.2 <= n)%nat) entries ->
  (length (pairsOf entries) <= n * length entries)%nat.
Proof.
  induction 1 as [|entry entries He Hall IH]; [cbn; lia|].
  replace (pairsOf (entry :: entries))
    with ((pair entry.1 <$> entry.2) ++ pairsOf entries)%list by done.
  rewrite length_app, length_fmap. cbn [length]. lia.
Qed.

(** A specifier of an exposed port stands for tcp, udp or both. *)
Lemma checkProtocolLoop_exposed splitProto pset :
  checkProtocolLoop false splitProto ∅ = inr pset -> (size pset <= 2)%nat.
Proof.
  intros [Hall Hmem]%checkProtocolLoop_ok.
  assert (Hsub : pset ⊆ {[ "tcp"; "udp" ]}).
  { intros p [Hp|(t & Ht & <-)]%Hmem; [by apply elem_of_empty in Hp|].
    eapply Forall_forall in Hall; [|exact Ht].
    destruct Hall as [->|[->|[->|[_ ?]]]]; [set_solver|set_solver|set_solver|done]. }
  apply subseteq_size in Hsub. etrans; [exact Hsub|].
  rewrite size_union_alt. rewrite !size_singleton.
  pose proof (subseteq_size ({[ "udp" ]} ∖ {[ "tcp" ]}) ({[ "udp" ]} : gset string)) as Hd.
  rewrite size_singleton in Hd. specialize (Hd ltac:(set_solver)). lia.
Qed.

Lemma size_foldl_setEntry kvs :
  forall m : gmap Z string, (size (foldl setEntry m kvs) <= size m + length kvs)%nat.
Proof.
  induction kvs as [|kv kvs IH]; intros m; cbn [foldl length]; [lia|].
  etrans; [apply IH|]. unfold setEntry. rewrite map_size_insert.
  destruct (m !! kv.1); cbn; lia.
Qed.

Lemma mergeExpose_size s img w expose w' :
  mergeExpose s img w = (Ok expose, w') ->
  (size expose <= size (Expose s) + declaredCount img)%nat.
Proof.
  intros Hmerge%mergeExpose_spec. destruct img as [im|]; [|subst; cbn; lia].
  destruct Hmerge as (dset & declared & kvs & Hi & Hperm & Hall & ->).
  cbn. rewrite Hi. etrans; [apply size_foldl_setEntry|].
  apply Forall2_length in Hall. apply Permutation_length in Hperm.
  assert (length (elements dset) = size dset) by done. lia.
Qed.

(** What the marking leaves to publish: pairs with a port other than 0, at
    most two for every port of the expose set. *)
Lemma markedFor_pairs expose ctr toExpose entries :
  markedFor expose ctr toExpose ->
  entries ≡ₚ map_to_list toExpose ->
  Forall (fun pr : Z * string => pr.1 <> 0) (pairsOf entries) /\
  (length (pairsOf entries) <= 2 * size expose)%nat.
Proof.
  intros Hm Hperm.
  assert (Hentry : forall port protos, (port, protos) ∈ entries ->
            port <> 0 /\ (length protos <= 2)%nat /\ is_Some (expose !! port)).
  { intros port protos Hin. rewrite Hperm in Hin. apply elem_of_map_to_list in Hin.
    specialize (Hm port). destruct (expose !! port) as [proto|]; [|congruence].
    destruct Hm as (Hnz & pset & ps & Hloop & Hps & Hdef).
    rewrite Hin in Hdef. cbn in Hdef. subst protos.
    split; [done|]. split; [|by eexists].
    etrans; [apply length_filter|]. apply Permutation_length in Hps. rewrite Hps.
    by apply checkProtocolLoop_exposed in Hloop. }
  split.
  - apply Forall_forall. intros [port p] ([port' protos] & Hp & Hin)%list_elem_of_bind.
    apply list_elem_of_fmap in Hp as (p' & [= -> ->] & _). cbn.
    by destruct (Hentry _ _ Hin).
  - etrans; [apply (pairsOf_length entries 2)|].
    + apply Forall_forall. intros [port protos] Hin. by destruct (Hentry _ _ Hin) as (_ & ? & _).
    + apply Permutation_length in Hperm. rewrite Hperm.
      rewrite length_map_to_list.
      rewrite <- (size_dom (D := gset Z) toExpose), <- (size_dom (D := gset Z) expose).
      apply Nat.mul_le_mono_l, subseteq_size. intros port [protos Hl]%elem_of_dom.
      apply elem_of_dom. specialize (Hm port).
      destruct (expose !! port); [by eexists|congruence].
Qed.

(** A call either makes no call of [getRandomPort] or reaches the loop over
    the pairs to publish. *)
Lemma createPortMappings_outcome s img w r w' :
  createPortMappings s img w = (r, w') ->
  probeCalls w' = probeCalls w \/
  exists parsed w1 expose w2 toExpose ctr' w3 r0,
    parsePortMapping (PortMappings s) w = (Ok parsed, w1) /\
    mergeExpose s img w1 = (Ok expose, w2) /\
    markExposed expose (containerPortValidate parsed) w2 = (Ok (toExpose, ctr'), w3) /\
    probeCalls w3 = probeCalls w /\
    forEach (fun pr => publishProtocol pr.1 pr.2)
      (pairsOf (orderToExpose (rangeCalls w3) (map_to_list toExpose)))
      (finalMappings parsed, hostPortValidate parsed) (tick w3) = (r0, w').
Proof.
  unfold createPortMappings, mbind, M_bind, bind. intros H.
  destruct (parsePortMapping (PortMappings s) w) as [r1 w1] eqn:E1.
  pose proof (sameProbes_parsePortMapping _ _ _ _ E1) as P1.
  destruct r1 as [parsed|e|]; [|left; by injection H as <- <-..].
  destruct (negb _ || _); [left; by injection H as <- <-|].
  destruct (mergeExpose s img w1) as [r2 w2] eqn:E2.
  pose proof (sameProbes_mergeExpose _ _ _ _ _ E2) as P2.
  destruct r2 as [expose|e|]; [|left; injection H as <- <-; congruence..].
  destruct (markExposed expose (containerPortValidate parsed) w2) as [r3 w3] eqn:E3.
  pose proof (sameProbes_markExposed _ _ _ _ _ E3) as P3.
  destruct r3 as [[toExpose ctr']|e|]; [|left; injection H as <- <-; congruence..].
  right. cbn [fst] in H. unfold publishExposed, mbind, M_bind, bind, rangeToExpose in H.
  fold (tick w3) in H. rewrite publishPort_flat in H.
  destruct (forEach _ _ _ (tick w3)) as [r4 w4] eqn:E4.
  assert (w' = w4) as -> by (destruct r4; by injection H).
  exists parsed, w1, expose, w2, toExpose, ctr', w3, r4.
  split; [done|]. split; [done|]. split; [done|]. split; [congruence|done].
Qed.

(** X14: [createPortMappings] always returns, a list or an error, and it
    calls [getRandomPort] at most 32 times for each entry of [s.Expose] and
    each declaration of the image: a port is published under at most two
    protocols, and each takes at most 16 calls, 15 when [getRandomPort]
    never answers 0. *)
Theorem probes_are_bounded s img w r w' :
  createPortMappings s img w = (r, w') ->
  r <> Diverge /\
  (probeCalls w' <= probeCalls w + 32 * (size (Expose s) + declaredCount img))%nat /\
  (nonzeroProbes ->
   (probeCalls w' <= probeCalls w + 30 * (size (Expose s) + declaredCount img))%nat).
Proof.
  intros H. split.
  { pose proof (createPortMappings_converges s img w) as Hc. by rewrite H in Hc. }
  apply createPortMappings_outcome in H
    as [->|(parsed & w1 & expose & w2 & toExpose & ctr' & w3 & r0
            & Hparse & Hmerge & Hmark & Hw & Hrun)]; [lia|].
  apply mergeExpose_size in Hmerge. apply markExposed_spec in Hmark as [Hmarked _].
  destruct (markedFor_pairs _ _ _ _ Hmarked
              (orderToExpose_perm (rangeCalls w3) (map_to_list toExpose))) as [Hnz Hlen].
  split; [|intros Hnonzero].
  - eapply (forEach_budget _ (fun pr : Z * string => pr.1 <> 0) 16) in Hrun.
    + cbn in Hrun. lia.
    + intros [port p] st w0 r1 w0' Hp Hbody.
      by apply publishProtocol_budget in Hbody as [? _].
    + exact Hnz.
  - eapply (forEach_budget _ (fun pr : Z * string => pr.1 <> 0) 15) in Hrun.
    + cbn in Hrun. lia.
    + intros [port p] st w0 r1 w0' Hp Hbody.
      apply publishProtocol_budget in Hbody as [_ Hb]; [by apply Hb|done].
    + exact Hnz.
Qed.

End Further.

(** ** The cgroup of a process *)

Lemma HasPrefix_spec prefix :
  forall s, utils.HasPrefix s prefix = true <-> exists t, s = String.append prefix t.
Proof.
  unfold utils.HasPrefix. induction prefix as [|a prefix IH]; intros s.
  - split; [intros _; by exists s|by destruct s].
  - destruct s as [|b s]; cbn; [split; [done|intros [t Ht]; cbn in Ht; done]|].
    destruct (ascii_dec a b) as [->|Hne].
    + rewrite IH. split.
      * intros [t ->]. by exists t.
      * intros [t Ht]. cbn in Ht. injection Ht as ->. by exists t.
    + split; [done|]. intros [t Ht]. cbn in Ht. by injection Ht as Hb _.
Qed.

Lemma sliceFrom_3 line cgroup :
  utils.HasPrefix line "0::" = true ->
  (utils.sliceFrom 3 line = Some cgroup <-> line = String.append "0::" cgroup).
Proof.
  intros [t ->]%HasPrefix_spec. cbn. split; intros H; by simplify_eq/=.
Qed.

Lemma scanv2_spec lines :
  forall cgroup, cgroup <> "" ->
  (utils.scanv2 lines = Some cgroup <->
   exists pre rest,
     lines = (pre ++ String.append "0::" cgroup :: rest)%list /\
     Forall (fun line => utils.HasPrefix line "0::" = false) pre).
Proof.
  induction lines as [|line lines IH]; intros cgroup Hne; cbn.
  - split; [intros [= <-]; done|]. intros (pre & rest & Heq & _). by destruct pre.
  - destruct (utils.HasPrefix line "0::") eqn:E.
    + rewrite (sliceFrom_3 _ _ E). split.
      * intros ->. by exists [], lines.
      * intros (pre & rest & Heq & Hall). destruct pre as [|l pre]; [by injection Heq|].
        injection Heq as <- _. apply Forall_cons in Hall as [Hl _]. congruence.
    + rewrite (IH _ Hne). split.
      * intros (pre & rest & -> & Hall). exists (line :: pre), rest. split; [done|].
        by constructor.
      * intros (pre & rest & Heq & Hall). destruct pre as [|l pre].
        -- injection Heq as -> _. assert (utils.HasPrefix (String.append "0::" cgroup) "0::" = true)
             by (apply HasPrefix_spec; by eexists). congruence.
        -- injection Heq as <- ->. apply Forall_cons in Hall as [_ Hall]. by exists pre, rest.
Qed.

Lemma scanv2_total lines : utils.scanv2 lines <> None.
Proof.
  induction lines as [|line lines IH]; cbn; [done|].
  destruct (utils.HasPrefix line "0::") eqn:E; [|done].
  by apply HasPrefix_spec in E as [t ->].
Qed.

Lemma scan_unified lines : utils.scan true lines = utils.scanv2 lines.
Proof.
  induction lines as [|line lines IH]; cbn; [done|].
  by destruct (utils.HasPrefix line "0::").
Qed.

Lemma sliceFrom_7 c tail cgroup :
  utils.HasPrefix tail ":pids:" = true ->
  (utils.sliceFrom 7 (String c tail) = Some cgroup <->
   String c tail = String c (String.append ":pids:" cgroup)).
Proof.
  intros [t ->]%HasPrefix_spec. cbn. split; intros H; by simplify_eq/=.
Qed.

Lemma scan_v1_spec lines :
  (forall cgroup, cgroup <> "" ->
     (utils.scan false lines = Some cgroup <->
      exists pre c rest,
        lines = (pre ++ String c (String.append ":pids:" cgroup) :: rest)%list /\
        Forall utils.passedOver pre)) /\
  (utils.scan false lines = None <->
   exists pre rest, lines = (pre ++ "" :: rest)%list /\ Forall utils.passedOver pre).
Proof.
  induction lines as [|line lines [IHr IHp]]; cbn [utils.scan andb negb].
  { split; [intros cgroup Hne|].
    - split; [intros [= <-]; done|]. intros (pre & c & rest & Heq & _). by destruct pre.
    - split; [done|]. intros (pre & rest & Heq & _). by destruct pre. }
  destruct line as [|c tail]; cbn [utils.sliceFrom].
  { split; [intros cgroup Hne|].
    - split; [done|]. intros (pre & c & rest & Heq & Hall).
      destruct pre as [|l pre]; [done|]. injection Heq as <- _.
      apply Forall_cons in Hall as [(? & ? & ? & _) _]. done.
    - split; [intros _; by exists [], lines|done]. }
  destruct (utils.HasPrefix tail ":pids:") eqn:E.
  - split; [intros cgroup Hne|].
    + change (utils.sliceFrom 6 tail) with (utils.sliceFrom 7 (String c tail)).
      rewrite (sliceFrom_7 c tail cgroup E). split.
      * intros ->. by exists [], c, lines.
      * intros (pre & c' & rest & Heq & Hall). destruct pre as [|l pre]; [by injection Heq as -> ->|].
        injection Heq as <- _. apply Forall_cons in Hall as [(c0 & t0 & [= <- <-] & Hno) _].
        congruence.
    + apply HasPrefix_spec in E as [t ->]. cbn [String.append utils.sliceFrom].
      split; [done|]. intros (pre & rest & Heq & Hall). destruct pre as [|l pre]; [done|].
      injection Heq as <- _. apply Forall_cons in Hall as [(c0 & t0 & [= <- <-] & Hno) _].
      assert (utils.HasPrefix (String.append ":pids:" t) ":pids:" = true)
        by (apply HasPrefix_spec; by eexists). congruence.
  - assert (Hpass : utils.passedOver (String c tail)) by (by exists c, tail).
    split; [intros cgroup Hne; rewrite (IHr _ Hne)|rewrite IHp].
    + split.
      * intros (pre & c' & rest & -> & Hall). exists (String c tail :: pre), c', rest.
        split; [done|]. by constructor.
      * intros (pre & c' & rest & Heq & Hall). destruct pre as [|l pre].
        -- injection Heq as -> -> _.
           assert (utils.HasPrefix (String.append ":pids:" cgroup) ":pids:" = true)
             by (apply HasPrefix_spec; by eexists). congruence.
        -- injection Heq as <- ->. apply Forall_cons in Hall as [_ Hall].
           by exists pre, c', rest.
    + split.
      * intros (pre & rest & -> & Hall). exists (String c tail :: pre), rest.
        split; [done|]. by constructor.
      * intros (pre & rest & Heq & Hall). destruct pre as [|l pre]; [done|].
        injection Heq as <- ->. apply Forall_cons in Hall as [_ Hall]. by exists pre, rest.
Qed.

(** X15: [GetPidCgroupv2] never panics, and it returns a cgroup exactly
    when the host is in unified mode, the cgroup file of the process can
    be opened, and the first of its lines that starts with "0::" has more
    bytes after that prefix: those bytes are the cgroup.  A first such line
    that is just "0::" ends the search without a cgroup, whatever the lines
    after it. *)
Theorem GetPidCgroupv2_first_unified_line sys pid :
  utils.GetPidCgroupv2 sys pid <> utils.Panic /\
  (forall cgroup,
     utils.GetPidCgroupv2 sys pid = utils.Return cgroup <->
     utils.IsCgroup2UnifiedMode sys = inr true /\ cgroup <> "" /\
     exists pre rest,
       utils.Open sys (utils.procFile (utils.target sys pid))
         = inr (pre ++ String.append "0::" cgroup :: rest)%list /\
       Forall (fun line => utils.HasPrefix line "0::" = false) pre) /\
  (forall pre rest,
     utils.IsCgroup2UnifiedMode sys = inr true ->
     utils.Open sys (utils.procFile (utils.target sys pid)) = inr (pre ++ "0::" :: rest)%list ->
     Forall (fun line => utils.HasPrefix line "0::" = false) pre ->
     utils.GetPidCgroupv2 sys pid
       = utils.Fail (utils.NoCgroupMount (utils.procFile (utils.target sys pid)))).
Proof.
  unfold utils.GetPidCgroupv2. fold (utils.target sys pid).
  destruct (utils.IsCgroup2UnifiedMode sys) as [err|[|]]; cbn [negb].
  2:destruct (utils.Open sys (utils.procFile (utils.target sys pid))) as [err|lines].
  - split; [done|]. split; [|done]. intros cgroup. split; [done|]. by intros [? _].
  - split; [done|]. split; [|done]. intros cgroup. split; [done|].
    intros (_ & _ & pre & rest & ? & _). done.
  - pose proof (scanv2_total lines) as Htot.
    destruct (utils.scanv2 lines) as [c|] eqn:Es; [|done].
    destruct (String.eqb_spec c "") as [->|Hne].
    + split; [done|]. split; [|done]. intros cgroup. split; [done|].
      intros (_ & Hc & pre & rest & [= ->] & Hall).
      assert (utils.scanv2 (pre ++ String.append "0::" cgroup :: rest) = Some cgroup)
        by (apply scanv2_spec; [done|by exists pre, rest]).
      congruence.
    + split; [done|]. split.
      * intros cgroup. split.
        -- intros [= <-]. split; [done|]. split; [done|].
           apply scanv2_spec in Es as (pre & rest & -> & Hall); [|done]. by exists pre, rest.
        -- intros (_ & Hc & pre & rest & [= ->] & Hall).
           assert (utils.scanv2 (pre ++ String.append "0::" cgroup :: rest) = Some cgroup)
             by (apply scanv2_spec; [done|by exists pre, rest]).
           congruence.
      * intros pre rest _ [= ->] Hall. exfalso. revert Es. clear -Hall Hne.
        induction Hall as [|l pre Hl Hall IH]; cbn; [by intros [= <-]|]. by rewrite Hl.
  - split; [done|]. split; [|done]. intros cgroup. split; [done|]. by intros [? _].
Qed.

(** X16: on a host that is not in unified mode [GetPidCgroup] looks for
    the first line whose bytes from the second on start with ":pids:" and
    returns what follows that prefix, when it is not empty.  A line whose
    second byte is not ':' is passed over, so the pids line is only found
    when its hierarchy number has one digit; and an empty line met before
    the pids line makes the call panic, at the slice [line[1:]]. *)
Theorem GetPidCgroup_v1_pids_line sys pid lines :
  utils.IsCgroup2UnifiedMode sys = inr false ->
  utils.Open sys (utils.procFile (utils.target sys pid)) = inr lines ->
  (forall cgroup,
     utils.GetPidCgroup sys pid = utils.Return cgroup <->
     cgroup <> "" /\
     exists pre c rest,
       lines = (pre ++ String c (String.append ":pids:" cgroup) :: rest)%list /\
       Forall utils.passedOver pre) /\
  (utils.GetPidCgroup sys pid = utils.Panic <->
   exists pre rest, lines = (pre ++ "" :: rest)%list /\ Forall utils.passedOver pre) /\
  (forall c1 c2 tail, c2 <> ":"%char -> utils.passedOver (String c1 (String c2 tail))).
Proof.
  intros Hmode Hopen. unfold utils.GetPidCgroup. fold (utils.target sys pid).
  rewrite Hmode, Hopen. destruct (scan_v1_spec lines) as [Hr Hp].
  split; [|split].
  - intros cgroup. destruct (utils.scan false lines) as [c|] eqn:Es.
    + destruct (String.eqb_spec c "") as [->|Hne].
      * split; [done|]. intros [Hc Hex]. apply (Hr _ Hc) in Hex. congruence.
      * split.
        -- intros [= <-]. split; [done|]. by apply Hr.
        -- intros [Hc Hex]. apply (Hr _ Hc) in Hex. congruence.
    + split; [done|]. intros [Hc Hex]. apply (Hr _ Hc) in Hex. congruence.
  - rewrite <- Hp. destruct (utils.scan false lines) as [c|]; [|done].
    by destruct (c =? "")%string.
  - intros c1 c2 tail Hc. exists c1, (String c2 tail). split; [done|].
    unfold utils.HasPrefix. cbn [String.prefix].
    destruct (ascii_dec _ c2) as [Heq|]; [by subst|done].
Qed.

(** X17: on a host in unified mode, or whose mode cannot be told,
    [GetPidCgroup] and [GetPidCgroupv2] return the same: the same cgroup,
    or the same error. *)
Theorem GetPidCgroup_agrees_when_unified sys pid :
  utils.IsCgroup2UnifiedMode sys <> inr false ->
  utils.GetPidCgroup sys pid = utils.GetPidCgroupv2 sys pid.
Proof.
  intros Hmode. unfold utils.GetPidCgroup, utils.GetPidCgroupv2.
  destruct (utils.IsCgroup2UnifiedMode sys) as [err|[|]]; [done| |done].
  cbn [negb]. destruct (utils.Open sys _) as [err|lines]; [done|].
  by rewrite scan_unified.
Qed.

(** * The theorems at concrete inputs *)

(** ** C1 *)

(** C1 at a concrete input: the explicit expose map has port 80 with "udp"
    and the image declares "80/tcp"; the merged expose set keeps "tcp" alone
    for port 80, and the call publishes port 80 for tcp and nothing for
    udp. *)
Lemma merge_is_not_a_union :
  Expose exposeUDP !! 80 = Some "udp" /\
  parseImageExpose "80/tcp" = inr (80, "tcp") /\
  @mergeExpose Stub.runtime exposeUDP (Some imageTCP) Stub.w0
    = (Ok {[ 80 := "tcp" ]}, mkWorld 2 0) /\
  @createPortMappings Stub.runtime exposeUDP (Some imageTCP) Stub.w0
    = (Ok [cni 40000 80 "tcp" ""], mkWorld 5 1) /\
  ~ (exists m, m ∈ [cni 40000 80 "tcp" ""] /\ ocicni.Protocol m = "udp").
Proof.
  split; [reflexivity|]. split; [reflexivity|].
  split; [vm_compute; reflexivity|]. split; [vm_compute; reflexivity|].
  intros (m & Hm%list_elem_of_singleton & Hp). subst m. discriminate Hp.
Qed.

Lemma image_expose_replaces_explicit_witness :
  (exists d proto, d ∈ ({[ "80/tcp" ]} : gset string) /\
                   parseImageExpose d = inr (80, proto) /\
                   ({[ 80 := "tcp" ]} : gmap Z string) !! 80 = Some proto).
Proof.
  refine (proj1 (@image_expose_replaces_explicit Stub.runtime exposeUDP imageTCP Stub.w0
                   {[ 80 := "tcp" ]} (mkWorld 2 0) {[ "80/tcp" ]} _ _ 80) _).
  - vm_compute. reflexivity.
  - reflexivity.
  - exists "80/tcp", "tcp". split; [by apply elem_of_singleton|reflexivity].
Defined.

(** ** C4 *)

Lemma tables_are_mirrors_witness :
  tblGet (hostPortValidate parsed8000) "tcp" "0.0.0.0" 9001 = 8001.
Proof.
  refine (proj1 (@tables_are_mirrors Stub.runtime [req8000] Stub.w0 parsed8000
                   (mkWorld 1 0) _ "tcp" "0.0.0.0" 8001 9001) _ _).
  - vm_compute. reflexivity.
  - lia.
  - vm_compute. reflexivity.
Defined.

(** ** C10 *)

Lemma no_port_zero_returned_witness :
  uint16 (hostPortOf reqEdge + (rangeLen reqEdge - 1)) = 0 /\
  @parsePortMapping Stub.runtime [reqEdge] Stub.w0
    = (Err ZeroPortInExpansion, mkWorld 1 0).
Proof.
  assert (Hwf : Forall specgen.wf [reqEdge])
    by (constructor; [vm_compute; intuition discriminate|constructor]).
  destruct (proj2 (@no_port_zero_returned Stub.runtime [reqEdge] Stub.w0 Hwf) reqEdge)
    as (Hwrap & _ & Halone).
  - apply elem_of_cons. by left.
  - reflexivity.
  - split; [exact Hwrap|].
    apply (Halone ["tcp"] (mkWorld 1 0)).
    + vm_compute. reflexivity.
    + reflexivity.
    + discriminate.
    + vm_compute. discriminate.
Defined.

(** ** C3 *)

Lemma final_mappings_unique_witness :
  ~ (ocicni.Protocol (cni 9000 8000 "tcp" "") = ocicni.Protocol (cni 40001 80 "tcp" "") /\
     resolveIP (ocicni.HostIP (cni 9000 8000 "tcp" ""))
       = resolveIP (ocicni.HostIP (cni 40001 80 "tcp" "")) /\
     ocicni.HostPort (cni 9000 8000 "tcp" "") = ocicni.HostPort (cni 40001 80 "tcp" "")) /\
  ~ (ocicni.Protocol (cni 9000 8000 "tcp" "") = ocicni.Protocol (cni 40001 80 "tcp" "") /\
     resolveIP (ocicni.HostIP (cni 9000 8000 "tcp" ""))
       = resolveIP (ocicni.HostIP (cni 40001 80 "tcp" "")) /\
     ocicni.ContainerPort (cni 9000 8000 "tcp" "")
       = ocicni.ContainerPort (cni 40001 80 "tcp" "")).
Proof.
  apply (@final_mappings_unique Stub.runtime specBoth (Some imageBoth) Stub.w0
           [cni 9000 8000 "tcp" ""; cni 9001 8001 "tcp" ""; cni 9002 8002 "tcp" "";
            cni 40000 53 "udp" ""; cni 40001 80 "tcp" ""]
           (mkWorld 7 2)) with (i := 0%nat) (j := 4%nat).
  - intros k v H. cbn in H. apply lookup_singleton_Some in H as [<- _]. lia.
  - intros n z [= <-]. lia.
  - vm_compute. reflexivity.
  - reflexivity.
  - reflexivity.
  - lia.
Defined.

(** Uniqueness needs a port source that does not answer 0, which the
    operating system does not do for a listener it bound: after an
    answer 0 the loop records the mapping and goes on, [hostPort] being 0
    still, and publishes the container port a second time. *)
Lemma zero_answer_publishes_twice :
  @createPortMappings Stub.zeroFirst specLocal None Stub.w0
    = (Ok [cni 8080 80 "tcp" "127.0.0.1"; cni 0 80 "tcp" ""; cni 40001 80 "tcp" ""],
       mkWorld 5 2).
Proof. vm_compute. reflexivity. Qed.

(** ** C5 *)

Lemma exhaustion_after_15_probes_witness :
  @createPortMappings Stub.busy specBusy None Stub.w0
    = (Err (PortAllocationExhausted 443), mkWorld 5 15).
Proof.
  apply (@exhaustion_after_15_probes Stub.busy specBusy None Stub.w0 parsedBusy
           (mkWorld 1 0) {[ 443 := "tcp" ]} (mkWorld 2 0) markedBusy.1 markedBusy.2
           (mkWorld 4 0) 443 "tcp" [] []).
  - vm_compute. reflexivity.
  - reflexivity.
  - left. vm_compute. discriminate.
  - vm_compute. reflexivity.
  - vm_compute. reflexivity.
  - vm_compute. reflexivity.
  - intros n. exists 8080. split; [reflexivity|]. vm_compute. eexists. reflexivity.
Defined.

(** ** C7 *)

Lemma sctp_only_for_explicit_mappings_witness :
  exists port w',
    @createPortMappings Stub.runtime specPlain (Some imageSCTP) Stub.w0
      = (Err (ExposeProtocol port ProtocolNotAllowed), w') /\
    ({[ 53 := "sctp" ]} : gmap Z string) !! port = Some "sctp".
Proof.
  refine (proj2 (proj2 (proj2 (proj2 (@sctp_only_for_explicit_mappings Stub.runtime Stub.w0)))
           specPlain (Some imageSCTP)
           (Stub.value (mkPState [] ∅ ∅) (@parsePortMapping Stub.runtime [req80] Stub.w0))
           (mkWorld 1 0) {[ 53 := "sctp" ]} (mkWorld 3 0) 53 _ _ _ _ _) _).
  - vm_compute. reflexivity.
  - reflexivity.
  - right. eexists. reflexivity.
  - vm_compute. reflexivity.
  - reflexivity.
  - intros port' proto [<- <-]%lookup_singleton_Some Hne. by destruct Hne.
Defined.

(** ** C9 *)


(** ** The further properties *)

Lemma checkProtocol_result_witness :
  exists ps, @checkProtocol Stub.runtime "tcp,,udp" false Stub.w0 = (Ok ps, tick Stub.w0).
Proof.
  apply (proj2 (@checkProtocol_result Stub.runtime "tcp,,udp" false Stub.w0)).
  change (Split "tcp,,udp" ",") with ["tcp"; ""; "udp"].
  constructor; [by left|]. constructor; [right; by left|].
  constructor; [right; right; by left|]. constructor.
Defined.

Lemma checkProtocol_error_witness :
  ProtocolNotAllowed <> NoValidProtocols /\
  exists pre t suf,
    Split "tcp,sctp,bogus" "," = (pre ++ t :: suf)%list /\
    Forall (validToken false) pre /\ ~ validToken false t /\
    ProtocolNotAllowed = (if (t =? "sctp")%string then ProtocolNotAllowed else InvalidProtocol t).
Proof.
  apply (@checkProtocol_error Stub.runtime "tcp,sctp,bogus" false Stub.w0
           ProtocolNotAllowed Stub.w0).
  vm_compute. reflexivity.
Defined.

Lemma every_request_is_mapped_witness :
  tblGet (containerPortValidate parsedPair) "tcp" "0.0.0.0" 8002 = 9002.
Proof.
  refine (proj1 (@every_request_is_mapped Stub.runtime [req80; req8000] Stub.w0 parsedPair
                   (mkWorld 2 0) req8000 "tcp" 2 _ _ _ _ _)).
  - vm_compute. reflexivity.
  - repeat constructor; vm_compute; discriminate.
  - apply list_elem_of_further, list_elem_of_here.
  - exists "tcp". split; [apply list_elem_of_here|reflexivity].
  - change (rangeLen req8000) with 3. lia.
Defined.

Lemma no_conflict_survives_witness :
  specgen.ContainerPort req80 + 0 = specgen.ContainerPort req8000 + 2 <->
  hostPortOf req80 + 0 = hostPortOf req8000 + 2.
Proof.
  apply (@no_conflict_survives Stub.runtime [req80; req8000] Stub.w0 parsedPair
           (mkWorld 2 0) req80 req8000 "tcp" 0 2).
  - vm_compute. reflexivity.
  - repeat constructor; vm_compute; discriminate.
  - apply list_elem_of_here.
  - apply list_elem_of_further, list_elem_of_here.
  - exists "tcp". split; [apply list_elem_of_here|reflexivity].
  - exists "tcp". split; [apply list_elem_of_here|reflexivity].
  - reflexivity.
  - change (rangeLen req80) with 1. lia.
  - change (rangeLen req8000) with 3. lia.
Defined.

Lemma every_mapping_is_requested_witness :
  exists port, port ∈ [req80; req8000] /\ mappingOf port (cni 9001 8001 "tcp" "").
Proof.
  apply (@every_mapping_is_requested Stub.runtime [req80; req8000] Stub.w0 parsedPair
           (mkWorld 2 0)).
  - vm_compute. reflexivity.
  - repeat constructor; vm_compute; discriminate.
  - vm_compute. do 2 apply list_elem_of_further. apply list_elem_of_here.
Defined.

Lemma repeated_request_changes_nothing_witness :
  @parsePortMapping Stub.runtime ([req80; req8000] ++ [req80]) Stub.w0
    = (Ok parsedPair, tick (mkWorld 2 0)).
Proof.
  apply (@repeated_request_changes_nothing Stub.runtime [req80; req8000] Stub.w0).
  - vm_compute. reflexivity.
  - repeat constructor; vm_compute; discriminate.
  - apply list_elem_of_here.
Defined.

Lemma single_request_expansion_witness :
  exists st,
    @parsePortMapping Stub.runtime [reqDNS] Stub.w0 = (Ok st, mkWorld 1 0) /\
    finalMappings st = requestMappings reqDNS ["udp"; "tcp"].
Proof.
  apply (@single_request_expansion Stub.runtime reqDNS Stub.w0 ["udp"; "tcp"] (mkWorld 1 0)).
  - repeat constructor; vm_compute; discriminate.
  - vm_compute. reflexivity.
  - reflexivity.
  - discriminate.
  - change (rangeLen reqDNS) with 2. cbn. lia.
  - change (rangeLen reqDNS) with 2. change (hostPortOf reqDNS) with 5353. lia.
Defined.

Lemma only_exposed_ports_are_published_witness :
  exists parsed w1 news,
    @parsePortMapping Stub.runtime (PortMappings specBoth) Stub.w0 = (Ok parsed, w1) /\
    [cni 9000 8000 "tcp" ""; cni 9001 8001 "tcp" ""; cni 9002 8002 "tcp" "";
     cni 40000 53 "udp" ""; cni 40001 80 "tcp" ""] = (finalMappings parsed ++ news)%list /\
    forall m, m ∈ news ->
      PublishExposedPorts specBoth = true /\
      ocicni.HostIP m = "" /\
      exists expose w2 port proto,
        @mergeExpose Stub.runtime specBoth (Some imageBoth) w1 = (Ok expose, w2) /\
        expose !! port = Some proto /\ port <> 0 /\
        ocicni.ContainerPort m = int32 port /\
        (exists t, t ∈ Split proto "," /\ tokenProtocol t = ocicni.Protocol m) /\
        tblGet (containerPortValidate parsed) (ocicni.Protocol m) "0.0.0.0" port = 0.
Proof.
  apply (@only_exposed_ports_are_published Stub.runtime specBoth (Some imageBoth) Stub.w0
           _ (mkWorld 7 2)).
  vm_compute. reflexivity.
Defined.

Lemma published_expose_set_is_valid_witness :
  exists parsed w1 expose w2,
    @parsePortMapping Stub.runtime (PortMappings specBoth) Stub.w0 = (Ok parsed, w1) /\
    @mergeExpose Stub.runtime specBoth (Some imageBoth) w1 = (Ok expose, w2) /\
    forall port proto, expose !! port = Some proto ->
      port <> 0 /\ Forall (validToken false) (Split proto ",").
Proof.
  apply (@published_expose_set_is_valid Stub.runtime specBoth (Some imageBoth) Stub.w0
           [cni 9000 8000 "tcp" ""; cni 9001 8001 "tcp" ""; cni 9002 8002 "tcp" "";
            cni 40000 53 "udp" ""; cni 40001 80 "tcp" ""]
           (mkWorld 7 2)).
  - vm_compute. reflexivity.
  - reflexivity.
  - right. by eexists.
Defined.

Lemma image_errors_fail_the_call_witness :
  @createPortMappings Stub.runtime specPlain (Some imageBroken) Stub.w0
    = (Err (InspectFailed (External "no such image")), tick (mkWorld 1 0)) /\
  exists d' e',
    d' ∈ ({[ "http/tcp"; "80/tcp" ]} : gset string) /\
    parseImageExpose d' = inl e' /\
    ((exists cause, e' = ExposeNotANumber d' cause) \/
     (exists num, e' = ExposeNotAPort num d' /\ (65535 < num \/ num < 1))) /\
    @createPortMappings Stub.runtime specPlain (Some imageNamed) Stub.w0
      = (Err e', tick (tick (mkWorld 1 0))).
Proof.
  split.
  - apply (proj1 (@image_errors_fail_the_call Stub.runtime specPlain imageBroken Stub.w0
                    parsedBusy (mkWorld 1 0) ltac:(vm_compute; reflexivity) eq_refl)).
    reflexivity.
  - apply (proj2 (@image_errors_fail_the_call Stub.runtime specPlain imageNamed Stub.w0
                    parsedBusy (mkWorld 1 0) ltac:(vm_compute; reflexivity) eq_refl)
             {[ "http/tcp"; "80/tcp" ]} "http/tcp"
             (ExposeNotANumber "http/tcp" (External "strconv.Atoi: invalid syntax"))).
    + reflexivity.
    + apply elem_of_union. left. by apply elem_of_singleton.
    + vm_compute. reflexivity.
Defined.

Lemma probe_error_ends_the_call_witness :
  (S 0 = probeCalls (mkWorld 5 1) /\
   (Err (External "unable to get free TCP port") : Outcome (list ocicni.PortMapping))
     = Err (External "unable to get free TCP port")).
Proof.
  apply (proj1 (proj2 (@probe_error_ends_the_call Stub.noListener specBusy None Stub.w0
                         (Err (External "unable to get free TCP port")) (mkWorld 5 1)
                         ltac:(vm_compute; reflexivity)))
           0%nat (External "unable to get free TCP port")).
  - cbn. lia.
  - reflexivity.
Defined.

Lemma probes_are_bounded_witness :
  (Err (PortAllocationExhausted 443) : Outcome (list ocicni.PortMapping)) <> Diverge /\
  (probeCalls (mkWorld 5 15)
     <= probeCalls Stub.w0 + 32 * (size (Expose specBusy) + declaredCount None))%nat /\
  (@nonzeroProbes Stub.busy ->
   (probeCalls (mkWorld 5 15)
      <= probeCalls Stub.w0 + 30 * (size (Expose specBusy) + declaredCount None))%nat).
Proof.
  apply (@probes_are_bounded Stub.busy specBusy None Stub.w0).
  vm_compute. reflexivity.
Defined.

Lemma free_answers_are_taken_in_order_witness :
  @createPortMappings Stub.runtime specBoth (Some imageBoth) Stub.w0
    = (Ok (finalMappings parsed8000 ++
           publishedMappings
             (pairsOf (@orderToExpose Stub.runtime (rangeCalls (mkWorld 6 0))
                         (map_to_list markedBoth.1)))
             [40000; 40001])%list,
       mkWorld (S (rangeCalls (mkWorld 6 0))) (probeCalls Stub.w0 + length [40000; 40001])).
Proof.
  apply (@free_answers_are_taken_in_order Stub.runtime specBoth (Some imageBoth) Stub.w0
           parsed8000 (mkWorld 1 0) {[ 80 := "tcp"; 53 := "udp" ]} (mkWorld 3 0)
           markedBoth.1 markedBoth.2 (mkWorld 6 0) [40000; 40001]).
  - vm_compute. reflexivity.
  - reflexivity.
  - left. vm_compute. discriminate.
  - vm_compute. reflexivity.
  - vm_compute. reflexivity.
  - vm_compute. reflexivity.
  - intros [|[|k]] c H; cbn in H; [by injection H as <-..|done].
  - repeat constructor; discriminate.
  - vm_compute. repeat constructor; intros H; inversion H; subst;
      try discriminate; match goal with H' : _ ∈ [] |- _ => inversion H' end.
  - intros c p Hin.
    destruct (decide (tblGet (hostPortValidate parsed8000) p "0.0.0.0" (uint16 c) = 0))
      as [|Hne]; [done|].
    exfalso.
    destruct (host_claim_has_mapping parsed8000 p "0.0.0.0" (uint16 c)) as (m & Hm & Hk);
      [|exact Hne|].
    { apply (@parsePortMapping_inv Stub.runtime [req8000] Stub.w0 parsed8000 (mkWorld 1 0)).
      vm_compute. reflexivity. }
    change (finalMappings parsed8000)
      with [cni 9000 8000 "tcp" ""; cni 9001 8001 "tcp" ""; cni 9002 8002 "tcp" ""] in Hm.
    apply elem_of_cons in Hin as [->|Hin]; [|apply list_elem_of_singleton in Hin as ->].
    all: repeat (apply elem_of_cons in Hm as [->|Hm]); try (by apply elem_of_nil in Hm).
    all: vm_compute in Hk; discriminate.
Defined.

Lemma GetPidCgroupv2_first_unified_line_witness :
  utils.GetPidCgroupv2 (utils.host true linesUnified) 0
    = utils.Return "/user.slice/session-2.scope".
Proof.
  apply (proj1 (proj2 (GetPidCgroupv2_first_unified_line (utils.host true linesUnified) 0))).
  split; [reflexivity|]. split; [discriminate|].
  exists ["12:pids:/a"], ["0::/other"]. split; [reflexivity|].
  repeat constructor.
Defined.

Lemma GetPidCgroup_v1_pids_line_witness :
  utils.GetPidCgroup (utils.host false linesV1) 0
    = utils.Return "/user.slice/session-2.scope".
Proof.
  apply (proj1 (GetPidCgroup_v1_pids_line (utils.host false linesV1) 0 linesV1
                  eq_refl eq_refl)).
  split; [discriminate|].
  exists ["11:devices:/user.slice"], "4"%char, [""]. split; [reflexivity|].
  repeat constructor. exists "1"%char, "1:devices:/user.slice". by split.
Defined.

Lemma GetPidCgroup_agrees_when_unified_witness :
  utils.GetPidCgroup (utils.host true linesUnified) 4242
    = utils.GetPidCgroupv2 (utils.host true linesUnified) 4242.
Proof. apply GetPidCgroup_agrees_when_unified. discriminate. Defined.
